(** * med-calculator: the product store, the category registry, the
      aggregator and the persistence adapter of [src/App.tsx]

    The component keeps two pieces of React state, [products] and
    [categories], and derives [totalSum] and [rows] from [products].
    The state transitions and the derivation are embedded here as pure
    functions on an explicit state record.

    Conventions of the embedding:
    - a JavaScript string is the list of its UTF-16 code units;
    - a JavaScript number is an IEEE-754 binary64 value, [float]: its
      arithmetic rounds to nearest (ties to even), overflows to an
      infinity and has a NaN, as the arithmetic of the source does;
    - a JavaScript [Map] is an association list in insertion order;
    - [confirm], [localStorage.getItem], [localStorage.setItem],
      [JSON.parse] and [JSON.stringify] are inputs of the functions that
      call them. *)

From Stdlib Require Import String Ascii.
From Stdlib Require Import List NArith ZArith QArith Qpower Qabs Bool Arith Lia Lqa.
From Stdlib Require Import Floats.
From Stdlib Require Uint63.
From Stdlib Require Import Permutation Sorted.
Import ListNotations.

Set Warnings "-inexact-float".
Local Open Scope float_scope.

(** ** JavaScript strings *)

Definition codeunit := N.
Definition jsstring := list codeunit.

(** A string literal of the source (ASCII only) as code units. *)
Definition lit (s : string) : jsstring :=
  map N_of_ascii (list_ascii_of_string s).

(** [a === b] on strings. *)
Fixpoint str_eqb (a b : jsstring) : bool :=
  match a, b with
  | [], [] => true
  | x :: a', y :: b' => N.eqb x y && str_eqb a' b'
  | _, _ => false
  end.

(** [!s]: the empty string is the only falsy string. *)
Definition str_falsy (s : jsstring) : bool :=
  match s with [] => true | _ :: _ => false end.

(** ECMAScript WhiteSpace and LineTerminator code points, the characters
    [String.prototype.trim] strips. *)
Definition is_white (c : codeunit) : bool :=
  ((9 <=? c) && (c <=? 13) || (c =? 32) || (c =? 160) || (c =? 5760)
   || (8192 <=? c) && (c <=? 8202) || (c =? 8232) || (c =? 8233)
   || (c =? 8239) || (c =? 8287) || (c =? 12288) || (c =? 65279))%N.

Fixpoint trimStart (s : jsstring) : jsstring :=
  match s with
  | [] => []
  | c :: s' => if is_white c then trimStart s' else s
  end.

Definition trimEnd (s : jsstring) : jsstring := rev (trimStart (rev s)).

Definition trim (s : jsstring) : jsstring := trimEnd (trimStart s).

Definition white (c : codeunit) : Prop := is_white c = true.

(** [arr.includes(s)] on an array of strings. *)
Definition includes (arr : list jsstring) (s : jsstring) : bool :=
  existsb (str_eqb s) arr.

(** ** JavaScript numbers *)

(** A number is a binary64 value. *)
Definition number := float.

(** [!x] on a number: NaN and the zeros of either sign are falsy. *)
Definition num_falsy (x : number) : bool := is_nan x || (x =? 0).

(** [Number(x) || 0] for a field typed [number], on which [Number] is the
    identity. *)
Definition num_or_zero (x : number) : number :=
  if num_falsy x then 0 else x.

(** [isFinite(x)]: neither NaN nor an infinity. *)
Definition finite (x : number) : bool :=
  match Prim2SF x with
  | S754_zero _ | S754_finite _ _ _ => true
  | _ => false
  end.

(** ** Types *)

Definition Category := jsstring.

Record Product : Type := mkProduct {
  id : jsstring;
  name : jsstring;
  qty : number;
  price : number;
  category : Category
}.

(** [Partial<Product>]: every field optional. *)
Record PartialProduct : Type := mkPatch {
  patch_id : option jsstring;
  patch_name : option jsstring;
  patch_qty : option number;
  patch_price : option number;
  patch_category : option Category
}.

(** ** The summary: [Map<Category, number>] in insertion order *)

Definition JsMap := list (Category * number).

Fixpoint map_get (k : Category) (m : JsMap) : option number :=
  match m with
  | [] => None
  | (k', v) :: m' => if str_eqb k' k then Some v else map_get k m'
  end.

(** [map.set(k, v)]: an existing key keeps its position, a new key goes
    last. *)
Fixpoint map_set (k : Category) (v : number) (m : JsMap) : JsMap :=
  match m with
  | [] => [(k, v)]
  | (k', v') :: m' =>
      if str_eqb k' k then (k', v) :: m' else (k', v') :: map_set k v m'
  end.

(** [map.get(k) ?? 0] *)
Definition get_or_zero (k : Category) (m : JsMap) : number :=
  match map_get k m with
  | Some v => v
  | None => 0
  end.

(** [const sum = (Number(p.qty) || 0) * (Number(p.price) || 0)] *)
Definition lineTotal (p : Product) : number :=
  num_or_zero (qty p) * num_or_zero (price p).

(** One iteration of [for (const p of products)] on [(map, total)]. *)
Definition summary_step (acc : JsMap * number) (p : Product) : JsMap * number :=
  let sum := lineTotal p in
  let total := snd acc + sum in
  if str_falsy (category p) then (fst acc, total)
  else
    (map_set (category p) (get_or_zero (category p) (fst acc) + sum) (fst acc),
     total).

Definition summary_loop (products : list Product) : JsMap * number :=
  fold_left summary_step products ([], 0).

Record Row : Type := mkRow {
  cat : Category;
  sum : number;
  share : number
}.

(** The callback of [Array.from(map.entries()).map(...)]. *)
Definition mkOut (total : number) (e : Category * number) : Row :=
  {| cat := fst e;
     sum := snd e;
     share := if 0 <? total then snd e / total * 100 else 0 |}.

(** [Array.prototype.sort(cmp)]: the sort is stable and, for a consistent
    comparator, its result is determined by that; it is embedded as a
    stable insertion sort. A positive [cmp a b] puts [b] before [a]; a
    negative one, a zero and a NaN (which counts as [+0]) keep [a] before
    [b]. *)
Section Sort.
Context {A : Type} (cmp : A -> A -> number).

Fixpoint sort_insert (x : A) (l : list A) : list A :=
  match l with
  | [] => [x]
  | y :: l' =>
      if 0 <? cmp x y then y :: sort_insert x l' else x :: l
  end.

Definition array_sort (l : list A) : list A :=
  fold_right sort_insert [] l.
End Sort.

(** [(a, b) => b.sum - a.sum] *)
Definition by_sum_desc (a b : Row) : number := sum b - sum a.

(** The body of the [useMemo]: [{ totalSum, rows }]. *)
Definition summary (products : list Product) : number * list Row :=
  let acc := summary_loop products in
  let total := snd acc in
  let out := map (mkOut total) (fst acc) in
  (total, array_sort by_sum_desc out).

Definition totalSum (products : list Product) : number := fst (summary products).
Definition rows (products : list Product) : list Row := snd (summary products).

(** ** Component state *)

Record State : Type := mkState {
  products : list Product;
  categories : list Category;
  newCat : jsstring;
  openAddCat : bool
}.

(** [["Xitoy", "O'zbekiston"]], the fallback of the first load and the
    value [resetAll] installs. *)
Definition default_categories : list Category :=
  [lit "Xitoy"; lit "O'zbekiston"].

Definition setProducts (f : list Product -> list Product) (st : State) : State :=
  {| products := f (products st);
     categories := categories st;
     newCat := newCat st;
     openAddCat := openAddCat st |}.

Definition setCategories (f : list Category -> list Category) (st : State) : State :=
  {| products := products st;
     categories := f (categories st);
     newCat := newCat st;
     openAddCat := openAddCat st |}.

Definition setNewCat (v : jsstring) (st : State) : State :=
  {| products := products st;
     categories := categories st;
     newCat := v;
     openAddCat := openAddCat st |}.

Definition setOpenAddCat (b : bool) (st : State) : State :=
  {| products := products st;
     categories := categories st;
     newCat := newCat st;
     openAddCat := b |}.

(** [addRow]; the fresh identifier [uuid()] is an input. *)
Definition addRow (fresh : jsstring) (st : State) : State :=
  setProducts
    (fun prev =>
       prev ++ [ {| id := fresh;
                    name := [];
                    qty := 0;
                    price := 0;
                    category := hd [] (categories st) |} ])
    st.

(** [removeRow]: [prev.filter((p) => p.id !== id)] *)
Definition removeRow (i : jsstring) (st : State) : State :=
  setProducts (filter (fun p => negb (str_eqb (id p) i))) st.

(** [{ ...p, ...patch }] *)
Definition spread (p : Product) (patch : PartialProduct) : Product :=
  {| id := match patch_id patch with Some v => v | None => id p end;
     name := match patch_name patch with Some v => v | None => name p end;
     qty := match patch_qty patch with Some v => v | None => qty p end;
     price := match patch_price patch with Some v => v | None => price p end;
     category :=
       match patch_category patch with Some v => v | None => category p end |}.

(** [updateRow]: [prev.map((p) => (p.id === id ? { ...p, ...patch } : p))] *)
Definition updateRow (i : jsstring) (patch : PartialProduct) (st : State) : State :=
  setProducts (map (fun p => if str_eqb (id p) i then spread p patch else p)) st.

(** [addCategory]; the label is the text field's state [newCat]. *)
Definition addCategory (st : State) : State :=
  let trimmed := trim (newCat st) in
  if str_falsy trimmed then st
  else
    let st1 :=
      if negb (includes (categories st) trimmed)
      then setCategories (fun c => c ++ [trimmed]) st
      else st in
    setOpenAddCat false (setNewCat [] st1).

(** Typing [label] into the dialog's field ([onChange]) and confirming. *)
Definition addCategoryLabel (label : jsstring) (st : State) : State :=
  addCategory (setNewCat label st).

(** [resetAll]; [answer] is what [confirm(...)] returned. *)
Definition resetAll (answer : bool) (st : State) : State :=
  if negb answer then st
  else setCategories (fun _ => default_categories) (setProducts (fun _ => []) st).

(** ** Persistence *)

(** [localStorage] as a key-value store: [getItem] gives [null] ([None])
    for an absent key. *)
Definition Storage := jsstring -> option jsstring.

Inductive completion (T : Type) : Type :=
| Returned (v : T)
| Thrown.
Arguments Returned {T} v.
Arguments Thrown {T}.

Section LoadLS.
Context {T : Type}.
(** [JSON.parse(raw) as T]: [None] when it throws a [SyntaxError]. *)
Variable JSON_parse : jsstring -> option T.

(** The [try] block of [loadLS]. *)
Definition loadLS_try (ls : Storage) (key : jsstring) (fallback : T)
  : completion T :=
  match ls key with
  | None => Returned fallback
  | Some raw =>
      if str_falsy raw then Returned fallback
      else match JSON_parse raw with
           | Some v => Returned v
           | None => Thrown
           end
  end.

(** [loadLS]: the [catch] clause returns [fallback]. *)
Definition loadLS (ls : Storage) (key : jsstring) (fallback : T) : T :=
  match loadLS_try ls key fallback with
  | Returned v => v
  | Thrown => fallback
  end.
End LoadLS.


(** ** Persistence: writing, and the effects around the state *)

(** What the component's effects act on: the store and the console. *)
Record World : Type := mkWorld {
  storage : Storage;
  console : list jsstring
}.

Section SaveLS.
Context {T : Type}.
(** [JSON.stringify(value)] on plain data. *)
Variable JSON_stringify : T -> jsstring.
(** Whether the store takes a write; [setItem] throws when it does not
    (the quota is exceeded). *)
Variable accepts : Storage -> jsstring -> jsstring -> bool.

(** [localStorage.setItem(key, value)] *)
Definition setItem (ls : Storage) (key value : jsstring) : completion Storage :=
  if accepts ls key value
  then Returned (fun k => if str_eqb k key then Some value else ls k)
  else Thrown.

(** [saveLS]: the [catch] clause logs and goes on. *)
Definition saveLS (key : jsstring) (value : T) (w : World) : World :=
  match setItem (storage w) key (JSON_stringify value) with
  | Returned ls => {| storage := ls; console := console w |}
  | Thrown => {| storage := storage w; console := console w ++ [lit "CATCHED"] |}
  end.
End SaveLS.

Definition LS_PRODUCTS : jsstring := lit "app.products".
Definition LS_CATEGORIES : jsstring := lit "app.categories".

Section Component.
Variable parse_categories : jsstring -> option (list Category).
Variable parse_products : jsstring -> option (list Product).
Variable stringify_categories : list Category -> jsstring.
Variable stringify_products : list Product -> jsstring.
Variable accepts : Storage -> jsstring -> jsstring -> bool.

(** The two [useState] initialisers; [uuid1] and [uuid2] are the results of
    the two [uuid()] calls of the products' fallback. *)
Definition initial_state (uuid1 uuid2 : jsstring) (ls : Storage) : State :=
  {| categories := loadLS parse_categories ls LS_CATEGORIES default_categories;
     products :=
       loadLS parse_products ls LS_PRODUCTS
         [ {| id := uuid1; name := lit "Telefon"; qty := 10;
              price := 200; category := lit "Xitoy" |};
           {| id := uuid2; name := lit "Non"; qty := 20;
              price := 10; category := lit "O'zbekiston" |} ];
     newCat := [];
     openAddCat := false |}.

(** [useEffect(() => saveLS(LS_PRODUCTS, products), [products])] *)
Definition products_effect (st : State) (w : World) : World :=
  saveLS stringify_products accepts LS_PRODUCTS (products st) w.

(** [useEffect(() => saveLS(LS_CATEGORIES, categories), [categories])] *)
Definition categories_effect (st : State) (w : World) : World :=
  saveLS stringify_categories accepts LS_CATEGORIES (categories st) w.

(** Both effects, in the order they are declared, as after the first render
    or after a change of both arrays. *)
Definition run_effects (st : State) (w : World) : World :=
  categories_effect st (products_effect st w).
End Component.

(** ** Showing a share *)

(** [Math.round(x)] as ECMAScript defines it: [x] itself when it is not
    finite or is an integer, and otherwise the integer closest to [x], the
    one towards [+∞] of two equally close; a result of magnitude zero has
    the sign of [x]. *)
Definition Math_round (x : number) : number :=
  match Prim2SF x with
  | S754_finite s m (Zneg k) =>
      let q := (Zpos m / 2 ^ Zpos k)%Z in
      let r := (Zpos m mod 2 ^ Zpos k)%Z in
      let up := if s then (2 ^ Zpos k <? 2 * r)%Z
                else (2 ^ Zpos k <=? 2 * r)%Z in
      let v := of_uint63 (Uint63.of_Z (if up then q + 1 else q)) in
      if s then - v else v
  | _ => x
  end.

Section FmtPct.
Variable Number_toString : number -> jsstring.

(** [fmtPct]; the conversion of a number to a string in the template
    literal is an input. *)
Definition fmtPct (n : number) : jsstring :=
  if negb (finite n) then lit "0%"
  else
    let val := Math_round (n * 100) / 100 in
    Number_toString val ++ lit "%".
End FmtPct.

(** ** What the specification says, in its own words *)

(** A field's numeric value, a non-numeric one counting as zero. *)
Definition value_or_zero (x : number) : number :=
  if is_nan x then 0 else x.

(** [Σ (qty_i × price_i)] over all records, added up from the first record
    to the last in the arithmetic of the source. *)
Definition spec_total (ps : list Product) : number :=
  fold_left
    (fun acc p => acc + value_or_zero (qty p) * value_or_zero (price p))
    ps 0.

(** The same sum over the products of category [c]. *)
Definition category_total (c : Category) (ps : list Product) : number :=
  spec_total (filter (fun p => str_eqb (category p) c) ps).

(** Some product has category [c]. *)
Definition has_category (c : Category) (ps : list Product) : bool :=
  existsb (fun p => str_eqb (category p) c) ps.

(** Position of the first product of category [c] (the length of the list
    when there is none). *)
Fixpoint first_index (c : Category) (ps : list Product) : nat :=
  match ps with
  | [] => O
  | p :: ps' => if str_eqb (category p) c then O else S (first_index c ps')
  end.

(** ** Exact values, to speak about rounding *)

(** The rational a finite binary64 value stands for; 0 for the others. *)
Definition SF2Q (x : spec_float) : Q :=
  match x with
  | S754_finite s m e => (inject_Z (cond_Zopp s (Zpos m)) * (2 # 1) ^ e)%Q
  | _ => 0%Q
  end.

Definition exact (x : number) : Q := SF2Q (Prim2SF x).

(** [x] is within [eps] of [y]. *)
Definition near (eps x y : Q) : Prop := (y - eps <= x /\ x <= y + eps)%Q.

(** The addition [a + b] gives a finite number within [eps] of the exact
    sum. *)
Definition add_accurate (eps : Q) (a b : number) : Prop :=
  finite (a + b) = true /\ near eps (exact (a + b)) (exact a + exact b).

(** Every addition the loop performs from [acc] on over [ps] is accurate:
    the one into the total and, for a product with a category, the one into
    the map. *)
Fixpoint loop_accurate (eps : Q) (ps : list Product) (acc : JsMap * number)
  : Prop :=
  match ps with
  | [] => True
  | p :: ps' =>
      add_accurate eps (snd acc) (lineTotal p)
      /\ (category p <> [] ->
          add_accurate eps (get_or_zero (category p) (fst acc)) (lineTotal p))
      /\ loop_accurate eps ps' (summary_step acc p)
  end.

(** The share computed from subtotal [s] and total [t] is finite and within
    [delta] of the exact quotient times 100. *)
Definition share_accurate (delta : Q) (s t : number) : Prop :=
  finite (s / t * 100) = true
  /\ near delta (exact (s / t * 100)) (exact s / exact t * 100).

Definition Qsum (l : list Q) : Q := fold_right Qplus 0%Q l.

(** The exact sum of the rows' subtotals, and of their shares. *)
Definition subtotals_sum (ps : list Product) : Q :=
  Qsum (map (fun r => exact (sum r)) (rows ps)).

Definition shares_sum (ps : list Product) : Q :=
  Qsum (map (fun r => exact (share r)) (rows ps)).

(** The rows' subtotals added up in row order by the addition of the
    source. *)
Definition subtotals_added (ps : list Product) : number :=
  fold_left (fun acc r => acc + sum r) (rows ps) 0.

(** The exact sum of the line totals of the products that have a category,
    each line total as the loop computes it. *)
Definition categorised_lines_sum (ps : list Product) : Q :=
  Qsum (map (fun p => exact (lineTotal p))
            (filter (fun p => negb (str_falsy (category p))) ps)).

(** A natural number as a rational. *)
Definition Qnat (n : nat) : Q := inject_Z (Z.of_nat n).

(** Number of entries of a category array equal ([===]) to a label. *)
Definition occurrences (label : jsstring) (cats : list Category) : nat :=
  length (filter (str_eqb label) cats).

(** [given] merged over [old] yields [new]: the given value when there is
    one, the old value otherwise. *)
Definition field_merged {A : Type} (old : A) (given : option A) (new : A) : Prop :=
  match given with
  | Some v => new = v
  | None => new = old
  end.

(** [p'] is [p] with the fields of [patch] merged in. *)
Definition merged (p : Product) (patch : PartialProduct) (p' : Product) : Prop :=
  field_merged (id p) (patch_id patch) (id p')
  /\ field_merged (name p) (patch_name patch) (name p')
  /\ field_merged (qty p) (patch_qty patch) (qty p')
  /\ field_merged (price p) (patch_price patch) (price p')
  /\ field_merged (category p) (patch_category patch) (category p').

(** Sample data. *)
Definition telefon : Product :=
  {| id := lit "p1"; name := lit "Telefon";
     qty := 10; price := 200;
     category := lit "Xitoy" |}.

Definition non : Product :=
  {| id := lit "p2"; name := lit "Non";
     qty := 20; price := 10;
     category := lit "O'zbekiston" |}.

(** A product without a category, as [addRow] makes one when the category
    array is empty, with a quantity and a price entered afterwards, and a
    product with a category. *)
Definition loose : Product :=
  {| id := lit "p3"; name := []; qty := 1; price := 1; category := [] |}.

(** The record [addRow] makes when the category array is empty. *)
Definition unfiled : Product :=
  {| id := lit "p14"; name := []; qty := 0; price := 0; category := [] |}.

Definition boxed : Product :=
  {| id := lit "p4"; name := []; qty := 1; price := 1;
     category := lit "A" |}.

Definition first_load : State :=
  {| products := [telefon; non];
     categories := default_categories;
     newCat := [];
     openAddCat := false |}.

(** [JSON.parse] on the two boolean literals, for a store of flags. *)
Definition parse_flag (raw : jsstring) : option bool :=
  if str_eqb raw (lit "true") then Some true
  else if str_eqb raw (lit "false") then Some false
  else None.

Definition flag_store : Storage :=
  fun key => if str_eqb key (lit "app.flag") then Some (lit "true") else None.

(** ** Orders and invariants used in the proofs *)

(** The keys of a map, in insertion order. *)
Definition keys (m : JsMap) : list Category := map fst m.

(** Order of the sorted rows: a larger subtotal first and, among equal
    subtotals, the order [before] the rows came in. *)
Definition sum_then (before : Row -> Row -> Prop) (a b : Row) : Prop :=
  (sum b <? sum a) = true \/ ((sum a =? sum b) = true /\ before a b).

(** The keys of the map after the loop ran over [ps]: in increasing order of
    first appearance, all of them categories of [ps], and every non-empty
    category of [ps] among them. *)
Definition key_order (ps : list Product) (m : JsMap) : Prop :=
  StronglySorted (fun k1 k2 => (first_index k1 ps < first_index k2 ps)%nat)
                 (keys m)
  /\ Forall (fun k => (first_index k ps < length ps)%nat) (keys m)
  /\ (forall k, k <> [] -> (first_index k ps < length ps)%nat -> In k (keys m)).

(** Two categories of equal subtotal, the later one first in the alphabet. *)
Definition pears : Product :=
  {| id := lit "p5"; name := lit "Nok"; qty := 5; price := 1;
     category := lit "B" |}.

Definition apples : Product :=
  {| id := lit "p6"; name := lit "Olma"; qty := 1; price := 5;
     category := lit "A" |}.

(** A record whose quantity is not a number. *)
Definition unpriced : Product :=
  {| id := lit "p7"; name := lit "Choy"; qty := nan; price := 7;
     category := lit "A" |}.

(** Three priced at a tenth, three tenths and seven tenths, the first and the
    last in one category. *)
Definition tenth : Product :=
  {| id := lit "p8"; name := []; qty := 1; price := 0.1; category := lit "A" |}.

Definition three_tenths : Product :=
  {| id := lit "p9"; name := []; qty := 1; price := 0.3; category := lit "B" |}.

Definition seven_tenths : Product :=
  {| id := lit "p10"; name := []; qty := 1; price := 0.7; category := lit "A" |}.

(** Two lines of one category that overflow with opposite signs, and a line
    of another category. *)
Definition huge_gain : Product :=
  {| id := lit "p11"; name := []; qty := 1e200; price := 1e200;
     category := lit "A" |}.

Definition huge_loss : Product :=
  {| id := lit "p12"; name := []; qty := -1e200; price := 1e200;
     category := lit "A" |}.

Definition single : Product :=
  {| id := lit "p13"; name := []; qty := 1; price := 1; category := lit "B" |}.

(** Two lines of 2^1023, whose sum overflows, and one that takes the first
    back. *)
Definition vast_a : Product :=
  {| id := lit "p16"; name := []; qty := 0x1p1023; price := 1;
     category := lit "A" |}.

Definition vast_b : Product :=
  {| id := lit "p17"; name := []; qty := 0x1p1023; price := 1;
     category := lit "B" |}.

Definition vast_back : Product :=
  {| id := lit "p18"; name := []; qty := -0x1p1023; price := 1;
     category := lit "A" |}.

Definition two_tenths : Product :=
  {| id := lit "p20"; name := []; qty := 1; price := 0.2; category := lit "B" |}.

(** Three pieces at a tenth. *)
Definition dimes : Product :=
  {| id := lit "p19"; name := []; qty := 3; price := 0.1;
     category := lit "A" |}.

(** A refund: with [boxed] the total revenue is zero. *)
Definition refund : Product :=
  {| id := lit "p15"; name := []; qty := -1; price := 1; category := lit "B" |}.

Definition three_lines : list Product := [tenth; three_tenths; seven_tenths].

(** The same with the record [addRow] makes among them. *)
Definition tenths : list Product :=
  [tenth; unfiled; three_tenths; seven_tenths].

Definition cosmetic (patch : PartialProduct) : Prop :=
  patch_qty patch = None /\ patch_price patch = None
  /\ patch_category patch = None.

(** The identifiers of a product list. *)
Definition ids (ps : list Product) : list jsstring := map id ps.

(** A string in the double quotes of JSON. *)
Definition quoted (s : string) : jsstring := [34%N] ++ lit s ++ [34%N].

(** A state to save: the products of the first load and a third category. *)
Definition saved_categories : list Category :=
  [lit "Xitoy"; lit "O'zbekiston"; lit "Turkiya"].

Definition saved_state : State :=
  {| products := [telefon; non];
     categories := saved_categories;
     newCat := [];
     openAddCat := false |}.

(** The JSON texts of its arrays. *)
Definition saved_categories_json : jsstring :=
  lit "[" ++ quoted "Xitoy" ++ lit "," ++ quoted "O'zbekiston" ++ lit ","
  ++ quoted "Turkiya" ++ lit "]".

Definition saved_products_json : jsstring :=
  lit "[{" ++ quoted "id" ++ lit ":" ++ quoted "p1" ++ lit ","
  ++ quoted "name" ++ lit ":" ++ quoted "Telefon" ++ lit ","
  ++ quoted "qty" ++ lit ":10," ++ quoted "price" ++ lit ":200,"
  ++ quoted "category" ++ lit ":" ++ quoted "Xitoy" ++ lit "},{"
  ++ quoted "id" ++ lit ":" ++ quoted "p2" ++ lit ","
  ++ quoted "name" ++ lit ":" ++ quoted "Non" ++ lit ","
  ++ quoted "qty" ++ lit ":20," ++ quoted "price" ++ lit ":10,"
  ++ quoted "category" ++ lit ":" ++ quoted "O'zbekiston" ++ lit "}]".

(** [JSON.stringify] and [JSON.parse] at the arrays of that state and at the
    empty array. *)
Definition stringify_sample_categories (cs : list Category) : jsstring :=
  match cs with
  | [] => lit "[]"
  | _ :: _ => saved_categories_json
  end.

Definition stringify_sample_products (ps : list Product) : jsstring :=
  match ps with
  | [] => lit "[]"
  | _ :: _ => saved_products_json
  end.

Definition parse_sample_categories (raw : jsstring) : option (list Category) :=
  if str_eqb raw saved_categories_json then Some saved_categories
  else if str_eqb raw (lit "[]") then Some []
  else None.

Definition parse_sample_products (raw : jsstring) : option (list Product) :=
  if str_eqb raw saved_products_json then Some [telefon; non]
  else if str_eqb raw (lit "[]") then Some []
  else None.

Definition empty_store : Storage := fun _ => None.

Definition always_accepts (ls : Storage) (key value : jsstring) : bool := true.

(** A category array as [addCategory] builds it: no label twice, none empty,
    none with whitespace around it. *)
Definition tidy_categories (cs : list Category) : Prop :=
  NoDup cs /\ Forall (fun c => c <> [] /\ trim c = c) cs.

(** Every product's category is unset or one of the category array. *)
Definition categories_known (st : State) : Prop :=
  Forall (fun p => category p = [] \/ In (category p) (categories st))
         (products st).

(** What a patch may give as category: nothing, or a label of the array (the
    options of the row's selector). *)
Definition selectable (patch : PartialProduct) (st : State) : Prop :=
  match patch_category patch with
  | None => True
  | Some c => In c (categories st)
  end.

(** [JSON.stringify] on the two booleans. *)
Definition stringify_flag (b : bool) : jsstring :=
  if b then lit "true" else lit "false".

(** A store with room for four code units per value. *)
Definition accepts_short (ls : Storage) (key value : jsstring) : bool :=
  (length value <=? 4)%nat.

Definition fresh_world : World := {| storage := empty_store; console := [] |}.

(** A patch that renames. *)
Definition rename (to : jsstring) : PartialProduct :=
  mkPatch None (Some to) None None None.

(** ** Binary64 as specified by [SpecFloat] *)

Local Abbreviation fexp64 := (SpecFloat.fexp prec emax).
Local Abbreviation emin64 := (SpecFloat.emin prec emax).

(** A float of sign [s] that is neither zero nor NaN. *)
Definition signed_nonzero (s : bool) (x : spec_float) : Prop :=
  match x with
  | S754_finite s' _ _ => s' = s
  | S754_infinity s' => s' = s
  | _ => False
  end.

(** The negative zero. *)
Definition negzero (x : number) : Prop := Prim2SF x = S754_zero true.

(** A zero of either sign. *)
Definition any_zero (x : number) : Prop := exists s, Prim2SF x = S754_zero s.

(** [qty × price] with a non-numeric field counting as zero. *)
Definition spec_line (p : Product) : number :=
  value_or_zero (qty p) * value_or_zero (price p).

(** The line totals of a list added up as the loop adds them. *)
Definition line_sum (ps : list Product) : number :=
  fold_left (fun a p => a + lineTotal p) ps 0.

(** The exact sum of the values of a map. *)
Definition map_values_sum (m : JsMap) : Q :=
  Qsum (map (fun e => exact (snd e)) m).

(** The exact sum of the line totals of all products. *)
Definition lines_sum (ps : list Product) : Q :=
  Qsum (map (fun p => exact (lineTotal p)) ps).

(** ** Numbers that are not negative *)

(** Not below zero: NaN, a zero, or a positive number, an infinity too. *)
Definition not_negative (x : number) : Prop := (x <? 0) = false.

Definition SF_not_negative (z : spec_float) : Prop :=
  match z with
  | S754_infinity true | S754_finite true _ _ => False
  | _ => True
  end.

(** No product has a negative quantity or price. *)
Definition no_negative_field (ps : list Product) : Prop :=
  Forall (fun p => not_negative (qty p) /\ not_negative (price p)) ps.

(** ** Rounding, step by step *)

(** [mrs] holds the integer part of [N / W] and its two rounding bits. *)
Definition shr_inv (N W : Z) (mrs : shr_record) : Prop :=
  exists rem : Z,
    N = (shr_m mrs * W + rem)%Z /\ (0 <= rem < W)%Z
    /\ shr_r mrs = (W <=? 2 * rem)%Z
    /\ shr_s mrs = negb ((rem =? 0)%Z || (2 * rem =? W)%Z).

(** [z] is the zero or the finite number of sign [s] and magnitude
    [c * 2 ^ E]. *)
Definition SF_is (z : spec_float) (s : bool) (c E : Z) : Prop :=
  match z with
  | S754_zero s' => s' = s /\ c = 0%Z
  | S754_finite s' m e => s' = s /\ (E <= e)%Z /\ (Zpos m * 2 ^ (e - E))%Z = c
  | _ => False
  end.

(** The unit roundoff of binary64 and half its smallest positive number. *)
Definition unit_roundoff : Q := 1 # 2 ^ 53.
Definition half_tiny : Q := 1 # 2 ^ 1075.

(** Neither NaN nor an infinity, on the side of [SpecFloat]. *)
Definition SF_finite (z : spec_float) : bool :=
  match z with
  | S754_zero _ | S754_finite _ _ _ => true
  | _ => false
  end.

(** ** Sums that stay within bounds *)

(** The addition [a + b] gives a finite number of magnitude at most [M]. *)
Definition add_bounded (M : Q) (a b : number) : Prop :=
  finite (a + b) = true /\ (Qabs (exact (a + b)%float) <= M)%Q.

(** No addition the loop performs from [acc] on over [ps] overflows, and
    every running sum, of the total and of a category, stays within [M]. *)
Fixpoint loop_bounded (M : Q) (ps : list Product) (acc : JsMap * number)
  : Prop :=
  match ps with
  | [] => True
  | p :: ps' =>
      add_bounded M (snd acc) (lineTotal p)
      /\ (category p <> [] ->
          add_bounded M (get_or_zero (category p) (fst acc)) (lineTotal p))
      /\ loop_bounded M ps' (summary_step acc p)
  end.

(** A share that is finite and of magnitude at most [P]. *)
Definition share_bounded (P : Q) (r : Row) : Prop :=
  finite (share r) = true /\ (Qabs (exact (share r)) <= P)%Q.

(** * Proofs *)

(** ** Comparisons of strings *)

Lemma str_eqb_eq (a b : jsstring) : str_eqb a b = true <-> a = b.
Proof.
  revert b; induction a as [|x a IH]; intros [|y b]; simpl;
    try (split; [discriminate | discriminate]); try tauto.
  rewrite andb_true_iff, N.eqb_eq, IH.
  split.
  - intros [-> ->]; reflexivity.
  - intros E; injection E; auto.
Qed.

Lemma str_eqb_refl (a : jsstring) : str_eqb a a = true.
Proof. apply str_eqb_eq; reflexivity. Qed.

Lemma str_eqb_neq (a b : jsstring) : str_eqb a b = false <-> a <> b.
Proof.
  rewrite <- str_eqb_eq. destruct (str_eqb a b); split; congruence.
Qed.

Lemma str_eqb_sym (a b : jsstring) : str_eqb a b = str_eqb b a.
Proof.
  destruct (str_eqb a b) eqn:E.
  - apply str_eqb_eq in E; subst; symmetry; apply str_eqb_refl.
  - symmetry; apply str_eqb_neq; apply str_eqb_neq in E; congruence.
Qed.

Lemma str_falsy_nil (s : jsstring) : str_falsy s = true <-> s = [].
Proof. destruct s; simpl; split; congruence. Qed.


(** ** Binary64: rounding keeps a non-zero mantissa non-zero *)

Lemma emin64_value : emin64 = (-1074)%Z.
Proof. reflexivity. Qed.

Lemma fexp64_value (e : Z) : fexp64 e = Z.max (e - 53) (-1074).
Proof. reflexivity. Qed.

Lemma shr_1_pos (m : positive) (r s : bool) :
  (1 < Zpos (digits2_pos m))%Z ->
  exists m', shr_m (shr_1 (Build_shr_record (Zpos m) r s)) = Zpos m'
             /\ Zpos (digits2_pos m') = (Zpos (digits2_pos m) - 1)%Z.
Proof.
  destruct m as [p|p|]; cbn [digits2_pos shr_1 shr_m]; intros H.
  - exists p; split; [reflexivity | rewrite Pos2Z.inj_succ; lia].
  - exists p; split; [reflexivity | rewrite Pos2Z.inj_succ; lia].
  - lia.
Qed.

Lemma iter_shr_1_pos (p : positive) :
  forall (mrs : shr_record) (m : positive),
    shr_m mrs = Zpos m ->
    (Zpos p < Zpos (digits2_pos m))%Z ->
    exists m', shr_m (iter_pos shr_1 p mrs) = Zpos m'
               /\ Zpos (digits2_pos m') = (Zpos (digits2_pos m) - Zpos p)%Z.
Proof.
  induction p as [p IH|p IH|]; intros [mz r s] m Hm Hlt; simpl in Hm; subst mz.
  - cbn [iter_pos].
    destruct (shr_1_pos m r s) as [m0 [H0 D0]]; [lia|].
    destruct (IH _ m0 H0) as [m1 [H1 D1]]; [lia|].
    destruct (IH _ m1 H1) as [m2 [H2 D2]]; [lia|].
    exists m2; split; [assumption | lia].
  - cbn [iter_pos].
    destruct (IH (Build_shr_record (Zpos m) r s) m eq_refl) as [m1 [H1 D1]]; [lia|].
    destruct (IH _ m1 H1) as [m2 [H2 D2]]; [lia|].
    exists m2; split; [assumption | lia].
  - cbn [iter_pos]. destruct (shr_1_pos m r s) as [m0 [H0 D0]]; [lia|].
    exists m0; split; [assumption | lia].
Qed.

Lemma shr_fexp_pos (m : positive) (e : Z) (l : location) :
  (emin64 <= e)%Z ->
  exists m', shr_m (fst (shr_fexp prec emax (Zpos m) e l)) = Zpos m'
             /\ (emin64 <= snd (shr_fexp prec emax (Zpos m) e l))%Z.
Proof.
  intros He. unfold shr_fexp, shr.
  assert (Hrec : shr_m (shr_record_of_loc (Zpos m) l) = Zpos m).
  { destruct l as [|[| |]]; reflexivity. }
  destruct (fexp64 (Zdigits2 (Zpos m) + e) - e)%Z as [|p|p] eqn:En; simpl fst; simpl snd.
  - exists m; split; assumption.
  - destruct (iter_shr_1_pos p _ m Hrec) as [m' [H' _]].
    + rewrite fexp64_value in En. rewrite emin64_value in He. simpl Zdigits2 in En. lia.
    + exists m'; split; [assumption|]. rewrite emin64_value in *. lia.
  - exists m; split; assumption.
Qed.

Lemma round_nearest_even_pos (m : positive) (l : location) :
  exists m', round_nearest_even (Zpos m) l = Zpos m'.
Proof.
  destruct l as [|[| |]]; simpl; try (eexists; reflexivity).
  destruct m; simpl; eexists; reflexivity.
Qed.

Lemma binary_round_aux_sign (s : bool) (m : positive) (e : Z) (l : location) :
  (emin64 <= e)%Z ->
  signed_nonzero s (binary_round_aux prec emax s (Zpos m) e l).
Proof.
  intros He. unfold binary_round_aux.
  destruct (shr_fexp_pos m e l He) as [m1 [H1 E1]].
  destruct (shr_fexp prec emax (Zpos m) e l) as [mrs1 e1]. simpl in H1, E1.
  rewrite H1.
  destruct (round_nearest_even_pos m1 (loc_of_shr_record mrs1)) as [m2 H2].
  rewrite H2.
  destruct (shr_fexp_pos m2 e1 loc_Exact E1) as [m3 [H3 E3]].
  destruct (shr_fexp prec emax (Zpos m2) e1 loc_Exact) as [mrs3 e3]. simpl in H3, E3.
  rewrite H3.
  destruct (e3 <=? emax - prec)%Z; reflexivity.
Qed.

Lemma binary_round_sign (s : bool) (m : positive) (e : Z) :
  (emin64 <= e)%Z ->
  signed_nonzero s (binary_round prec emax s m e).
Proof.
  intros He. unfold binary_round, shl_align.
  destruct (fexp64 (Zpos (digits2_pos m) + e) - e)%Z eqn:En;
    apply binary_round_aux_sign; try assumption.
  rewrite fexp64_value, emin64_value in *. lia.
Qed.

Lemma valid_finite_emin (s : bool) (m : positive) (e : Z) :
  valid_binary (S754_finite s m e) = true -> (emin64 <= e)%Z.
Proof.
  simpl. unfold bounded, canonical_mantissa.
  intros H. apply andb_true_iff in H as [H _]. apply Z.eqb_eq in H.
  rewrite fexp64_value in H. rewrite emin64_value. lia.
Qed.

Lemma binary_normalize_sign (d e : Z) :
  (emin64 <= e)%Z ->
  match d with
  | Z0 => binary_normalize prec emax d e false = S754_zero false
  | Zpos _ => signed_nonzero false (binary_normalize prec emax d e false)
  | Zneg _ => signed_nonzero true (binary_normalize prec emax d e false)
  end.
Proof.
  intros He. destruct d; simpl; [reflexivity | |]; apply binary_round_sign; assumption.
Qed.

(** ** Binary64: addition never makes a negative zero out of anything else *)

Lemma SFadd_not_negzero (x y : spec_float) :
  valid_binary x = true -> valid_binary y = true ->
  x <> S754_zero true -> SFadd prec emax x y <> S754_zero true.
Proof.
  intros Vx Vy Hx.
  destruct x as [[|]| [|] | |sx mx ex], y as [[|]| [|] | |sy my ey];
    simpl; try discriminate; try congruence.
  apply valid_finite_emin in Vx, Vy.
  set (d := (cond_Zopp sx (Z.pos (fst (shl_align mx ex (Z.min ex ey)))) +
             cond_Zopp sy (Z.pos (fst (shl_align my ey (Z.min ex ey)))))%Z).
  pose proof (binary_normalize_sign d (Z.min ex ey)) as H.
  destruct d; [rewrite H by lia; discriminate | |];
    (assert (S := H ltac:(lia)); intros E; rewrite E in S; exact S).
Qed.

Lemma SFadd_zero_r (x : spec_float) (s : bool) :
  x <> S754_zero true -> SFadd prec emax x (S754_zero s) = x.
Proof.
  destruct x as [[|]| [|] | |sx mx ex], s; simpl; congruence.
Qed.

(** ** Binary64: the order of [SFcompare] *)

Ltac cmp_cases :=
  repeat match goal with
  | |- context [Pos.compare_cont Eq ?a ?b] =>
      change (Pos.compare_cont Eq a b) with (Pos.compare a b)
  | H : context [Pos.compare_cont Eq ?a ?b] |- _ =>
      change (Pos.compare_cont Eq a b) with (Pos.compare a b) in H
  end;
  repeat match goal with
  | H : context [Z.compare ?a ?b] |- _ =>
      destruct (Z.compare_spec a b); simpl in H
  | |- context [Z.compare ?a ?b] =>
      destruct (Z.compare_spec a b); simpl
  | H : context [Pos.compare ?a ?b] |- _ =>
      destruct (Pos.compare_spec a b); simpl in H
  | |- context [Pos.compare ?a ?b] =>
      destruct (Pos.compare_spec a b); simpl
  end;
  subst; try discriminate; try reflexivity; try lia.

Lemma SFcompare_antisym (x y : spec_float) :
  SFcompare y x = option_map CompOpp (SFcompare x y).
Proof.
  destruct x as [[|]| [|] | |[|] mx ex], y as [[|]| [|] | |[|] my ey];
    simpl; try reflexivity; cmp_cases.
Qed.

Lemma SFcompare_Lt_trans (x y z : spec_float) :
  SFcompare x y = Some Lt -> SFcompare y z = Some Lt -> SFcompare x z = Some Lt.
Proof.
  destruct x as [[|]| [|] | |[|] mx ex], y as [[|]| [|] | |[|] my ey],
           z as [[|]| [|] | |[|] mz ez];
    simpl; intros H1 H2; try discriminate; try reflexivity; cmp_cases.
Qed.

Lemma SFcompare_Eq_l (x y z : spec_float) :
  SFcompare x y = Some Eq -> SFcompare x z = SFcompare y z.
Proof.
  destruct x as [[|]| [|] | |[|] mx ex], y as [[|]| [|] | |[|] my ey],
           z as [[|]| [|] | |[|] mz ez];
    simpl; intros H1; try discriminate; try reflexivity; cmp_cases.
Qed.

Lemma SFcompare_refl (x : spec_float) :
  x <> S754_nan -> SFcompare x x = Some Eq.
Proof.
  destruct x as [[|]| [|] | |[|] mx ex]; simpl; try congruence; intros _;
    rewrite Z.compare_refl, Pos.compare_cont_refl; reflexivity.
Qed.

Lemma SFcompare_some (x y : spec_float) :
  x <> S754_nan -> y <> S754_nan -> exists c, SFcompare x y = Some c.
Proof.
  destruct x as [[|]| [|] | |[|] mx ex], y as [[|]| [|] | |[|] my ey];
    simpl; try congruence; intros _ _; eexists; reflexivity.
Qed.

(** ** Binary64: the sign of a difference is the order of its operands *)

Lemma digits2_pos_bounds (m : positive) :
  (2 ^ (Zpos (digits2_pos m) - 1) <= Zpos m < 2 ^ Zpos (digits2_pos m))%Z.
Proof.
  induction m as [m IH|m IH|]; cbn [digits2_pos].
  - rewrite Pos2Z.inj_succ.
    replace (Z.succ (Zpos (digits2_pos m)) - 1)%Z with (Z.succ (Zpos (digits2_pos m) - 1))%Z by lia.
    rewrite !Z.pow_succ_r by lia. lia.
  - rewrite Pos2Z.inj_succ.
    replace (Z.succ (Zpos (digits2_pos m)) - 1)%Z with (Z.succ (Zpos (digits2_pos m) - 1))%Z by lia.
    rewrite !Z.pow_succ_r by lia. lia.
  - simpl. lia.
Qed.

Lemma iter_xO_value (m d : positive) :
  Zpos (Pos.iter xO m d) = (Zpos m * 2 ^ Zpos d)%Z.
Proof.
  induction d as [|d IH] using Pos.peano_ind.
  - simpl. lia.
  - rewrite Pos.iter_succ, Pos2Z.inj_succ, Z.pow_succ_r by lia.
    rewrite Pos2Z.inj_xO, IH. lia.
Qed.

Lemma shl_align_value (m : positive) (e e' : Z) :
  (e' <= e)%Z ->
  Zpos (fst (shl_align m e e')) = (Zpos m * 2 ^ (e - e'))%Z.
Proof.
  intros H. unfold shl_align.
  destruct (e' - e)%Z as [|d|d] eqn:E; simpl fst.
  - replace (e - e')%Z with 0%Z by lia. simpl. lia.
  - lia.
  - rewrite iter_xO_value. f_equal. f_equal. lia.
Qed.

Lemma valid_finite_digits (s : bool) (m : positive) (e : Z) :
  valid_binary (S754_finite s m e) = true ->
  (Zpos (digits2_pos m) <= 53)%Z
  /\ (emin64 < e -> Zpos (digits2_pos m) = 53)%Z.
Proof.
  simpl. unfold bounded, canonical_mantissa.
  intros H. apply andb_true_iff in H as [H _]. apply Z.eqb_eq in H.
  rewrite fexp64_value in H. rewrite emin64_value. lia.
Qed.

(** Mantissas brought to the smaller exponent compare as exponent and
    mantissa do. *)
Lemma aligned_compare (sx sy : bool) (mx my : positive) (ex ey : Z) :
  valid_binary (S754_finite sx mx ex) = true ->
  valid_binary (S754_finite sy my ey) = true ->
  (Zpos (fst (shl_align mx ex (Z.min ex ey)))
   ?= Zpos (fst (shl_align my ey (Z.min ex ey))))%Z
  = match (ex ?= ey)%Z with
    | Lt => Lt
    | Gt => Gt
    | Eq => Pos.compare mx my
    end.
Proof.
  intros Vx Vy.
  pose proof (valid_finite_emin _ _ _ Vx) as Ex.
  pose proof (valid_finite_emin _ _ _ Vy) as Ey.
  destruct (valid_finite_digits _ _ _ Vx) as [Dx Nx].
  destruct (valid_finite_digits _ _ _ Vy) as [Dy Ny].
  pose proof (digits2_pos_bounds mx) as Bx.
  pose proof (digits2_pos_bounds my) as By.
  rewrite !shl_align_value by lia.
  assert (P53 : forall d, (d <= 53 -> 2 ^ d <= 2 ^ 53)%Z).
  { intros d Hd. apply Z.pow_le_mono_r; lia. }
  destruct (Z.compare_spec ex ey) as [E|L|G].
  - subst ey. rewrite Z.min_id, Z.sub_diag. simpl. rewrite !Pos.mul_1_r. reflexivity.
  - rewrite Z.min_l by lia. rewrite Z.sub_diag, Z.mul_1_r.
    apply Z.compare_lt_iff.
    rewrite (Ny ltac:(lia)) in By.
    assert (H2 : (2 ^ 1 <= 2 ^ (ey - ex))%Z) by (apply Z.pow_le_mono_r; lia).
    specialize (P53 _ Dx). change (2 ^ 1)%Z with 2%Z in H2.
    change (2 ^ (53 - 1))%Z with 4503599627370496%Z in By.
    change (2 ^ 53)%Z with 9007199254740992%Z in *. nia.
  - rewrite Z.min_r by lia. rewrite Z.sub_diag, Z.mul_1_r.
    apply Z.compare_gt_iff.
    rewrite (Nx ltac:(lia)) in Bx.
    assert (H2 : (2 ^ 1 <= 2 ^ (ex - ey))%Z) by (apply Z.pow_le_mono_r; lia).
    specialize (P53 _ Dy). change (2 ^ 1)%Z with 2%Z in H2.
    change (2 ^ (53 - 1))%Z with 4503599627370496%Z in Bx.
    change (2 ^ 53)%Z with 9007199254740992%Z in *. nia.
Qed.

(** [0 < x] for a spec float. *)
Lemma SFltb_zero (x : spec_float) :
  SFltb (S754_zero false) x = true <-> signed_nonzero false x.
Proof.
  destruct x as [[|]| [|] | |[|] mx ex]; simpl; unfold SFltb; simpl;
    split; congruence || tauto.
Qed.

Lemma SFltb_zero_neg (x : spec_float) :
  signed_nonzero true x -> SFltb (S754_zero false) x = false.
Proof.
  destruct x as [[|]| [|] | |[|] mx ex]; simpl; unfold SFltb; simpl;
    congruence || tauto.
Qed.

Lemma SFcompare_finite (sx sy : bool) (mx my : positive) (ex ey : Z) :
  valid_binary (S754_finite sx mx ex) = true ->
  valid_binary (S754_finite sy my ey) = true ->
  SFcompare (S754_finite sx mx ex) (S754_finite sy my ey)
  = Some match sx, sy with
         | true, false => Lt
         | false, true => Gt
         | false, false =>
             (Zpos (fst (shl_align mx ex (Z.min ex ey)))
              ?= Zpos (fst (shl_align my ey (Z.min ex ey))))%Z
         | true, true =>
             CompOpp (Zpos (fst (shl_align mx ex (Z.min ex ey)))
                      ?= Zpos (fst (shl_align my ey (Z.min ex ey))))%Z
         end.
Proof.
  intros Vx Vy. rewrite (aligned_compare sx sy mx my ex ey Vx Vy).
  simpl. change (Pos.compare_cont Eq mx my) with (Pos.compare mx my).
  destruct sx, sy; try reflexivity; destruct (ex ?= ey)%Z; reflexivity.
Qed.

Lemma SFsub_sign (x y : spec_float) :
  valid_binary x = true -> valid_binary y = true ->
  x <> S754_nan -> y <> S754_nan ->
  SFltb (S754_zero false) (SFsub prec emax y x) = SFltb x y.
Proof.
  intros Vx Vy Nx Ny.
  destruct x as [[|]| [|] | |sx mx ex], y as [[|]| [|] | |sy my ey];
    try congruence; try reflexivity;
    try (destruct sx; reflexivity); try (destruct sy; reflexivity).
  unfold SFltb at 2. rewrite (SFcompare_finite sx sy mx my ex ey Vx Vy).
  apply valid_finite_emin in Vx, Vy.
  cbn [SFsub]. rewrite (Z.min_comm ey ex).
  set (Mx := Zpos (fst (shl_align mx ex (Z.min ex ey)))).
  set (My := Zpos (fst (shl_align my ey (Z.min ex ey)))).
  assert (Px : (0 < Mx)%Z) by (unfold Mx; lia).
  assert (Py : (0 < My)%Z) by (unfold My; lia).
  clearbody Mx My.
  remember (cond_Zopp sy My - cond_Zopp sx Mx)%Z as d eqn:D.
  pose proof (binary_normalize_sign d (Z.min ex ey) ltac:(lia)) as S.
  destruct d as [|p|p].
  - rewrite S. unfold SFltb; simpl.
    destruct sx, sy; simpl in D; try lia;
      destruct (Z.compare_spec Mx My); try lia; reflexivity.
  - apply SFltb_zero in S. rewrite S.
    destruct sx, sy; simpl in D; try lia; try reflexivity;
      destruct (Z.compare_spec Mx My); try lia; reflexivity.
  - apply SFltb_zero_neg in S. rewrite S.
    destruct sx, sy; simpl in D; try lia; try reflexivity;
      destruct (Z.compare_spec Mx My); try lia; reflexivity.
Qed.

(** ** Numbers of the source *)

Lemma Prim2SF_zero : Prim2SF 0 = S754_zero false.
Proof. reflexivity. Qed.

Lemma is_nan_spec (x : number) : is_nan x = true <-> Prim2SF x = S754_nan.
Proof.
  unfold is_nan. rewrite eqb_spec. unfold SFeqb.
  destruct (Prim2SF x) as [s|s| |s m e] eqn:E;
    try (rewrite SFcompare_refl by discriminate; simpl; split; discriminate).
  simpl. split; reflexivity.
Qed.

Lemma not_nan_spec (x : number) : is_nan x = false <-> Prim2SF x <> S754_nan.
Proof.
  rewrite <- is_nan_spec. destruct (is_nan x); split; congruence.
Qed.

Lemma not_negzero_zero : ~ negzero 0.
Proof. unfold negzero. rewrite Prim2SF_zero. discriminate. Qed.

Lemma add_not_negzero (a b : number) : ~ negzero a -> ~ negzero (a + b).
Proof.
  unfold negzero. rewrite add_spec.
  apply SFadd_not_negzero; apply Prim2SF_valid.
Qed.

Lemma add_any_zero (a z : number) : ~ negzero a -> any_zero z -> a + z = a.
Proof.
  intros Ha [s Hz]. apply Prim2SF_inj. rewrite add_spec, Hz.
  apply SFadd_zero_r. exact Ha.
Qed.

(** What [x || 0] and "NaN counts as zero" make of a number, by its kind. *)
Lemma coercions (x : number) :
  match Prim2SF x with
  | S754_nan => num_or_zero x = 0 /\ value_or_zero x = 0
  | S754_zero _ => num_or_zero x = 0 /\ value_or_zero x = x
  | _ => num_or_zero x = x /\ value_or_zero x = x
  end.
Proof.
  unfold num_or_zero, value_or_zero, num_falsy.
  rewrite (eqb_spec x 0), Prim2SF_zero.
  destruct (Prim2SF x) as [s|s| |s m e] eqn:E.
  - assert (N : is_nan x = false) by (apply not_nan_spec; congruence).
    rewrite N. split; reflexivity.
  - assert (N : is_nan x = false) by (apply not_nan_spec; congruence).
    rewrite N. destruct s; split; reflexivity.
  - assert (N : is_nan x = true) by (apply is_nan_spec; assumption).
    rewrite N. split; reflexivity.
  - assert (N : is_nan x = false) by (apply not_nan_spec; congruence).
    rewrite N. destruct s; split; reflexivity.
Qed.

(** The line total of the source and [spec_line] are the same number, or
    two zeros that differ in sign. *)
Lemma lineTotal_spec_line (p : Product) :
  lineTotal p = spec_line p \/ (any_zero (lineTotal p) /\ any_zero (spec_line p)).
Proof.
  unfold lineTotal, spec_line, any_zero.
  pose proof (coercions (qty p)) as Cq. pose proof (coercions (price p)) as Cp.
  destruct (Prim2SF (qty p)) as [sq|sq| |sq mq eq] eqn:Eq;
    destruct (Prim2SF (price p)) as [sp|sp| |sp mp ep] eqn:Ep;
    destruct Cq as [-> ->]; destruct Cp as [-> ->];
    try (left; reflexivity);
    try (left; apply Prim2SF_inj;
         rewrite !mul_spec, ?Prim2SF_zero, ?Eq, ?Ep; reflexivity);
    right; split; eexists;
      rewrite !mul_spec, ?Prim2SF_zero, ?Eq, ?Ep; reflexivity.
Qed.

Lemma sum_not_negzero {A : Type} (f : A -> number) (l : list A) (acc : number) :
  ~ negzero acc -> ~ negzero (fold_left (fun a x => a + f x) l acc).
Proof.
  revert acc; induction l as [|x l IH]; intros acc H; simpl; [assumption|].
  apply IH, add_not_negzero; assumption.
Qed.

Lemma sum_same_or_zeros {A : Type} (f g : A -> number) (l : list A) (acc : number) :
  (forall x, f x = g x \/ (any_zero (f x) /\ any_zero (g x))) ->
  ~ negzero acc ->
  fold_left (fun a x => a + f x) l acc = fold_left (fun a x => a + g x) l acc.
Proof.
  intros H. revert acc; induction l as [|x l IH]; intros acc Ha; simpl;
    [reflexivity|].
  assert (E : acc + f x = acc + g x).
  { destruct (H x) as [-> | [Zf Zg]]; [reflexivity|].
    rewrite !add_any_zero by assumption. reflexivity. }
  rewrite E. apply IH, add_not_negzero; assumption.
Qed.

(** *** The order of numbers that are not NaN *)

Lemma ltb_compare (a b : number) :
  (a <? b) = true <-> SFcompare (Prim2SF a) (Prim2SF b) = Some Lt.
Proof.
  rewrite ltb_spec. unfold SFltb.
  destruct (SFcompare _ _) as [[| |]|]; split; congruence.
Qed.

Lemma eqb_compare (a b : number) :
  (a =? b) = true <-> SFcompare (Prim2SF a) (Prim2SF b) = Some Eq.
Proof.
  rewrite eqb_spec. unfold SFeqb.
  destruct (SFcompare _ _) as [[| |]|]; split; congruence.
Qed.

Lemma leb_compare (a b : number) :
  (a <=? b) = true <->
  SFcompare (Prim2SF a) (Prim2SF b) = Some Lt
  \/ SFcompare (Prim2SF a) (Prim2SF b) = Some Eq.
Proof.
  rewrite leb_spec. unfold SFleb.
  destruct (SFcompare _ _) as [[| |]|]; split; intros H;
    try discriminate; try tauto; destruct H; discriminate.
Qed.

Lemma number_trichotomy (a b : number) :
  is_nan a = false -> is_nan b = false ->
  (a <? b) = false -> (b <? a) = true \/ (a =? b) = true.
Proof.
  intros Na Nb H. apply not_nan_spec in Na, Nb.
  destruct (SFcompare_some _ _ Na Nb) as [c Hc].
  destruct c.
  - right. apply eqb_compare; assumption.
  - apply ltb_compare in Hc. congruence.
  - left. apply ltb_compare. rewrite SFcompare_antisym, Hc. reflexivity.
Qed.

Lemma ltb_trans (a b c : number) :
  (a <? b) = true -> (b <? c) = true -> (a <? c) = true.
Proof.
  rewrite !ltb_compare. apply SFcompare_Lt_trans.
Qed.

Lemma eqb_sym (a b : number) : (a =? b) = true -> (b =? a) = true.
Proof.
  rewrite !eqb_compare. intros H. rewrite SFcompare_antisym, H. reflexivity.
Qed.

Lemma eqb_trans (a b c : number) :
  (a =? b) = true -> (b =? c) = true -> (a =? c) = true.
Proof.
  rewrite !eqb_compare. intros H1 H2.
  rewrite (SFcompare_Eq_l _ _ (Prim2SF c) H1). assumption.
Qed.

Lemma eqb_ltb (a b c : number) :
  (a =? b) = true -> (a <? c) = true -> (b <? c) = true.
Proof.
  rewrite eqb_compare, !ltb_compare. intros H1 H2.
  rewrite <- (SFcompare_Eq_l _ _ (Prim2SF c) H1). assumption.
Qed.

Lemma ltb_eqb (a b c : number) :
  (a <? b) = true -> (c =? b) = true -> (a <? c) = true.
Proof.
  rewrite eqb_compare, !ltb_compare. intros H1 H2.
  rewrite SFcompare_antisym, (SFcompare_Eq_l _ _ (Prim2SF a) H2).
  rewrite SFcompare_antisym, H1. reflexivity.
Qed.

Lemma eqb_not_ltb (a b : number) : (a =? b) = true -> (b <? a) = false.
Proof.
  rewrite eqb_compare. intros H.
  destruct (b <? a) eqn:L; [|reflexivity].
  apply ltb_compare in L. rewrite SFcompare_antisym, H in L. discriminate.
Qed.

Lemma ltb_leb (a b : number) : (a <? b) = true -> (a <=? b) = true.
Proof. rewrite ltb_compare, leb_compare. tauto. Qed.

Lemma eqb_leb (a b : number) : (a =? b) = true -> (b <=? a) = true.
Proof.
  intros H. apply eqb_sym in H. apply leb_compare. right.
  apply eqb_compare; assumption.
Qed.

(** The comparator of the sort: for numbers that are not NaN the difference
    [b - a] is positive exactly when [a < b]. *)
Lemma sub_positive (a b : number) :
  is_nan a = false -> is_nan b = false -> (0 <? b - a) = (a <? b).
Proof.
  intros Na Nb. apply not_nan_spec in Na, Nb.
  rewrite !ltb_spec, sub_spec, Prim2SF_zero.
  apply SFsub_sign; try assumption; apply Prim2SF_valid.
Qed.

(** A positive finite number stands for a positive rational. *)
Lemma exact_positive (x : number) :
  (0 <? x) = true -> finite x = true -> (0 < exact x)%Q.
Proof.
  rewrite ltb_spec, Prim2SF_zero. unfold finite, exact.
  intros L F. apply SFltb_zero in L.
  destruct (Prim2SF x) as [s|s| |s m e]; simpl in L; try contradiction;
    try discriminate.
  subst s. simpl.
  apply Qmult_lt_0_compat; [reflexivity|].
  apply Qpower_0_lt. reflexivity.
Qed.

(** ** The loop of the summary *)

Lemma summary_loop_total_acc (ps : list Product) (acc : JsMap * number) :
  snd (fold_left summary_step ps acc)
  = fold_left (fun a p => a + lineTotal p) ps (snd acc).
Proof.
  revert acc; induction ps as [|p ps IH]; intros acc; simpl; [reflexivity|].
  rewrite IH. unfold summary_step.
  destruct (str_falsy (category p)); reflexivity.
Qed.

(** Adding up the line totals of the source gives the sum of the
    specification: a field that is a negative zero makes the two line totals
    differ in the sign of a zero, which a sum started at [+0] does not see. *)
Lemma line_sum_spec (ps : list Product) : line_sum ps = spec_total ps.
Proof.
  unfold spec_total, line_sum.
  change (fun acc p => acc + value_or_zero (qty p) * value_or_zero (price p))
    with (fun acc p => acc + spec_line p).
  apply sum_same_or_zeros; [apply lineTotal_spec_line | apply not_negzero_zero].
Qed.

Lemma summary_loop_total (ps : list Product) :
  snd (summary_loop ps) = spec_total ps.
Proof.
  unfold summary_loop. rewrite summary_loop_total_acc. apply line_sum_spec.
Qed.

Lemma spec_total_not_negzero (ps : list Product) : ~ negzero (spec_total ps).
Proof. apply sum_not_negzero, not_negzero_zero. Qed.

(** C1: the total revenue is the sum of quantity × price over all records,
    from the first to the last, a non-numeric quantity or price counting as
    zero; the total of the empty list is zero. *)
Theorem total_revenue_is_sum :
  (forall ps : list Product, totalSum ps = spec_total ps) /\ totalSum [] = 0.
Proof.
  split.
  - intros ps. unfold totalSum, summary; simpl. apply summary_loop_total.
  - reflexivity.
Qed.

(** ** The stable sort *)

Section SortFacts.
Context {A : Type} (cmp : A -> A -> number).

Lemma sort_insert_perm (x : A) (l : list A) :
  Permutation (sort_insert cmp x l) (x :: l).
Proof.
  induction l as [|y l IH]; simpl.
  - apply Permutation_refl.
  - destruct (0 <? cmp x y).
    + eapply perm_trans; [apply perm_skip, IH | apply perm_swap].
    + apply Permutation_refl.
Qed.

Lemma array_sort_perm (l : list A) : Permutation (array_sort cmp l) l.
Proof.
  induction l as [|x l IH]; simpl.
  - apply perm_nil.
  - eapply perm_trans; [apply sort_insert_perm | apply perm_skip, IH].
Qed.
End SortFacts.

Section Stability.
Variable before : Row -> Row -> Prop.

Lemma sort_insert_sum_then (x : Row) (l : list Row) :
  is_nan (sum x) = false ->
  Forall (fun r => is_nan (sum r) = false) l ->
  Forall (before x) l ->
  StronglySorted (sum_then before) l ->
  StronglySorted (sum_then before) (sort_insert by_sum_desc x l).
Proof.
  intros Nx.
  induction l as [|y l IH]; intros Nl Hx Hl; simpl.
  - constructor; constructor.
  - inversion Nl as [|? ? Ny Nl']; subst.
    inversion Hx as [|? ? Hxy Hxl]; subst.
    inversion Hl as [|? ? Hl' Hy]; subst.
    unfold by_sum_desc at 1. rewrite (sub_positive _ _ Nx Ny).
    destruct (sum x <? sum y) eqn:E.
    + constructor.
      * apply IH; assumption.
      * eapply Permutation_Forall;
          [apply Permutation_sym, sort_insert_perm|].
        constructor; [left; assumption | assumption].
    + constructor; [assumption|].
      destruct (number_trichotomy _ _ Nx Ny E) as [Hlt | Heq].
      * constructor; [left; assumption|].
        rewrite Forall_forall in Hy, Hxl |- *.
        intros z Hz. left.
        destruct (Hy z Hz) as [Hzy | [Hyz _]].
        -- eapply ltb_trans; eassumption.
        -- exact (eqb_ltb _ _ _ Hyz Hlt).
      * constructor; [right; split; assumption|].
        rewrite Forall_forall in Hy, Hxl |- *.
        intros z Hz.
        destruct (Hy z Hz) as [Hzy | [Hyz _]].
        -- left. eapply ltb_eqb; eassumption.
        -- right. split; [eapply eqb_trans; eassumption | apply Hxl; assumption].
Qed.

Lemma array_sort_sum_then (l : list Row) :
  Forall (fun r => is_nan (sum r) = false) l ->
  StronglySorted before l ->
  StronglySorted (sum_then before) (array_sort by_sum_desc l).
Proof.
  intros Nl. induction 1 as [|x l Hl IH Hx]; simpl.
  - constructor.
  - inversion Nl as [|? ? Nx Nl']; subst.
    apply sort_insert_sum_then; try assumption.
    + eapply Permutation_Forall;
        [apply Permutation_sym, array_sort_perm | assumption].
    + eapply Permutation_Forall;
        [apply Permutation_sym, array_sort_perm | assumption].
    + apply IH; assumption.
Qed.
End Stability.

Lemma StronglySorted_nth {A : Type} (R : A -> A -> Prop) (l : list A) :
  StronglySorted R l ->
  forall i j a b, (i < j)%nat ->
    nth_error l i = Some a -> nth_error l j = Some b -> R a b.
Proof.
  induction 1 as [|x l Hl IH Hx]; intros i j a b Hij Hi Hj.
  - destruct i; discriminate.
  - destruct j as [|j]; [lia|]. simpl in Hj.
    destruct i as [|i]; simpl in Hi.
    + injection Hi as <-.
      rewrite Forall_forall in Hx. apply Hx.
      eapply nth_error_In; eassumption.
    + apply (IH i j); [lia | assumption | assumption].
Qed.

Lemma StronglySorted_map {A B : Type} (f : A -> B) (R : B -> B -> Prop)
      (l : list A) :
  StronglySorted R (map f l) <-> StronglySorted (fun a b => R (f a) (f b)) l.
Proof.
  induction l as [|x l IH]; simpl.
  - split; constructor.
  - split; intros H; inversion H as [|? ? Hl Hx]; subst; constructor;
      try (apply IH; assumption); apply Forall_map; assumption.
Qed.

Lemma StronglySorted_snoc {A : Type} (R : A -> A -> Prop) (l : list A) (x : A) :
  StronglySorted R l -> Forall (fun y => R y x) l -> StronglySorted R (l ++ [x]).
Proof.
  induction 1 as [|y l Hl IH Hy]; intros Hall; simpl.
  - constructor; constructor.
  - inversion Hall as [|? ? Hyx Hlx]; subst.
    constructor; [apply IH; assumption|].
    apply Forall_app; split; [assumption | constructor; [assumption | constructor]].
Qed.

(** Two orders that agree on the elements of a list sort it alike. *)
Lemma StronglySorted_agree {A : Type} (R R' : A -> A -> Prop) (l : list A) :
  (forall a b, In a l -> In b l -> R a b -> R' a b) ->
  StronglySorted R l -> StronglySorted R' l.
Proof.
  intros Hag Hl; induction Hl as [|x l Hl IH Hx]; constructor.
  - apply IH. intros a b Ha Hb; apply Hag; right; assumption.
  - rewrite Forall_forall in Hx |- *.
    intros y Hy. apply Hag; [left; reflexivity | right; assumption | apply Hx, Hy].
Qed.

(** ** The map's keys come in order of first appearance *)

Lemma map_get_None (k : Category) (m : JsMap) :
  map_get k m = None <-> ~ In k (keys m).
Proof.
  induction m as [|[k' v] m IH]; simpl.
  - tauto.
  - destruct (str_eqb k' k) eqn:E.
    + apply str_eqb_eq in E. split; [discriminate | tauto].
    + apply str_eqb_neq in E. rewrite IH. tauto.
Qed.

Lemma keys_map_set_present (k : Category) (v : number) (m : JsMap) :
  In k (keys m) -> keys (map_set k v m) = keys m.
Proof.
  induction m as [|[k' v'] m IH]; simpl; [tauto|].
  intros H. destruct (str_eqb k' k) eqn:E; simpl; [reflexivity|].
  apply str_eqb_neq in E. f_equal. apply IH. tauto.
Qed.

Lemma map_set_absent (k : Category) (v : number) (m : JsMap) :
  ~ In k (keys m) -> map_set k v m = m ++ [(k, v)].
Proof.
  induction m as [|[k' v'] m IH]; simpl; [reflexivity|].
  intros H. destruct (str_eqb k' k) eqn:E.
  - apply str_eqb_eq in E. tauto.
  - f_equal. apply IH. tauto.
Qed.

Lemma first_index_le (c : Category) (ps : list Product) :
  (first_index c ps <= length ps)%nat.
Proof.
  induction ps as [|p ps IH]; simpl; [lia|].
  destruct (str_eqb (category p) c); lia.
Qed.

Lemma first_index_app (c : Category) (ps qs : list Product) :
  first_index c (ps ++ qs) =
  if (first_index c ps <? length ps)%nat then first_index c ps
  else (length ps + first_index c qs)%nat.
Proof.
  induction ps as [|p ps IH]; simpl; [reflexivity|].
  destruct (str_eqb (category p) c); [reflexivity|].
  rewrite IH.
  change (S (first_index c ps) <? S (length ps))%nat
    with (first_index c ps <? length ps)%nat.
  destruct (first_index c ps <? length ps)%nat; reflexivity.
Qed.

Lemma first_index_snoc_old (c : Category) (ps : list Product) (p : Product) :
  (first_index c ps < length ps)%nat ->
  first_index c (ps ++ [p]) = first_index c ps.
Proof.
  intros H. rewrite first_index_app.
  apply Nat.ltb_lt in H. rewrite H. reflexivity.
Qed.

Lemma first_index_snoc_new (c : Category) (ps : list Product) (p : Product) :
  ~ (first_index c ps < length ps)%nat ->
  first_index c (ps ++ [p]) =
  (length ps + if str_eqb (category p) c then 0 else 1)%nat.
Proof.
  intros H. rewrite first_index_app.
  apply Nat.ltb_nlt in H. rewrite H. simpl.
  destruct (str_eqb (category p) c); reflexivity.
Qed.

Lemma first_index_found (c : Category) (ps : list Product) :
  (first_index c ps < length ps)%nat <->
  exists p, In p ps /\ category p = c.
Proof.
  induction ps as [|p ps IH]; simpl.
  - split; [lia | intros [? [[] _]]].
  - destruct (str_eqb (category p) c) eqn:E.
    + apply str_eqb_eq in E. split; [|lia]. intros _. exists p; tauto.
    + apply str_eqb_neq in E. split.
      * intros H. destruct IH as [IH _].
        destruct IH as [q [Hq Hc]]; [lia|]. exists q; tauto.
      * intros [q [[<- | Hq] Hc]]; [contradiction|].
        apply -> Nat.succ_lt_mono. apply IH. exists q; tauto.
Qed.

Lemma key_order_same_keys (ps : list Product) (p : Product) (m m' : JsMap) :
  keys m' = keys m ->
  (category p <> [] -> In (category p) (keys m)) ->
  key_order ps m -> key_order (ps ++ [p]) m'.
Proof.
  intros Hk Hp (Hs & Hf & Hc). unfold key_order. rewrite Hk.
  rewrite Forall_forall in Hf.
  split; [|split].
  - eapply StronglySorted_agree; [|exact Hs].
    intros a b Ha Hb. simpl.
    rewrite !first_index_snoc_old by (apply Hf; assumption). tauto.
  - apply Forall_forall. intros k Hin.
    rewrite first_index_snoc_old by (apply Hf; assumption).
    rewrite length_app; simpl. specialize (Hf k Hin). lia.
  - intros k Hne Hlt.
    destruct (Nat.lt_ge_cases (first_index k ps) (length ps)) as [Hold | Hnew].
    + apply Hc; assumption.
    + rewrite first_index_snoc_new in Hlt by lia.
      rewrite length_app in Hlt; simpl in Hlt.
      destruct (str_eqb (category p) k) eqn:E; [|lia].
      apply str_eqb_eq in E. subst k. apply Hp; assumption.
Qed.

Lemma key_order_new_key (ps : list Product) (p : Product) (v : number) (m : JsMap) :
  category p <> [] -> ~ In (category p) (keys m) ->
  key_order ps m -> key_order (ps ++ [p]) (m ++ [(category p, v)]).
Proof.
  intros Hne Hnew (Hs & Hf & Hc). unfold key_order, keys.
  rewrite map_app; simpl. fold (keys m).
  assert (Hfresh : ~ (first_index (category p) ps < length ps)%nat).
  { intros H. apply Hnew, Hc; assumption. }
  assert (Hidx : first_index (category p) (ps ++ [p]) = length ps).
  { rewrite first_index_snoc_new by assumption.
    rewrite str_eqb_refl. lia. }
  rewrite Forall_forall in Hf.
  split; [|split].
  - apply StronglySorted_snoc.
    + eapply StronglySorted_agree; [|exact Hs].
      intros a b Ha Hb. simpl.
      rewrite !first_index_snoc_old by (apply Hf; assumption). tauto.
    + apply Forall_forall. intros k Hin. rewrite Hidx.
      rewrite first_index_snoc_old by (apply Hf; assumption).
      apply Hf; assumption.
  - apply Forall_app; split.
    + apply Forall_forall. intros k Hin.
      rewrite first_index_snoc_old by (apply Hf; assumption).
      rewrite length_app; simpl. specialize (Hf k Hin). lia.
    + constructor; [|constructor].
      rewrite Hidx, length_app; simpl. lia.
  - intros k Hk Hlt. apply in_or_app.
    destruct (Nat.lt_ge_cases (first_index k ps) (length ps)) as [Hold | Hge].
    + left. apply Hc; assumption.
    + right. rewrite first_index_snoc_new in Hlt by lia.
      rewrite length_app in Hlt; simpl in Hlt.
      destruct (str_eqb (category p) k) eqn:E; [|lia].
      apply str_eqb_eq in E. left; assumption.
Qed.

Lemma key_order_step (ps : list Product) (p : Product) (acc : JsMap * number) :
  key_order ps (fst acc) -> key_order (ps ++ [p]) (fst (summary_step acc p)).
Proof.
  intros H. unfold summary_step.
  destruct (str_falsy (category p)) eqn:E; simpl.
  - apply str_falsy_nil in E.
    apply (key_order_same_keys ps p (fst acc)); [reflexivity | tauto | assumption].
  - assert (Hne : category p <> []).
    { intros C. apply str_falsy_nil in C. congruence. }
    destruct (map_get (category p) (fst acc)) as [v|] eqn:G.
    + assert (Hin : In (category p) (keys (fst acc))).
      { destruct (in_dec (list_eq_dec N.eq_dec) (category p) (keys (fst acc)))
          as [Hin | Hout]; [assumption|].
        apply map_get_None in Hout. congruence. }
      apply (key_order_same_keys ps p (fst acc));
        [apply keys_map_set_present; assumption | tauto | assumption].
    + apply map_get_None in G.
      rewrite map_set_absent by assumption.
      apply key_order_new_key; assumption.
Qed.

Lemma summary_loop_snoc (ps : list Product) (p : Product) :
  summary_loop (ps ++ [p]) = summary_step (summary_loop ps) p.
Proof. unfold summary_loop. rewrite fold_left_app. reflexivity. Qed.

Lemma summary_loop_key_order (ps : list Product) :
  key_order ps (fst (summary_loop ps)).
Proof.
  induction ps as [|p ps IH] using rev_ind.
  - repeat split; try constructor. simpl; intros; lia.
  - rewrite summary_loop_snoc. apply key_order_step; assumption.
Qed.


(** ** The rows, category by category *)

Lemma map_get_set (k c : Category) (v : number) (m : JsMap) :
  map_get k (map_set c v m) = if str_eqb c k then Some v else map_get k m.
Proof.
  induction m as [|[k' v'] m IH]; simpl.
  - reflexivity.
  - destruct (str_eqb k' c) eqn:Ec; simpl.
    + apply str_eqb_eq in Ec. subst k'.
      destruct (str_eqb c k); reflexivity.
    + rewrite IH. destruct (str_eqb k' k) eqn:Ek; [|reflexivity].
      apply str_eqb_eq in Ek. subst k'.
      rewrite str_eqb_sym, Ec. reflexivity.
Qed.

Lemma map_get_In (k : Category) (v : number) (m : JsMap) :
  NoDup (keys m) -> In (k, v) m -> map_get k m = Some v.
Proof.
  induction m as [|[k' v'] m IH]; simpl; [tauto|].
  intros Hnd [E | Hin].
  - injection E as -> ->. rewrite str_eqb_refl. reflexivity.
  - inversion Hnd as [|? ? Hout Hnd']; subst.
    destruct (str_eqb k' k) eqn:Ek; [|apply IH; assumption].
    apply str_eqb_eq in Ek. subst k'.
    exfalso. apply Hout. change k with (fst (k, v)). apply in_map; assumption.
Qed.

Lemma StronglySorted_lt_NoDup {A : Type} (f : A -> nat) (l : list A) :
  StronglySorted (fun a b => (f a < f b)%nat) l -> NoDup l.
Proof.
  induction 1 as [|x l Hl IH Hx]; constructor; [|assumption].
  intros Hin. rewrite Forall_forall in Hx. specialize (Hx x Hin). lia.
Qed.

Lemma summary_loop_keys_NoDup (ps : list Product) :
  NoDup (keys (fst (summary_loop ps))).
Proof.
  destruct (summary_loop_key_order ps) as (Hs & _).
  exact (StronglySorted_lt_NoDup (fun k => first_index k ps) _ Hs).
Qed.

Lemma has_category_snoc (c : Category) (ps : list Product) (p : Product) :
  has_category c (ps ++ [p]) = has_category c ps || str_eqb (category p) c.
Proof.
  unfold has_category. rewrite existsb_app. simpl.
  rewrite orb_false_r. reflexivity.
Qed.

Lemma has_category_In (c : Category) (ps : list Product) :
  has_category c ps = true <-> exists p, In p ps /\ category p = c.
Proof.
  unfold has_category. rewrite existsb_exists.
  split; intros [p [Hp E]]; exists p; split; try assumption;
    apply str_eqb_eq; assumption.
Qed.

Lemma filter_absent (c : Category) (ps : list Product) :
  has_category c ps = false ->
  filter (fun p => str_eqb (category p) c) ps = [].
Proof.
  unfold has_category.
  induction ps as [|p ps IH]; simpl; [reflexivity|].
  destruct (str_eqb (category p) c); simpl; [discriminate | assumption].
Qed.

Lemma line_sum_snoc (ps : list Product) (p : Product) :
  line_sum (ps ++ [p]) = line_sum ps + lineTotal p.
Proof. unfold line_sum. rewrite fold_left_app. reflexivity. Qed.

(** What the map holds after the loop ran over [ps]: for every non-empty
    category of [ps] the line totals of its products, added up in their
    order, and nothing else. *)
Lemma summary_loop_get (ps : list Product) (k : Category) :
  map_get k (fst (summary_loop ps)) =
  if negb (str_falsy k) && has_category k ps
  then Some (line_sum (filter (fun p => str_eqb (category p) k) ps))
  else None.
Proof.
  induction ps as [|p ps IH] using rev_ind.
  - simpl. rewrite andb_false_r. reflexivity.
  - rewrite summary_loop_snoc, has_category_snoc, filter_app.
    unfold summary_step. cbn [filter].
    destruct (str_falsy (category p)) eqn:Ep; cbn [fst].
    + rewrite IH. apply str_falsy_nil in Ep. rewrite Ep.
      destruct k as [|c k]; simpl; [reflexivity|].
      rewrite orb_false_r, app_nil_r. reflexivity.
    + rewrite map_get_set.
      destruct (str_eqb (category p) k) eqn:Ek.
      * apply str_eqb_eq in Ek. subst k. rewrite Ep, orb_true_r. simpl.
        rewrite line_sum_snoc. unfold get_or_zero. rewrite IH, Ep. simpl.
        destruct (has_category (category p) ps) eqn:H; [reflexivity|].
        rewrite (filter_absent _ _ H). reflexivity.
      * rewrite IH, orb_false_r, app_nil_r. reflexivity.
Qed.

Lemma rows_perm (ps : list Product) :
  Permutation (rows ps)
              (map (mkOut (totalSum ps)) (fst (summary_loop ps))).
Proof. unfold rows, totalSum, summary; simpl. apply array_sort_perm. Qed.

Lemma rows_entry (ps : list Product) (r : Row) :
  In r (rows ps) ->
  In (cat r, sum r) (fst (summary_loop ps))
  /\ r = mkOut (totalSum ps) (cat r, sum r).
Proof.
  intros Hr.
  apply (Permutation_in _ (rows_perm ps)) in Hr.
  apply in_map_iff in Hr as [[k v] [<- He]]. simpl. split; [assumption | reflexivity].
Qed.

Lemma rows_row_sum (ps : list Product) (r : Row) :
  In r (rows ps) ->
  sum r = category_total (cat r) ps
  /\ cat r <> [] /\ has_category (cat r) ps = true.
Proof.
  intros Hr. apply rows_entry in Hr as [He _].
  apply (map_get_In _ _ _ (summary_loop_keys_NoDup ps)) in He.
  rewrite summary_loop_get in He.
  destruct (str_falsy (cat r)) eqn:Ef; simpl in He; [discriminate|].
  destruct (has_category (cat r) ps) eqn:Hc; [|discriminate].
  injection He as He. rewrite line_sum_spec in He.
  repeat split; [symmetry; assumption|].
  intros E. apply str_falsy_nil in E. congruence.
Qed.

Lemma rows_cats_perm (ps : list Product) :
  Permutation (map cat (rows ps)) (keys (fst (summary_loop ps))).
Proof.
  eapply perm_trans; [apply Permutation_map, rows_perm|].
  rewrite map_map. apply Permutation_refl.
Qed.

Lemma rows_cat_found (ps : list Product) (r : Row) :
  In r (rows ps) -> (first_index (cat r) ps < length ps)%nat.
Proof.
  intros Hr.
  apply (Permutation_in _ (rows_perm ps)) in Hr.
  apply in_map_iff in Hr as [e [<- He]]. simpl.
  destruct (summary_loop_key_order ps) as (_ & Hf & _).
  rewrite Forall_forall in Hf. apply Hf.
  apply in_map; assumption.
Qed.

(** Every non-empty category of the products has its row. *)
Lemma rows_category_present (ps : list Product) (c : Category) :
  c <> [] -> has_category c ps = true -> exists r, In r (rows ps) /\ cat r = c.
Proof.
  intros Hne Hc.
  assert (Hin : In c (keys (fst (summary_loop ps)))).
  { destruct (in_dec (list_eq_dec N.eq_dec) c (keys (fst (summary_loop ps))))
      as [H | H]; [assumption|].
    apply map_get_None in H. rewrite summary_loop_get, Hc in H.
    destruct c; [contradiction | discriminate]. }
  apply (Permutation_in _ (Permutation_sym (rows_cats_perm ps))) in Hin.
  apply in_map_iff in Hin as [r [E Hr]]. exists r; tauto.
Qed.

Lemma rows_share (ps : list Product) (r : Row) :
  In r (rows ps) ->
  share r = if 0 <? totalSum ps then sum r / totalSum ps * 100 else 0.
Proof.
  intros Hr. apply rows_entry in Hr as [_ E].
  rewrite E at 1. reflexivity.
Qed.

Lemma rows_sorted (ps : list Product) :
  Forall (fun r => is_nan (sum r) = false) (rows ps) ->
  StronglySorted
    (sum_then (fun a b => (first_index (cat a) ps < first_index (cat b) ps)%nat))
    (rows ps).
Proof.
  intros Hn. unfold rows, summary; simpl.
  apply array_sort_sum_then.
  - eapply Permutation_Forall; [apply rows_perm | exact Hn].
  - apply StronglySorted_map. simpl.
    apply (StronglySorted_map fst
             (fun k1 k2 => (first_index k1 ps < first_index k2 ps)%nat)).
    apply summary_loop_key_order.
Qed.

(** ** Rows: shares and order *)

(** C2: every row's subtotal is the sum of its category, and its share is
    subtotal ÷ total revenue × 100 when the total revenue is positive and 0
    when the total revenue is zero (and whenever it is not positive); and
    every non-empty category of the products has such a row. *)
Theorem row_share_formula (ps : list Product) :
  (forall r, In r (rows ps) ->
             sum r = category_total (cat r) ps
             /\ ((0 <? totalSum ps) = true ->
                 share r = sum r / totalSum ps * 100)
             /\ ((totalSum ps =? 0) = true -> share r = 0)
             /\ ((0 <? totalSum ps) = false -> share r = 0))
  /\ (forall c, c <> [] -> has_category c ps = true ->
                exists r, In r (rows ps) /\ cat r = c
                          /\ sum r = category_total c ps).
Proof.
  split.
  - intros r Hr. split; [apply rows_row_sum; assumption|].
    rewrite (rows_share ps r Hr). split; [|split].
    + intros ->. reflexivity.
    + intros Z. rewrite (eqb_not_ltb _ _ Z). reflexivity.
    + intros ->. reflexivity.
  - intros c Hne Hc.
    destruct (rows_category_present ps c Hne Hc) as [r [Hr E]].
    exists r. split; [exact Hr|]. split; [exact E|].
    rewrite <- E. apply rows_row_sum; assumption.
Qed.

(** C3: every row's category appears in the product list and every
    non-empty category of the list has a row; when no row's subtotal is
    NaN, the rows come by descending subtotal: of two adjacent rows the
    first has the larger or equal subtotal, and rows of equal subtotal come
    in the order in which their categories first appear in the product
    list. *)
Theorem rows_descending_stable (ps : list Product) :
  (forall r, In r (rows ps) -> (first_index (cat r) ps < length ps)%nat)
  /\ (forall c, c <> [] -> has_category c ps = true ->
                In c (map cat (rows ps)))
  /\ (Forall (fun r => is_nan (sum r) = false) (rows ps) ->
      (forall i a b,
          nth_error (rows ps) i = Some a ->
          nth_error (rows ps) (S i) = Some b ->
          (sum b <=? sum a) = true)
      /\ (forall i j a b,
             (i < j)%nat ->
             nth_error (rows ps) i = Some a ->
             nth_error (rows ps) j = Some b ->
             (sum a =? sum b) = true ->
             (first_index (cat a) ps < first_index (cat b) ps)%nat)).
Proof.
  split; [|split].
  - apply rows_cat_found.
  - intros c Hne Hc.
    destruct (rows_category_present ps c Hne Hc) as [r [Hr <-]].
    apply in_map; assumption.
  - intros Hn.
    pose proof (StronglySorted_nth _ _ (rows_sorted ps Hn)) as Hs.
    split.
    + intros i a b Ha Hb.
      destruct (Hs i (S i) a b (Nat.lt_succ_diag_r i) Ha Hb) as [Hlt | [Heq _]].
      * apply ltb_leb; assumption.
      * apply eqb_leb; assumption.
    + intros i j a b Hij Ha Hb Heq.
      destruct (Hs i j a b Hij Ha Hb) as [Hlt | [_ Hord]]; [|assumption].
      rewrite (eqb_not_ltb _ _ Heq) in Hlt. discriminate.
Qed.

(** ** Binary64: the error of one rounding *)

Ltac bool_lia :=
  repeat match goal with
         | H : context [Z.leb ?a ?b] |- _ =>
             let E := fresh "E" in
             destruct (Z.leb a b) eqn:E;
             [apply Z.leb_le in E | apply Z.leb_gt in E]
         | H : context [Z.eqb ?a ?b] |- _ =>
             let E := fresh "E" in
             destruct (Z.eqb a b) eqn:E;
             [apply Z.eqb_eq in E | apply Z.eqb_neq in E]
         | |- context [Z.leb ?a ?b] =>
             let E := fresh "E" in
             destruct (Z.leb a b) eqn:E;
             [apply Z.leb_le in E | apply Z.leb_gt in E]
         | |- context [Z.eqb ?a ?b] =>
             let E := fresh "E" in
             destruct (Z.eqb a b) eqn:E;
             [apply Z.eqb_eq in E | apply Z.eqb_neq in E]
         end;
  cbn [negb orb andb] in *; try discriminate; try reflexivity; try lia.

Section RoundingSteps.
Local Open Scope Z_scope.

Lemma shr_1_inv (N W : Z) (mrs : shr_record) :
  0 <= shr_m mrs -> 0 < W -> shr_inv N W mrs ->
  shr_inv N (W * 2) (shr_1 mrs)
  /\ shr_m (shr_1 mrs) = shr_m mrs / 2.
Proof.
  destruct mrs as [m r s]. intros Hm HW (rem & HN & Hrem & Hr & Hs).
  cbn [shr_m shr_r shr_s] in *.
  destruct m as [|p|p]; [| |lia].
  - split; [|reflexivity]. exists rem. cbn [shr_1 shr_m shr_r shr_s].
    subst r s. repeat split; try lia; bool_lia.
  - destruct p as [p|p|].
    + split.
      * exists (W + rem). cbn [shr_1 shr_m shr_r shr_s].
        subst r s. rewrite Pos2Z.inj_xI in HN.
        repeat split; try lia; bool_lia.
      * cbn [shr_1 shr_m]. rewrite Pos2Z.inj_xI.
        apply Z.div_unique with 1; lia.
    + split.
      * exists rem. cbn [shr_1 shr_m shr_r shr_s].
        subst r s. rewrite Pos2Z.inj_xO in HN.
        repeat split; try lia; bool_lia.
      * cbn [shr_1 shr_m]. rewrite Pos2Z.inj_xO.
        apply Z.div_unique with 0; lia.
    + split; [|reflexivity].
      exists (W + rem). cbn [shr_1 shr_m shr_r shr_s].
      subst r s. repeat split; try lia; bool_lia.
Qed.

Lemma iter_shr_1_inv (N : Z) (p : positive) :
  forall (W : Z) (mrs : shr_record),
    0 <= shr_m mrs -> 0 < W -> shr_inv N W mrs ->
    shr_inv N (W * 2 ^ Zpos p) (iter_pos shr_1 p mrs)
    /\ shr_m (iter_pos shr_1 p mrs) = shr_m mrs / 2 ^ Zpos p.
Proof.
  assert (P2 : forall q, 0 < 2 ^ Zpos q) by (intros q; apply Z.pow_pos_nonneg; lia).
  induction p as [p IH|p IH|]; intros W mrs Hm HW Hinv; cbn [iter_pos].
  - destruct (shr_1_inv N W mrs Hm HW Hinv) as [I0 M0].
    assert (H0 : 0 <= shr_m (shr_1 mrs)) by (rewrite M0; apply Z.div_pos; lia).
    destruct (IH (W * 2) _ H0 ltac:(lia) I0) as [I1 M1].
    assert (H1 : 0 <= shr_m (iter_pos shr_1 p (shr_1 mrs))).
    { rewrite M1. apply Z.div_pos; [assumption | apply P2]. }
    pose proof (P2 p) as Pp.
    destruct (IH (W * 2 * 2 ^ Zpos p) _ H1 ltac:(nia) I1) as [I2 M2].
    assert (E : 2 ^ Zpos p~1 = 2 * 2 ^ Zpos p * 2 ^ Zpos p).
    { rewrite Pos2Z.inj_xI, Z.pow_add_r, Z.pow_twice_r by lia.
      change (2 ^ 1) with 2. ring. }
    rewrite E. split.
    + replace (W * (2 * 2 ^ Zpos p * 2 ^ Zpos p))
        with (W * 2 * 2 ^ Zpos p * 2 ^ Zpos p) by ring. exact I2.
    + rewrite M2, M1, M0. rewrite !Z.div_div by lia. f_equal. ring.
  - destruct (IH W mrs Hm HW Hinv) as [I1 M1].
    assert (H1 : 0 <= shr_m (iter_pos shr_1 p mrs)).
    { rewrite M1. apply Z.div_pos; [assumption | apply P2]. }
    pose proof (P2 p) as Pp.
    destruct (IH (W * 2 ^ Zpos p) _ H1 ltac:(nia) I1) as [I2 M2].
    assert (E : 2 ^ Zpos p~0 = 2 ^ Zpos p * 2 ^ Zpos p).
    { change (Zpos p~0) with (2 * Zpos p). apply Z.pow_twice_r. }
    rewrite E. split.
    + replace (W * (2 ^ Zpos p * 2 ^ Zpos p))
        with (W * 2 ^ Zpos p * 2 ^ Zpos p) by ring. exact I2.
    + rewrite M2, M1. rewrite !Z.div_div by lia. f_equal.
  - change (2 ^ 1) with 2. apply shr_1_inv; assumption.
Qed.

Lemma round_nearest_even_inv (N W : Z) (mrs : shr_record) :
  0 < W -> shr_inv N W mrs ->
  shr_m mrs <= round_nearest_even (shr_m mrs) (loc_of_shr_record mrs)
            <= shr_m mrs + 1
  /\ 2 * Z.abs (round_nearest_even (shr_m mrs) (loc_of_shr_record mrs) * W - N)
     <= W
  /\ (loc_of_shr_record mrs = loc_Exact ->
      round_nearest_even (shr_m mrs) (loc_of_shr_record mrs) = shr_m mrs
      /\ N = shr_m mrs * W).
Proof.
  destruct mrs as [m r s]. intros HW (rem & HN & Hrem & Hr & Hs).
  cbn [shr_m shr_r shr_s] in *.
  destruct r, s; cbn [loc_of_shr_record round_nearest_even].
  - split; [lia|]. split; [|discriminate].
    replace ((m + 1) * W - N) with (W - rem) by (subst N; ring). bool_lia.
  - assert (E : 2 * rem = W) by bool_lia.
    split; [destruct (Z.even m); lia|]. split; [|discriminate].
    destruct (Z.even m).
    + replace (m * W - N) with (- rem) by (subst N; ring). lia.
    + replace ((m + 1) * W - N) with (W - rem) by (subst N; ring). lia.
  - split; [lia|]. split; [|discriminate].
    replace (m * W - N) with (- rem) by (subst N; ring). bool_lia.
  - assert (E : rem = 0) by bool_lia.
    split; [lia|]. split.
    + replace (m * W - N) with (- rem) by (subst N; ring). lia.
    + intros _. split; [reflexivity | lia].
Qed.

Lemma Zdigits2_nonneg (m : Z) : 0 <= Zdigits2 m.
Proof. destruct m; simpl; lia. Qed.

Lemma Zdigits2_bounds (m : Z) :
  0 < m -> 2 ^ (Zdigits2 m - 1) <= m < 2 ^ Zdigits2 m.
Proof.
  destruct m as [|p|p]; try lia. intros _. apply digits2_pos_bounds.
Qed.

Lemma Zdigits2_le (m k : Z) : 0 <= m < 2 ^ k -> 0 <= k -> Zdigits2 m <= k.
Proof.
  intros [H0 H1] Hk.
  destruct (Z.eq_dec m 0) as [->|Hm]; [simpl; lia|].
  destruct (Zdigits2_bounds m ltac:(lia)) as [L _].
  pose proof (Zdigits2_nonneg m).
  destruct (Z.le_gt_cases (Zdigits2 m) k) as [|G]; [assumption|].
  assert (2 ^ k <= 2 ^ (Zdigits2 m - 1)) by (apply Z.pow_le_mono_r; lia).
  lia.
Qed.

Lemma Zdigits2_ge (m k : Z) : 2 ^ k <= m -> 0 <= k -> k + 1 <= Zdigits2 m.
Proof.
  intros H Hk.
  assert (0 < 2 ^ k) by (apply Z.pow_pos_nonneg; lia).
  destruct (Zdigits2_bounds m ltac:(lia)) as [_ U].
  pose proof (Zdigits2_nonneg m).
  destruct (Z.le_gt_cases (k + 1) (Zdigits2 m)) as [|G]; [assumption|].
  assert (2 ^ Zdigits2 m <= 2 ^ k) by (apply Z.pow_le_mono_r; lia).
  lia.
Qed.

Lemma shr_m_of_loc (m : Z) (l : location) : shr_m (shr_record_of_loc m l) = m.
Proof. destruct l as [|[| |]]; reflexivity. Qed.

Lemma shr_fexp_inv (m e : Z) (l : location) (N D : Z) :
  0 <= m -> 0 < D -> shr_inv N D (shr_record_of_loc m l) ->
  let E := Z.max e (fexp64 (Zdigits2 m + e)) in
  snd (shr_fexp prec emax m e l) = E
  /\ shr_inv N (D * 2 ^ (E - e)) (fst (shr_fexp prec emax m e l))
  /\ shr_m (fst (shr_fexp prec emax m e l)) = m / 2 ^ (E - e)
  /\ (E = e -> fst (shr_fexp prec emax m e l) = shr_record_of_loc m l).
Proof.
  intros Hm HD Hinv E. unfold shr_fexp, shr.
  destruct (fexp64 (Zdigits2 m + e) - e) as [|p|p] eqn:En; cbn [fst snd].
  - assert (EE : E = e) by (unfold E; lia).
    rewrite EE, Z.sub_diag. change (2 ^ 0) with 1.
    rewrite Z.mul_1_r, Z.div_1_r, shr_m_of_loc. tauto.
  - assert (EE : E - e = Zpos p) by (unfold E; lia).
    rewrite EE.
    destruct (iter_shr_1_inv N p D (shr_record_of_loc m l)) as [I M];
      [rewrite shr_m_of_loc; assumption | assumption | assumption |].
    rewrite shr_m_of_loc in M.
    repeat split; [unfold E; lia | exact I | exact M | intros; lia].
  - assert (EE : E = e) by (unfold E; lia).
    rewrite EE, Z.sub_diag. change (2 ^ 0) with 1.
    rewrite Z.mul_1_r, Z.div_1_r, shr_m_of_loc. tauto.
Qed.

(** The second shift of [binary_round_aux]: of a mantissa of at most 53
    bits, or of 2^53, nothing is lost. *)
Lemma shr_fexp_exact (c e : Z) :
  0 <= c <= 2 ^ 53 -> emin64 <= e ->
  let E := snd (shr_fexp prec emax c e loc_Exact) in
  e <= E <= e + 1
  /\ shr_m (fst (shr_fexp prec emax c e loc_Exact)) * 2 ^ (E - e) = c.
Proof.
  intros Hc He.
  assert (Hinv : shr_inv c 1 (shr_record_of_loc c loc_Exact)).
  { exists 0. cbn. repeat split; try lia. }
  destruct (shr_fexp_inv c e loc_Exact c 1 ltac:(lia) ltac:(lia) Hinv)
    as (HE & (rem & HN & Hrem & _) & HM & _).
  cbn zeta. rewrite HE. clear HE.
  set (E := Z.max e (fexp64 (Zdigits2 c + e))) in *.
  destruct (Z.eq_dec c (2 ^ 53)) as [->|Hne].
  - assert (EE : E - e = 1).
    { unfold E. change (Zdigits2 (2 ^ 53)) with 54.
      rewrite fexp64_value. rewrite emin64_value in He. lia. }
    split; [lia|]. rewrite HM, EE. reflexivity.
  - assert (Hd : Zdigits2 c <= 53) by (apply Zdigits2_le; lia).
    assert (EE : E - e = 0).
    { unfold E. rewrite fexp64_value. rewrite emin64_value in He. lia. }
    split; [lia|]. rewrite HM, EE. change (2 ^ 0) with 1. rewrite Z.div_1_r. lia.
Qed.

Lemma div_pow2_bound (mx n : Z) :
  0 <= mx -> 0 <= n -> Zdigits2 mx - 53 <= n -> mx / 2 ^ n < 2 ^ 53.
Proof.
  intros Hm Hn Hd.
  assert (0 < 2 ^ n) by (apply Z.pow_pos_nonneg; lia).
  apply Z.div_lt_upper_bound; [assumption|].
  rewrite <- Z.pow_add_r by lia.
  destruct (Z.eq_dec mx 0) as [->|Hne].
  - apply Z.pow_pos_nonneg; lia.
  - destruct (Zdigits2_bounds mx ltac:(lia)) as [_ U].
    pose proof (Zdigits2_nonneg mx).
    assert (2 ^ Zdigits2 mx <= 2 ^ (n + 53)) by (apply Z.pow_le_mono_r; lia).
    lia.
Qed.

Lemma binary_round_aux_spec (sx : bool) (mx ex : Z) (lx : location) (N D : Z) :
  0 <= mx -> 0 < D -> shr_inv N D (shr_record_of_loc mx lx) ->
  let E := Z.max ex (fexp64 (Zdigits2 mx + ex)) in
  let z := binary_round_aux prec emax sx mx ex lx in
  (z = S754_infinity sx /\ emax - prec <= E)
  \/ exists c,
       SF_is z sx c E
       /\ mx / 2 ^ (E - ex) <= c <= mx / 2 ^ (E - ex) + 1
       /\ 2 * Z.abs (c * (D * 2 ^ (E - ex)) - N) <= D * 2 ^ (E - ex)
       /\ (lx = loc_Exact -> E = ex -> c = mx /\ N = mx * D).
Proof.
  intros Hm HD Hinv E z. unfold z, binary_round_aux.
  destruct (shr_fexp_inv mx ex lx N D Hm HD Hinv) as (HE & I1 & M1 & X1).
  fold E in HE, I1, M1, X1.
  destruct (shr_fexp prec emax mx ex lx) as [mrs1 e1]. cbn [fst snd] in *.
  subst e1.
  assert (P2 : 0 < 2 ^ (E - ex)) by (apply Z.pow_pos_nonneg; unfold E; lia).
  destruct (round_nearest_even_inv N (D * 2 ^ (E - ex)) mrs1 ltac:(nia) I1)
    as (Hc & Herr & Hex).
  set (c := round_nearest_even (shr_m mrs1) (loc_of_shr_record mrs1)) in *.
  rewrite M1 in Hc.
  assert (Hdiv : 0 <= mx / 2 ^ (E - ex) < 2 ^ 53).
  { split; [apply Z.div_pos; lia|].
    apply div_pow2_bound; [assumption | unfold E; lia |].
    unfold E. rewrite fexp64_value. lia. }
  assert (HEmin : emin64 <= E).
  { unfold E. rewrite fexp64_value, emin64_value. lia. }
  destruct (shr_fexp_exact c E ltac:(lia) HEmin) as [L2 V2].
  destruct (shr_fexp prec emax c E loc_Exact) as [mrs2 e2]. cbn [fst snd] in *.
  assert (P3 : 0 < 2 ^ (e2 - E)) by (apply Z.pow_pos_nonneg; lia).
  destruct (shr_m mrs2) as [|m2|m2] eqn:E2.
  - right. exists c. split; [simpl; split; [reflexivity | lia]|].
    split; [exact Hc|]. split; [exact Herr|].
    intros -> EE. rewrite (X1 EE) in Hex. cbn in Hex.
    destruct (Hex eq_refl) as [Hc' HN'].
    rewrite EE, Z.sub_diag in HN'. change (2 ^ 0) with 1 in HN'.
    split; [unfold c; rewrite (X1 EE); reflexivity | lia].
  - destruct (Z.leb_spec e2 (emax - prec)); [|left; split; [reflexivity | lia]].
    right. exists c. split; [simpl; repeat split; try assumption; lia|].
    split; [exact Hc|]. split; [exact Herr|].
    intros -> EE. rewrite (X1 EE) in Hex. cbn in Hex.
    destruct (Hex eq_refl) as [Hc' HN'].
    rewrite EE, Z.sub_diag in HN'. change (2 ^ 0) with 1 in HN'.
    split; [unfold c; rewrite (X1 EE); reflexivity | lia].
  - exfalso. nia.
Qed.

End RoundingSteps.

Section ToQ.
Local Open Scope Q_scope.

Lemma Qpow2_pos (e : Z) : 0 < 2 ^ e.
Proof. apply Qpower_0_lt. reflexivity. Qed.

Lemma Qpow2_add (a b : Z) : 2 ^ (a + b) == 2 ^ a * 2 ^ b.
Proof. apply Qpower_plus. discriminate. Qed.

Lemma inject_pow2 (k : Z) : (0 <= k)%Z -> inject_Z (2 ^ k) == 2 ^ k.
Proof. intros H. apply Zpower_Qpower. assumption. Qed.

Lemma inject_cond_Zopp (s : bool) (c : Z) :
  inject_Z (cond_Zopp s c) == (if s then - inject_Z c else inject_Z c).
Proof. destruct s; simpl; [rewrite inject_Z_opp|]; reflexivity. Qed.

Lemma cond_Zopp_mul (s : bool) (a b : Z) :
  cond_Zopp s (a * b)%Z = (cond_Zopp s a * b)%Z.
Proof. destruct s; simpl; lia. Qed.

Lemma SF_is_exact (z : spec_float) (s : bool) (c E : Z) :
  SF_is z s c E -> SF2Q z == inject_Z (cond_Zopp s c) * 2 ^ E.
Proof.
  destruct z as [s'| | |s' m e]; cbn [SF_is SF2Q]; try contradiction.
  - intros [_ ->]. destruct s; simpl; ring.
  - intros (-> & HE & <-).
    rewrite cond_Zopp_mul, inject_Z_mult, inject_pow2 by lia.
    rewrite <- Qmult_assoc, <- Qpow2_add.
    replace (e - E + E)%Z with e by lia. reflexivity.
Qed.

Lemma SF_is_abs (z : spec_float) (s : bool) (c E : Z) :
  SF_is z s c E -> (0 <= c)%Z -> Qabs (SF2Q z) == inject_Z c * 2 ^ E.
Proof.
  intros H Hc. rewrite (SF_is_exact z s c E H), Qabs_Qmult.
  rewrite (Qabs_pos (2 ^ E)) by (apply Qlt_le_weak, Qpow2_pos).
  rewrite inject_cond_Zopp.
  assert (0 <= inject_Z c)
    by (change 0 with (inject_Z 0); rewrite <- Zle_Qle; assumption).
  destruct s; [rewrite Qabs_opp|]; rewrite Qabs_pos by assumption; reflexivity.
Qed.

(** The rounding error in rationals: half a unit of the last place. *)
Lemma SF_is_round_error (z : spec_float) (s : bool) (c E ex N D : Z) :
  SF_is z s c E -> (0 < D)%Z -> (ex <= E)%Z ->
  (2 * Z.abs (c * (D * 2 ^ (E - ex)) - N) <= D * 2 ^ (E - ex))%Z ->
  Qabs (SF2Q z - inject_Z (cond_Zopp s N) / inject_Z D * 2 ^ ex) * 2 <= 2 ^ E.
Proof.
  intros Hz HD HE Herr.
  rewrite (SF_is_exact z s c E Hz).
  set (A := inject_Z c * 2 ^ E - inject_Z N / inject_Z D * 2 ^ ex).
  assert (HA : - 2 ^ E <= 2 * A /\ 2 * A <= 2 ^ E).
  { assert (HDq : 0 < inject_Z D)
      by (change 0 with (inject_Z 0); rewrite <- Zlt_Qlt; assumption).
    pose proof (Qpow2_pos ex) as Hex.
    assert (Hu : 0 <= 2 ^ ex / inject_Z D).
    { apply Qlt_le_weak, Qlt_shift_div_l; [assumption|]. lra. }
    assert (EP : 2 ^ E == inject_Z (2 ^ (E - ex)) * 2 ^ ex).
    { rewrite inject_pow2 by lia. rewrite <- Qpow2_add.
      replace (E - ex + ex)%Z with E by lia. reflexivity. }
    set (P := (2 ^ (E - ex))%Z) in *.
    assert (H1 : (2 * (c * (D * P) - N) <= D * P)%Z) by lia.
    assert (H2 : (- (D * P) <= 2 * (c * (D * P) - N))%Z) by lia.
    clearbody P. rewrite Zle_Qle in H1, H2.
    assert (F1 : inject_Z (2 * (c * (D * P) - N))
                 == 2 * (inject_Z c * (inject_Z D * inject_Z P) - inject_Z N)).
    { unfold Z.sub.
      rewrite inject_Z_mult, inject_Z_plus, inject_Z_opp, !inject_Z_mult.
      change (inject_Z 2) with 2. ring. }
    assert (F2 : inject_Z (D * P) == inject_Z D * inject_Z P).
    { rewrite inject_Z_mult. reflexivity. }
    assert (F3 : inject_Z (- (D * P)) == - (inject_Z D * inject_Z P)).
    { rewrite inject_Z_opp, inject_Z_mult. reflexivity. }
    rewrite F1, F2 in H1. rewrite F3, F1 in H2.
    apply (Qmult_le_compat_r _ _ _ H1) in Hu as U1.
    apply (Qmult_le_compat_r _ _ _ H2) in Hu as U2.
    unfold A. rewrite EP.
    set (pe := 2 ^ ex) in *. clearbody pe.
    split.
    - eapply Qle_trans; [|eapply Qle_trans; [exact U2|]];
        apply Qle_lteq; right; field; lra.
    - eapply Qle_trans; [|eapply Qle_trans; [exact U1|]];
        apply Qle_lteq; right; field; lra. }
  assert (ES : inject_Z (cond_Zopp s c) * 2 ^ E
               - inject_Z (cond_Zopp s N) / inject_Z D * 2 ^ ex
               == if s then - A else A).
  { rewrite !inject_cond_Zopp. unfold A.
    set (pe := 2 ^ ex). set (pE := 2 ^ E). destruct s; [|reflexivity].
    field. intros C.
    assert (0 < inject_Z D)
      by (change 0 with (inject_Z 0); rewrite <- Zlt_Qlt; assumption).
    lra. }
  rewrite ES. clearbody A. clear ES. set (pE := 2 ^ E) in *. clearbody pE.
  assert (Qabs A * 2 <= pE).
  { destruct (Qabs_Qle_condition A (pE * (1 # 2))) as [_ H].
    assert (Qabs A <= pE * (1 # 2)).
    { apply H. split; lra. }
    lra. }
  destruct s; [rewrite Qabs_opp|]; assumption.
Qed.

End ToQ.

Section OperationErrors.
Local Open Scope Q_scope.

Lemma SF_is_normal (z : spec_float) (s : bool) (c E : Z) :
  SF_is z s c E -> (2 ^ 52 <= c)%Z ->
  2 ^ E <= Qabs (SF2Q z) * 2 * unit_roundoff.
Proof.
  intros Hz Hc. rewrite (SF_is_abs z s c E Hz) by lia.
  pose proof (Qpow2_pos E) as HE. set (pE := 2 ^ E) in *. clearbody pE.
  assert (H : inject_Z (2 ^ 52) <= inject_Z c) by (rewrite <- Zle_Qle; assumption).
  apply (Qmult_le_compat_r _ _ pE) in H; [|lra].
  set (x := inject_Z c * pE) in *. clearbody x.
  change (inject_Z (2 ^ 52)) with 4503599627370496 in H.
  unfold unit_roundoff. change (1 # 2 ^ 53) with (1 # 9007199254740992).
  lra.
Qed.

Lemma round_relative (z x pE : Q) :
  Qabs (z - x) * 2 <= pE -> pE <= Qabs z * 2 * unit_roundoff ->
  Qabs (z - x) <= Qabs z * unit_roundoff.
Proof.
  intros H1 H2.
  set (a := Qabs (z - x)) in *. set (b := Qabs z * unit_roundoff).
  assert (E : Qabs z * 2 * unit_roundoff == 2 * b) by (unfold b; ring).
  rewrite E in H2. lra.
Qed.

Lemma error_zero (z x bound : Q) :
  z == x -> 0 <= bound -> Qabs (z - x) <= bound.
Proof.
  intros E H. assert (E0 : z - x == 0) by (rewrite E; ring).
  rewrite E0. exact H.
Qed.

Lemma relative_nonneg (z : Q) : 0 <= Qabs z * unit_roundoff.
Proof.
  apply Qmult_le_0_compat; [apply Qabs_nonneg | discriminate].
Qed.

Lemma digits2_iter_xO (p d : positive) :
  digits2_pos (Pos.iter xO p d) = (digits2_pos p + d)%positive.
Proof.
  induction d as [|d IH] using Pos.peano_ind.
  - simpl. lia.
  - rewrite Pos.iter_succ. cbn [digits2_pos]. rewrite IH. lia.
Qed.

Lemma shr_inv_exact (m : Z) : shr_inv m 1 (shr_record_of_loc m loc_Exact).
Proof.
  exists 0%Z. cbn [shr_record_of_loc shr_m shr_r shr_s].
  repeat split; try lia; reflexivity.
Qed.

Lemma div_pow2_normal (p : positive) (n : Z) :
  (0 <= n)%Z -> (n = Zpos (digits2_pos p) - 53)%Z ->
  (2 ^ 52 <= Zpos p / 2 ^ n)%Z.
Proof.
  intros Hn Hd.
  assert (0 < 2 ^ n)%Z by (apply Z.pow_pos_nonneg; lia).
  apply Z.div_le_lower_bound; [assumption|].
  rewrite <- Z.pow_add_r by lia.
  destruct (digits2_pos_bounds p) as [L _].
  replace (n + 52)%Z with (Zpos (digits2_pos p) - 1)%Z by lia. exact L.
Qed.

(** Rounding a number [p * 2 ^ e] with [e] at least the smallest exponent:
    the result is exact or normal. *)
Lemma binary_round_error (s : bool) (p : positive) (e : Z) :
  (emin64 <= e)%Z ->
  SF_finite (binary_round prec emax s p e) = true ->
  Qabs (SF2Q (binary_round prec emax s p e)
        - inject_Z (cond_Zopp s (Zpos p)) * 2 ^ e)
  <= Qabs (SF2Q (binary_round prec emax s p e)) * unit_roundoff.
Proof.
  intros He Hfin. unfold binary_round in *.
  set (F := fexp64 (Zpos (digits2_pos p) + e)) in *.
  assert (HF : F = Z.max (Zpos (digits2_pos p) + e - 53) (-1074))
    by (unfold F; apply fexp64_value).
  rewrite emin64_value in He.
  destruct (shl_align p e F) as [mz ez] eqn:Hsh.
  assert (Hal : exists k, (0 <= k)%Z /\ Zpos mz = (Zpos p * 2 ^ k)%Z
                          /\ ez = (e - k)%Z /\ (ez <= F)%Z
                          /\ (Zpos (digits2_pos mz) + ez
                              = Zpos (digits2_pos p) + e)%Z
                          /\ (k = 0 \/ ez = F)%Z).
  { unfold shl_align in Hsh.
    destruct (F - e)%Z as [|d|d] eqn:Ed; injection Hsh as <- <-.
    - exists 0%Z. change (2 ^ 0)%Z with 1%Z. repeat split; try lia.
    - exists 0%Z. change (2 ^ 0)%Z with 1%Z. repeat split; try lia.
    - exists (Zpos d). rewrite iter_xO_value, digits2_iter_xO.
      repeat split; try lia. }
  destruct Hal as (k & Hk & Hmz & Hez & HezF & Hdig & Hcase).
  destruct (binary_round_aux_spec s (Zpos mz) ez loc_Exact (Zpos mz) 1
              ltac:(lia) ltac:(lia) (shr_inv_exact _))
    as [[Hinf _] | (c & Hz & Hc & Herr & Hexact)].
  { rewrite Hinf in Hfin. discriminate. }
  cbn [Zdigits2] in Hz, Hc, Herr, Hexact. rewrite Hdig in Hz, Hc, Herr, Hexact.
  fold F in Hz, Hc, Herr, Hexact.
  replace (Z.max ez F) with F in Hz, Hc, Herr, Hexact by lia.
  set (z := binary_round_aux prec emax s (Zpos mz) ez loc_Exact) in *.
  assert (Hval : inject_Z (cond_Zopp s (Zpos p)) * 2 ^ e
                 == inject_Z (cond_Zopp s (Zpos mz)) * 2 ^ ez).
  { rewrite Hmz, cond_Zopp_mul, inject_Z_mult, inject_pow2 by assumption.
    rewrite <- Qmult_assoc, <- Qpow2_add.
    replace (k + ez)%Z with e by lia. reflexivity. }
  destruct (Z.eq_dec F ez) as [EF | NF].
  - destruct (Hexact eq_refl EF) as [-> _].
    apply error_zero; [|apply relative_nonneg].
    rewrite (SF_is_exact z s _ F Hz), Hval, EF. reflexivity.
  - assert (Hk0 : k = 0%Z) by lia. subst k.
    change (2 ^ 0)%Z with 1%Z in Hmz. rewrite Z.mul_1_r in Hmz.
    injection Hmz as ->.
    assert (Hn : (F - ez = Zpos (digits2_pos p) - 53)%Z) by lia.
    assert (Hc52 : (2 ^ 52 <= c)%Z).
    { pose proof (div_pow2_normal p (F - ez) ltac:(lia) Hn). lia. }
    apply (round_relative _ _ (2 ^ F)).
    + pose proof (SF_is_round_error z s c F ez (Zpos p) 1 Hz ltac:(lia)
                    ltac:(lia) Herr) as R.
      rewrite Hval.
      assert (E1 : inject_Z (cond_Zopp s (Zpos p)) / inject_Z 1 * 2 ^ ez
                   == inject_Z (cond_Zopp s (Zpos p)) * 2 ^ ez).
      { change (inject_Z 1) with 1. set (pe := 2 ^ ez). field. }
      rewrite E1 in R. exact R.
    + apply (SF_is_normal z s c F Hz Hc52).
Qed.

Lemma aligned_sum_value (sx sy : bool) (mx my : positive) (ex ey : Z) :
  SF2Q (S754_finite sx mx ex) + SF2Q (S754_finite sy my ey)
  == inject_Z (cond_Zopp sx (Zpos (fst (shl_align mx ex (Z.min ex ey))))
               + cond_Zopp sy (Zpos (fst (shl_align my ey (Z.min ex ey)))))
     * 2 ^ Z.min ex ey.
Proof.
  cbn [SF2Q]. rewrite !shl_align_value by lia.
  rewrite inject_Z_plus, !cond_Zopp_mul, !inject_Z_mult, !inject_pow2 by lia.
  rewrite Qmult_plus_distr_l, <- !Qmult_assoc, <- !Qpow2_add.
  replace (ex - Z.min ex ey + Z.min ex ey)%Z with ex by lia.
  replace (ey - Z.min ex ey + Z.min ex ey)%Z with ey by lia.
  reflexivity.
Qed.

Lemma SFadd_error (x y : spec_float) :
  valid_binary x = true -> valid_binary y = true ->
  SF_finite (SFadd prec emax x y) = true ->
  Qabs (SF2Q (SFadd prec emax x y) - (SF2Q x + SF2Q y))
  <= Qabs (SF2Q (SFadd prec emax x y)) * unit_roundoff.
Proof.
  intros Vx Vy.
  destruct x as [sx|sx| |sx mx ex], y as [sy|sy| |sy my ey];
    try (destruct sx, sy); cbn [SFadd SF_finite]; try discriminate; intros Hfin;
    try (apply error_zero; [cbn [SF2Q]; ring | apply relative_nonneg]).
  all: pose proof (valid_finite_emin _ _ _ Vx) as Hex;
    pose proof (valid_finite_emin _ _ _ Vy) as Hey.
  all: rewrite aligned_sum_value.
  all: match goal with
       | |- context [binary_normalize _ _ ?m ?e _] =>
           set (d := m) in *; set (ez := e) in *
       end.
  all: assert (Hez : (emin64 <= ez)%Z) by (unfold ez; lia).
  all: clearbody d ez; destruct d as [|p|p]; cbn [binary_normalize] in *.
  all: try (apply error_zero; [cbn [SF2Q]; set (pe := 2 ^ ez); ring
                              | apply relative_nonneg]).
  all: try exact (binary_round_error false p ez Hez Hfin).
  all: exact (binary_round_error true p ez Hez Hfin).
Qed.

Lemma finite_SF (x : number) : finite x = SF_finite (Prim2SF x).
Proof. reflexivity. Qed.

(** A binary64 addition that does not overflow is off the exact sum by at
    most the unit roundoff times the result. *)
Lemma add_error (a b : number) :
  finite (a + b)%float = true ->
  Qabs (exact (a + b)%float - (exact a + exact b))
  <= Qabs (exact (a + b)%float) * unit_roundoff.
Proof.
  rewrite finite_SF. unfold exact. rewrite add_spec.
  apply SFadd_error; apply Prim2SF_valid.
Qed.

Lemma half_tiny_nonneg : 0 <= half_tiny.
Proof. discriminate. Qed.

Lemma pow2_emin : 2 ^ (-1074) == 2 * half_tiny.
Proof. vm_compute. reflexivity. Qed.

Lemma bound_nonneg (z : Q) : 0 <= Qabs z * unit_roundoff + half_tiny.
Proof.
  pose proof (relative_nonneg z). pose proof half_tiny_nonneg. lra.
Qed.

(** The three ways a rounding can go: exactly, with a normal result, or
    down at the smallest exponent. *)
Lemma round_cases (z : spec_float) (s : bool) (c E ex N D : Z) :
  SF_is z s c E -> (0 < D)%Z -> (ex <= E)%Z ->
  (2 * Z.abs (c * (D * 2 ^ (E - ex)) - N) <= D * 2 ^ (E - ex))%Z ->
  (2 ^ 52 <= c)%Z \/ E = (-1074)%Z ->
  Qabs (SF2Q z - inject_Z (cond_Zopp s N) / inject_Z D * 2 ^ ex)
  <= Qabs (SF2Q z) * unit_roundoff + half_tiny.
Proof.
  intros Hz HD HE Herr Hcase.
  pose proof (SF_is_round_error z s c E ex N D Hz HD HE Herr) as R.
  destruct Hcase as [Hc | ->].
  - pose proof (round_relative _ _ _ R (SF_is_normal z s c E Hz Hc)).
    pose proof half_tiny_nonneg. lra.
  - rewrite pow2_emin in R. pose proof (relative_nonneg (SF2Q z)). lra.
Qed.

Lemma Zdiv_pow2_normal (q n : Z) :
  (0 <= n)%Z -> (n = Zdigits2 q - 53)%Z -> (0 <= q)%Z ->
  (2 ^ 52 <= q / 2 ^ n)%Z.
Proof.
  intros Hn Hd Hq. destruct q as [|p|p]; [simpl in Hd; lia | | lia].
  apply div_pow2_normal; assumption.
Qed.

Lemma binary_round_aux_exact_error (s : bool) (p : positive) (e : Z) :
  SF_finite (binary_round_aux prec emax s (Zpos p) e loc_Exact) = true ->
  Qabs (SF2Q (binary_round_aux prec emax s (Zpos p) e loc_Exact)
        - inject_Z (cond_Zopp s (Zpos p)) * 2 ^ e)
  <= Qabs (SF2Q (binary_round_aux prec emax s (Zpos p) e loc_Exact))
     * unit_roundoff + half_tiny.
Proof.
  intros Hfin.
  destruct (binary_round_aux_spec s (Zpos p) e loc_Exact (Zpos p) 1
              ltac:(lia) ltac:(lia) (shr_inv_exact _))
    as [[Hinf _] | (c & Hz & Hc & Herr & Hexact)].
  { rewrite Hinf in Hfin. discriminate. }
  set (z := binary_round_aux prec emax s (Zpos p) e loc_Exact) in *.
  set (E := Z.max e (fexp64 (Zdigits2 (Zpos p) + e))) in *.
  assert (HE : E = Z.max e (Z.max (Zdigits2 (Zpos p) + e - 53) (-1074)))
    by (unfold E; rewrite fexp64_value; reflexivity).
  assert (E1 : inject_Z (cond_Zopp s (Zpos p)) / inject_Z 1 * 2 ^ e
               == inject_Z (cond_Zopp s (Zpos p)) * 2 ^ e).
  { change (inject_Z 1) with 1. set (pe := 2 ^ e). field. }
  destruct (Z.eq_dec E e) as [Ee | Ne].
  - destruct (Hexact eq_refl Ee) as [-> _].
    apply error_zero; [|apply bound_nonneg].
    rewrite (SF_is_exact z s _ E Hz), Ee. reflexivity.
  - rewrite <- E1.
    apply (round_cases z s c E e (Zpos p) 1 Hz); try lia.
    destruct (Z.eq_dec E (-1074)) as [|Nm]; [right; assumption|left].
    pose proof (Zdiv_pow2_normal (Zpos p) (E - e) ltac:(lia) ltac:(lia)
                  ltac:(lia)).
    lia.
Qed.

Lemma SFmul_error (x y : spec_float) :
  SF_finite (SFmul prec emax x y) = true ->
  Qabs (SF2Q (SFmul prec emax x y) - SF2Q x * SF2Q y)
  <= Qabs (SF2Q (SFmul prec emax x y)) * unit_roundoff + half_tiny.
Proof.
  destruct x as [sx|sx| |sx mx ex], y as [sy|sy| |sy my ey];
    cbn [SFmul SF_finite]; try discriminate; intros Hfin;
    try (apply error_zero; [cbn [SF2Q]; ring | apply bound_nonneg]).
  assert (E : SF2Q (S754_finite sx mx ex) * SF2Q (S754_finite sy my ey)
              == inject_Z (cond_Zopp (xorb sx sy) (Zpos (mx * my)))
                 * 2 ^ (ex + ey)).
  { cbn [SF2Q]. rewrite Qpow2_add, Pos2Z.inj_mul.
    set (px := 2 ^ ex). set (py := 2 ^ ey).
    destruct sx, sy; cbn [xorb cond_Zopp];
      rewrite ?inject_Z_opp, ?inject_Z_mult, ?inject_Z_opp; ring. }
  rewrite E. apply binary_round_aux_exact_error. exact Hfin.
Qed.

(** A binary64 multiplication that does not overflow is off the exact
    product by at most the unit roundoff times the result, or by half the
    smallest positive number. *)
Lemma mul_error (a b : number) :
  finite (a * b)%float = true ->
  Qabs (exact (a * b)%float - exact a * exact b)
  <= Qabs (exact (a * b)%float) * unit_roundoff + half_tiny.
Proof.
  rewrite finite_SF. unfold exact. rewrite mul_spec.
  apply SFmul_error.
Qed.

Lemma new_location_inv (N D q r : Z) :
  (0 < D)%Z -> (0 <= r < D)%Z -> N = (q * D + r)%Z ->
  shr_inv N D (shr_record_of_loc q (new_location D r)).
Proof.
  intros HD Hr HN. exists r.
  unfold new_location, new_location_even, new_location_odd.
  destruct (Z.even D) eqn:Ev.
  - destruct (Z.eqb_spec r 0) as [->|Hr0].
    + cbn [shr_record_of_loc shr_m shr_r shr_s].
      repeat split; try lia; bool_lia.
    + destruct (Z.compare_spec (2 * r) D);
        cbn [shr_record_of_loc shr_m shr_r shr_s];
        repeat split; try lia; bool_lia.
  - assert (Hodd : (2 * r <> D)%Z).
    { intros C. rewrite <- C, Z.even_mul in Ev. discriminate. }
    destruct (Z.eqb_spec r 0) as [->|Hr0].
    + cbn [shr_record_of_loc shr_m shr_r shr_s].
      repeat split; try lia; bool_lia.
    + destruct (Z.compare_spec (2 * r + 1) D);
        cbn [shr_record_of_loc shr_m shr_r shr_s];
        repeat split; try lia; bool_lia.
Qed.

Lemma quotient_digits (m1 m2 s : Z) :
  (0 < m1)%Z -> (0 < m2)%Z -> (0 <= s)%Z ->
  (Zdigits2 m1 + s - Zdigits2 m2 <= Zdigits2 (m1 * 2 ^ s / m2))%Z.
Proof.
  intros H1 H2 Hs.
  pose proof (Zdigits2_nonneg (m1 * 2 ^ s / m2)).
  destruct (Z.le_gt_cases (Zdigits2 m1 + s - Zdigits2 m2) 0) as [|G]; [lia|].
  set (k := (Zdigits2 m1 + s - Zdigits2 m2 - 1)%Z).
  assert (Hk : (0 <= k)%Z) by (unfold k; lia).
  enough (2 ^ k <= m1 * 2 ^ s / m2)%Z
    by (pose proof (Zdigits2_ge _ k ltac:(eassumption) Hk); unfold k in *; lia).
  apply Z.div_le_lower_bound; [assumption|].
  destruct (Zdigits2_bounds m1 H1) as [L1 _].
  destruct (Zdigits2_bounds m2 H2) as [_ U2].
  pose proof (Zdigits2_nonneg m2).
  assert (P1 : (0 < 2 ^ k)%Z) by (apply Z.pow_pos_nonneg; lia).
  assert (P2 : (0 < 2 ^ s)%Z) by (apply Z.pow_pos_nonneg; lia).
  assert (D1 : (1 <= Zdigits2 m1)%Z).
  { apply (Zdigits2_ge m1 0); [change (2 ^ 0)%Z with 1%Z|]; lia. }
  assert (E : (2 ^ Zdigits2 m2 * 2 ^ k = 2 ^ (Zdigits2 m1 - 1) * 2 ^ s)%Z).
  { rewrite <- !Z.pow_add_r by lia. f_equal. unfold k. lia. }
  nia.
Qed.

Lemma SFdiv_finite_error (sx sy : bool) (mx my : positive) (ex ey : Z) :
  SF_finite (SFdiv prec emax (S754_finite sx mx ex) (S754_finite sy my ey))
  = true ->
  Qabs (SF2Q (SFdiv prec emax (S754_finite sx mx ex) (S754_finite sy my ey))
        - SF2Q (S754_finite sx mx ex) / SF2Q (S754_finite sy my ey))
  <= Qabs (SF2Q (SFdiv prec emax (S754_finite sx mx ex)
                       (S754_finite sy my ey)))
     * unit_roundoff + half_tiny.
Proof.
  cbn [SFdiv]. unfold SFdiv_core_binary.
  set (d1 := Zdigits2 (Zpos mx)). set (d2 := Zdigits2 (Zpos my)).
  set (F := fexp64 (d1 + ex - (d2 + ey))).
  assert (HF : F = Z.max (d1 + ex - (d2 + ey) - 53) (-1074))
    by (unfold F; apply fexp64_value).
  set (e' := Z.min F (ex - ey)).
  set (s := (ex - ey - e')%Z).
  assert (Hs : (0 <= s)%Z) by (unfold s, e'; lia).
  set (m' := match s with
             | 0%Z => Zpos mx
             | Zpos _ => Z.shiftl (Zpos mx) s
             | Zneg _ => 0%Z
             end).
  assert (Hm' : m' = (Zpos mx * 2 ^ s)%Z).
  { unfold m'. destruct s as [|p|p] eqn:Es.
    - change (2 ^ 0)%Z with 1%Z. lia.
    - apply Z.shiftl_mul_pow2. lia.
    - lia. }
  clearbody m'.
  pose proof (Z_div_mod m' (Zpos my) ltac:(lia)) as Hdm.
  assert (Hq : fst (Z.div_eucl m' (Zpos my)) = (m' / Zpos my)%Z) by reflexivity.
  destruct (Z.div_eucl m' (Zpos my)) as [q r]. cbn [fst] in Hq.
  destruct Hdm as [Hmq Hr].
  assert (P2 : (0 < 2 ^ s)%Z) by (apply Z.pow_pos_nonneg; lia).
  assert (Hq0 : (0 <= q)%Z) by (rewrite Hq; apply Z.div_pos; nia).
  intros Hfin.
  destruct (binary_round_aux_spec (xorb sx sy) q e' (new_location (Zpos my) r)
              m' (Zpos my) Hq0 ltac:(lia)
              (new_location_inv m' (Zpos my) q r ltac:(lia) Hr ltac:(lia)))
    as [[Hinf _] | (c & Hz & Hc & Herr & _)].
  { rewrite Hinf in Hfin. discriminate. }
  set (z := binary_round_aux prec emax (xorb sx sy) q e'
                             (new_location (Zpos my) r)) in *.
  set (E := Z.max e' (fexp64 (Zdigits2 q + e'))) in *.
  assert (HE : E = Z.max e' (Z.max (Zdigits2 q + e' - 53) (-1074)))
    by (unfold E; rewrite fexp64_value; reflexivity).
  assert (Hdq : (d1 + s - d2 <= Zdigits2 q)%Z).
  { rewrite Hq, Hm'. apply quotient_digits; lia. }
  assert (Hval : SF2Q (S754_finite sx mx ex) / SF2Q (S754_finite sy my ey)
                 == inject_Z (cond_Zopp (xorb sx sy) m') / inject_Z (Zpos my)
                    * 2 ^ e').
  { cbn [SF2Q]. rewrite Hm'.
    replace ex with (ey + s + e')%Z at 1 by (unfold s; lia).
    rewrite !Qpow2_add, cond_Zopp_mul, inject_Z_mult, inject_pow2 by lia.
    pose proof (Qpow2_pos ey). pose proof (Qpow2_pos e').
    pose proof (Qpow2_pos s).
    set (py := 2 ^ ey) in *. set (ps := 2 ^ s) in *. set (pe := 2 ^ e') in *.
    assert (0 < inject_Z (Zpos my)) by reflexivity.
    destruct sx, sy; cbn [xorb cond_Zopp]; rewrite ?inject_Z_opp;
      field; split; lra. }
  rewrite Hval.
  apply (round_cases z (xorb sx sy) c E e' m' (Zpos my) Hz); try lia.
  destruct (Z.eq_dec E (-1074)) as [|Nm]; [right; assumption|left].
  assert (Hn : (E - e' = Zdigits2 q - 53)%Z) by (unfold e' in *; lia).
  pose proof (Zdiv_pow2_normal q (E - e') ltac:(lia) Hn Hq0).
  lia.
Qed.

Lemma SFdiv_error (x y : spec_float) :
  SF_finite (SFdiv prec emax x y) = true ->
  Qabs (SF2Q (SFdiv prec emax x y) - SF2Q x / SF2Q y)
  <= Qabs (SF2Q (SFdiv prec emax x y)) * unit_roundoff + half_tiny.
Proof.
  destruct x as [sx|sx| |sx mx ex], y as [sy|sy| |sy my ey];
    try apply SFdiv_finite_error;
    cbn [SFdiv SF_finite]; try discriminate; intros Hfin;
    apply error_zero; try apply bound_nonneg; cbn [SF2Q];
    unfold Qdiv; try rewrite Qmult_0_l; try reflexivity.
  all: rewrite Qmult_0_r; reflexivity.
Qed.

(** The same of a division. *)
Lemma div_error (a b : number) :
  finite (a / b)%float = true ->
  Qabs (exact (a / b)%float - exact a / exact b)
  <= Qabs (exact (a / b)%float) * unit_roundoff + half_tiny.
Proof.
  rewrite finite_SF. unfold exact. rewrite div_spec.
  apply SFdiv_error.
Qed.

End OperationErrors.

(** ** Sums up to rounding *)

Section ExactSums.
Local Open Scope Q_scope.

Lemma Qnat_S (n : nat) : Qnat (S n) == Qnat n + 1.
Proof.
  unfold Qnat. rewrite Nat2Z.inj_succ. unfold Z.succ.
  rewrite inject_Z_plus. reflexivity.
Qed.

Lemma exact_zero : exact 0%float == 0.
Proof. reflexivity. Qed.

Lemma Qsum_perm (l l' : list Q) : Permutation l l' -> Qsum l == Qsum l'.
Proof.
  induction 1 as [|x l l' _ IH|x y l|l l' l'' _ IH1 _ IH2]; simpl.
  - reflexivity.
  - rewrite IH; reflexivity.
  - ring.
  - rewrite IH1; assumption.
Qed.

Lemma map_values_sum_set (k : Category) (v : number) (m : JsMap) :
  map_values_sum (map_set k v m)
  == map_values_sum m - exact (get_or_zero k m) + exact v.
Proof.
  unfold map_values_sum, get_or_zero.
  induction m as [|[k' v'] m IH]; simpl.
  - rewrite exact_zero. ring.
  - destruct (str_eqb k' k); simpl.
    + ring.
    + rewrite IH. ring.
Qed.

Lemma subtotals_sum_map (ps : list Product) :
  subtotals_sum ps == map_values_sum (fst (summary_loop ps)).
Proof.
  unfold subtotals_sum, map_values_sum.
  rewrite (Qsum_perm _ _ (Permutation_map (fun r => exact (sum r)) (rows_perm ps))).
  rewrite map_map. reflexivity.
Qed.

(** The loop's two sums against the exact sums of the line totals. *)
Lemma loop_accurate_sums (eps : Q) (ps : list Product) :
  forall acc : JsMap * number,
    loop_accurate eps ps acc ->
    near (Qnat (length ps) * eps)
         (exact (snd (fold_left summary_step ps acc)))
         (exact (snd acc) + lines_sum ps)
    /\ near (Qnat (length ps) * eps)
            (map_values_sum (fst (fold_left summary_step ps acc)))
            (map_values_sum (fst acc) + categorised_lines_sum ps)
    /\ (ps <> [] -> finite (snd (fold_left summary_step ps acc)) = true).
Proof.
  unfold lines_sum, categorised_lines_sum.
  induction ps as [|p ps IH]; intros acc H.
  - unfold near, Qnat; simpl. change (inject_Z 0) with 0.
    split; [lra | split; [lra | intros C; exfalso; apply C; reflexivity]].
  - destruct H as ([Ft Ht] & Hm & Hrest).
    destruct (IH _ Hrest) as (I1 & I2 & I3). clear IH.
    assert (EN : Qnat (length (p :: ps)) * eps == Qnat (length ps) * eps + eps).
    { simpl length. rewrite Qnat_S. ring. }
    assert (St : snd (summary_step acc p) = (snd acc + lineTotal p)%float).
    { unfold summary_step. destruct (str_falsy (category p)); reflexivity. }
    rewrite St in I1.
    cbn [fold_left map]. unfold Qsum in *. cbn [fold_right].
    unfold near in *.
    set (B := Qnat (length ps) * eps) in *.
    set (B' := Qnat (length (p :: ps)) * eps) in *.
    split; [|split].
    + lra.
    + cbn [filter]. unfold summary_step in I2 |- *.
      destruct (str_falsy (category p)) eqn:E; cbn [negb fst] in *.
      * lra.
      * assert (Hne : category p <> []).
        { intros C. apply str_falsy_nil in C. congruence. }
        destruct (Hm Hne) as [_ Hadd]. unfold near in Hadd.
        rewrite map_values_sum_set in I2.
        cbn [map fold_right]. lra.
    + intros _. destruct ps as [|q ps].
      * simpl. rewrite St. exact Ft.
      * apply I3. discriminate.
Qed.

Lemma summary_loop_accurate (eps : Q) (ps : list Product) :
  loop_accurate eps ps ([], 0%float) ->
  near (Qnat (length ps) * eps) (exact (totalSum ps)) (lines_sum ps)
  /\ near (Qnat (length ps) * eps) (subtotals_sum ps) (categorised_lines_sum ps)
  /\ (ps <> [] -> finite (totalSum ps) = true).
Proof.
  intros H. destruct (loop_accurate_sums eps ps _ H) as (I1 & I2 & I3).
  cbn [fst snd] in I1, I2. pose proof exact_zero as Z0.
  change (map_values_sum []) with 0 in I2.
  pose proof (subtotals_sum_map ps) as E.
  unfold near in *. unfold totalSum, summary, summary_loop; cbn [fst].
  unfold summary_loop in E.
  repeat split; try lra. exact I3.
Qed.

Lemma eqb_zero_exact (x : number) : (x =? 0)%float = true -> exact x == 0.
Proof.
  rewrite eqb_spec, Prim2SF_zero. unfold exact.
  destruct (Prim2SF x) as [s| | |s m e]; try reflexivity;
    try destruct s; discriminate.
Qed.

Lemma all_categorised_lines (ps : list Product) :
  Forall (fun p => category p = [] -> exact (lineTotal p) == 0) ps ->
  categorised_lines_sum ps == lines_sum ps.
Proof.
  unfold categorised_lines_sum, lines_sum.
  induction 1 as [|p ps Hp _ IH]; simpl; [reflexivity|].
  destruct (str_falsy (category p)) eqn:E; simpl.
  - apply str_falsy_nil in E. rewrite (Hp E), IH. ring.
  - rewrite IH. reflexivity.
Qed.

(** When every addition of the loop is finite and within [eps] of the
    exact sum, the rows' subtotals add up to the sum of the line totals of
    the products that have a category, up to [eps] per product; and, when
    every product has a category, to the total revenue, up to twice that. *)
Lemma subtotals_sum_accurate (eps : Q) (ps : list Product) :
  loop_accurate eps ps ([], 0%float) ->
  near (Qnat (length ps) * eps) (subtotals_sum ps) (categorised_lines_sum ps)
  /\ (Forall (fun p => category p <> []) ps ->
      near (2 * Qnat (length ps) * eps) (subtotals_sum ps)
           (exact (totalSum ps))).
Proof.
  intros H. destruct (summary_loop_accurate eps ps H) as (I1 & I2 & _).
  split; [exact I2|].
  intros Hall.
  assert (E : categorised_lines_sum ps == lines_sum ps).
  { apply all_categorised_lines.
    eapply Forall_impl; [|exact Hall]. intros p Hp C. contradiction. }
  unfold near in *. set (B := Qnat (length ps) * eps) in *.
  assert (E2 : 2 * Qnat (length ps) * eps == 2 * B) by (unfold B; ring).
  lra.
Qed.

Lemma Qsum_near_each {A : Type} (delta : Q) (f g : A -> Q) (l : list A) :
  (forall x, In x l -> near delta (f x) (g x)) ->
  near (Qnat (length l) * delta) (Qsum (map f l)) (Qsum (map g l)).
Proof.
  induction l as [|x l IH]; intros H.
  - unfold near, Qnat; simpl. change (inject_Z 0) with 0. lra.
  - assert (EN : Qnat (length (x :: l)) * delta == Qnat (length l) * delta + delta).
    { simpl length. rewrite Qnat_S. ring. }
    pose proof (H x (or_introl eq_refl)) as Hx.
    assert (Hl : near (Qnat (length l) * delta) (Qsum (map f l)) (Qsum (map g l))).
    { apply IH. intros y Hy. apply H. right; assumption. }
    unfold near in *. simpl map. unfold Qsum in *. cbn [fold_right].
    set (B := Qnat (length l) * delta) in *.
    set (B' := Qnat (length (x :: l)) * delta) in *.
    lra.
Qed.

Lemma Qsum_scaled {A : Type} (h : A -> Q) (t c : Q) (l : list A) :
  Qsum (map (fun x => h x / t * c) l) == Qsum (map h l) / t * c.
Proof.
  induction l as [|x l IH]; simpl.
  - unfold Qdiv. ring.
  - rewrite IH. unfold Qdiv. ring.
Qed.

(** When moreover the total revenue is positive, the products without a
    category have line total zero and every share is finite and within
    [delta] of the exact quotient, the rows' shares add up to 100 up to
    [delta] per row and [200 eps / total] per product. *)
Lemma shares_sum_accurate (eps delta : Q) (ps : list Product) :
  (0 <? totalSum ps)%float = true ->
  Forall (fun p => category p = [] -> (lineTotal p =? 0)%float = true) ps ->
  loop_accurate eps ps ([], 0%float) ->
  Forall (fun r => share_accurate delta (sum r) (totalSum ps)) (rows ps) ->
  near (Qnat (length (rows ps)) * delta
        + 200 * Qnat (length ps) * eps / exact (totalSum ps))
       (shares_sum ps) 100.
Proof.
  intros Hpos Hloose Hloop Hshares.
  destruct (summary_loop_accurate eps ps Hloop) as (I1 & I2 & I3).
  assert (Hne : ps <> []).
  { intros ->. vm_compute in Hpos. discriminate. }
  pose proof (exact_positive _ Hpos (I3 Hne)) as Ht.
  assert (E : categorised_lines_sum ps == lines_sum ps).
  { apply all_categorised_lines.
    eapply Forall_impl; [|exact Hloose].
    intros p Hp C. apply eqb_zero_exact. apply Hp. exact C. }
  assert (Hs : near (Qnat (length (rows ps)) * delta) (shares_sum ps)
                    (subtotals_sum ps / exact (totalSum ps) * 100)).
  { unfold shares_sum, subtotals_sum.
    assert (N : near (Qnat (length (rows ps)) * delta)
                  (Qsum (map (fun r => exact (share r)) (rows ps)))
                  (Qsum (map (fun r => exact (sum r) / exact (totalSum ps) * 100)
                             (rows ps)))).
    { apply Qsum_near_each.
      intros r Hr. rewrite (rows_share ps r Hr), Hpos.
      rewrite Forall_forall in Hshares. apply (Hshares r Hr). }
    pose proof (Qsum_scaled (fun r => exact (sum r)) (exact (totalSum ps)) 100
                            (rows ps)) as Sc.
    unfold near in *.
    set (a := Qsum (map (fun r => exact (sum r) / exact (totalSum ps) * 100)
                        (rows ps))) in *.
    lra. }
  set (t := exact (totalSum ps)) in *.
  set (S := subtotals_sum ps) in *.
  set (u := / t).
  assert (Hu : 0 < u) by (apply Qinv_lt_0_compat; exact Ht).
  assert (E1 : S / t * 100 == 100 + (S - t) * (u * 100)).
  { unfold u. field. lra. }
  assert (E2 : 200 * Qnat (length ps) * eps / t
               == 2 * (Qnat (length ps) * eps) * (u * 100)).
  { unfold u. field. lra. }
  unfold near in *.
  set (B := Qnat (length ps) * eps) in *.
  assert (Hup : (S - t) * (u * 100) <= 2 * B * (u * 100)).
  { apply Qmult_le_compat_r; lra. }
  assert (Hlo : (- (2 * B)) * (u * 100) <= (S - t) * (u * 100)).
  { apply Qmult_le_compat_r; lra. }
  assert (E3 : (- (2 * B)) * (u * 100) == - (2 * B * (u * 100))) by ring.
  set (X := (S - t) * (u * 100)) in *.
  set (Y := 2 * B * (u * 100)) in *.
  set (D := Qnat (length (rows ps)) * delta) in *.
  set (G := 200 * Qnat (length ps) * eps / t) in *.
  set (R := S / t * 100) in *.
  lra.
Qed.
Lemma near_abs (eps x y : Q) : Qabs (x - y) <= eps -> near eps x y.
Proof.
  intros H. apply Qabs_Qle_condition in H. unfold near. split; lra.
Qed.

Lemma add_bounded_accurate (M : Q) (a b : number) :
  add_bounded M a b -> add_accurate (M * unit_roundoff) a b.
Proof.
  intros [Hf Hm]. split; [exact Hf|]. apply near_abs.
  eapply Qle_trans; [apply add_error; exact Hf|].
  apply Qmult_le_compat_r; [exact Hm | discriminate].
Qed.

Lemma loop_bounded_accurate (M : Q) (ps : list Product) :
  forall acc, loop_bounded M ps acc -> loop_accurate (M * unit_roundoff) ps acc.
Proof.
  induction ps as [|p ps IH]; intros acc; cbn [loop_bounded loop_accurate];
    [trivial|].
  intros (H1 & H2 & H3). split; [apply add_bounded_accurate; exact H1|].
  split; [intros C; apply add_bounded_accurate, H2; exact C|].
  apply IH; exact H3.
Qed.

Lemma exact_hundred : exact 100%float == 100.
Proof. vm_compute. reflexivity. Qed.

Lemma finite_mul_l (q c : number) :
  finite (q * c)%float = true -> finite q = true.
Proof.
  rewrite !finite_SF, mul_spec.
  destruct (Prim2SF q) as [s|s| |s m e]; try reflexivity;
    destruct (Prim2SF c) as [s'|s'| |s' m' e']; cbn; intros H;
    try discriminate; try destruct s; try discriminate.
Qed.

Lemma share_error (P : Q) (s t : number) :
  finite (s / t * 100)%float = true ->
  Qabs (exact (s / t * 100)%float) <= P ->
  Qabs (exact (s / t * 100)%float - exact s / exact t * 100)
  <= 3 * P * unit_roundoff + 102 * half_tiny.
Proof.
  intros Hf HP.
  pose proof (finite_mul_l _ _ Hf) as Hq.
  pose proof (div_error s t Hq) as E1.
  pose proof (mul_error _ _ Hf) as E2.
  rewrite exact_hundred in E2.
  set (p := exact (s / t * 100)%float) in *.
  set (q := exact (s / t)%float) in *.
  set (x := exact s / exact t) in *.
  clearbody p q x.
  pose proof half_tiny_nonneg as Ht.
  unfold unit_roundoff in *. change (1 # 2 ^ 53) with (1 # 9007199254740992) in *.
  set (h := half_tiny) in *. clearbody h.
  apply Qabs_Qle_condition.
  pose proof (Qabs_nonneg p) as Np. pose proof (Qabs_nonneg q) as Nq.
  pose proof (Qle_Qabs p) as Lp. pose proof (Qle_Qabs q) as Lq.
  pose proof (Qle_Qabs (- p)) as Lp'. pose proof (Qle_Qabs (- q)) as Lq'.
  rewrite Qabs_opp in Lp', Lq'.
  apply Qabs_Qle_condition in E1, E2.
  assert (Aq : Qabs q * 100 <= Qabs p * (1 + (1 # 9007199254740992)) + h).
  { apply (Qabs_case q); intros _.
    - set (ap := Qabs p) in *. set (aq := Qabs q) in *. lra.
    - set (ap := Qabs p) in *. set (aq := Qabs q) in *. lra. }
  set (ap := Qabs p) in *. set (aq := Qabs q) in *. clearbody ap aq.
  split; lra.
Qed.

(** C10: when no addition of the loop overflows and every running sum stays
    within [M], the rows' subtotals add up to the sum of the line totals of
    the products that have a category, up to [M] times the unit roundoff
    per product; and, when every product has a category, to the total
    revenue, up to twice that. *)
Theorem subtotals_sum_to_categorised_total (M : Q) (ps : list Product) :
  loop_bounded M ps ([], 0%float) ->
  near (Qnat (length ps) * (M * unit_roundoff))
       (subtotals_sum ps) (categorised_lines_sum ps)
  /\ (Forall (fun p => category p <> []) ps ->
      near (2 * Qnat (length ps) * (M * unit_roundoff))
           (subtotals_sum ps) (exact (totalSum ps))).
Proof.
  intros H. apply subtotals_sum_accurate, loop_bounded_accurate, H.
Qed.

(** C4: when the total revenue is positive, the products without a category
    have line total zero, no addition of the loop overflows, every running
    sum stays within [M] and every share is finite and of magnitude at most
    [P], the rows' shares add up to 100 up to three unit roundoffs of [P]
    (and 102 times half the smallest positive number) per row and 200 unit
    roundoffs of [M / total] per product. *)
Theorem shares_sum_to_100 (M P : Q) (ps : list Product) :
  (0 <? totalSum ps)%float = true ->
  Forall (fun p => category p = [] -> (lineTotal p =? 0)%float = true) ps ->
  loop_bounded M ps ([], 0%float) ->
  Forall (share_bounded P) (rows ps) ->
  near (Qnat (length (rows ps)) * (3 * P * unit_roundoff + 102 * half_tiny)
        + 200 * Qnat (length ps) * (M * unit_roundoff) / exact (totalSum ps))
       (shares_sum ps) 100.
Proof.
  intros Hpos Hloose Hloop Hsh.
  apply shares_sum_accurate; try assumption.
  - apply loop_bounded_accurate; assumption.
  - rewrite Forall_forall in *. intros r Hr.
    destruct (Hsh r Hr) as [Hf HP].
    rewrite (rows_share ps r Hr), Hpos in Hf, HP.
    split; [exact Hf|]. apply near_abs, share_error; assumption.
Qed.
End ExactSums.

(** ** [String.prototype.trim] *)

Lemma trimStart_split (s : jsstring) :
  exists l, s = l ++ trimStart s /\ Forall white l.
Proof.
  induction s as [|c s [l [Hs Hl]]]; simpl.
  - exists []; split; [reflexivity | constructor].
  - destruct (is_white c) eqn:E.
    + exists (c :: l); split; [simpl; congruence | constructor; assumption].
    + exists []; split; [reflexivity | constructor].
Qed.

Lemma trimStart_head (s : jsstring) (c : codeunit) (u : jsstring) :
  trimStart s = c :: u -> is_white c = false.
Proof.
  induction s as [|d s IH]; simpl; [discriminate|].
  destruct (is_white d) eqn:E; [assumption|].
  intros H; injection H as -> _; assumption.
Qed.

Lemma trimEnd_split (s : jsstring) :
  exists r, s = trimEnd s ++ r /\ Forall white r.
Proof.
  destruct (trimStart_split (rev s)) as [l [Hs Hl]].
  exists (rev l); split.
  - unfold trimEnd. rewrite <- rev_app_distr, <- Hs, rev_involutive. reflexivity.
  - apply Forall_rev; assumption.
Qed.

Lemma trimEnd_last (s u : jsstring) (c : codeunit) :
  trimEnd s = u ++ [c] -> is_white c = false.
Proof.
  unfold trimEnd. intros H.
  apply (f_equal (@rev codeunit)) in H.
  rewrite rev_involutive, rev_app_distr in H; simpl in H.
  eapply trimStart_head; eassumption.
Qed.

Lemma trim_split (s : jsstring) :
  exists l r, s = l ++ trim s ++ r /\ Forall white l /\ Forall white r.
Proof.
  destruct (trimStart_split s) as [l [Hs Hl]].
  destruct (trimEnd_split (trimStart s)) as [r [Hu Hr]].
  exists l, r. unfold trim. rewrite <- Hu. tauto.
Qed.

Lemma trim_head (s : jsstring) (c : codeunit) (u : jsstring) :
  trim s = c :: u -> is_white c = false.
Proof.
  unfold trim. intros H.
  destruct (trimEnd_split (trimStart s)) as [r [Hu _]].
  rewrite H in Hu. simpl in Hu.
  eapply trimStart_head; eassumption.
Qed.

Lemma trim_last (s u : jsstring) (c : codeunit) :
  trim s = u ++ [c] -> is_white c = false.
Proof. unfold trim. apply trimEnd_last. Qed.

(** ** The category registry *)

Lemma includes_In (arr : list jsstring) (s : jsstring) :
  includes arr s = true <-> In s arr.
Proof.
  unfold includes. rewrite existsb_exists. split.
  - intros [x [Hx E]]. apply str_eqb_eq in E. subst; assumption.
  - intros H. exists s; split; [assumption | apply str_eqb_refl].
Qed.

Lemma occurrences_absent (label : jsstring) (cats : list Category) :
  ~ In label cats -> occurrences label cats = O.
Proof.
  unfold occurrences. induction cats as [|c cats IH]; simpl; [reflexivity|].
  intros H. destruct (str_eqb label c) eqn:E.
  - apply str_eqb_eq in E. symmetry in E. tauto.
  - apply IH. tauto.
Qed.

Lemma occurrences_NoDup (label : jsstring) (cats : list Category) :
  NoDup cats -> In label cats -> occurrences label cats = 1%nat.
Proof.
  induction 1 as [|c cats Hc Hnd IH]; simpl; [tauto|].
  intros Hin. unfold occurrences in *. simpl.
  destruct (str_eqb label c) eqn:E.
  - apply str_eqb_eq in E. subst c. simpl.
    f_equal. apply (occurrences_absent label cats Hc).
  - apply str_eqb_neq in E. apply IH.
    destruct Hin as [-> | Hin]; [congruence | assumption].
Qed.

Lemma addCategory_categories (st : State) :
  categories (addCategory st) =
  if str_falsy (trim (newCat st)) then categories st
  else if includes (categories st) (trim (newCat st)) then categories st
       else categories st ++ [trim (newCat st)].
Proof.
  unfold addCategory.
  destruct (str_falsy (trim (newCat st))); [reflexivity|].
  destruct (includes (categories st) (trim (newCat st))); reflexivity.
Qed.

Lemma addCategoryLabel_categories (label : jsstring) (st : State) :
  categories (addCategoryLabel label st) =
  if str_falsy (trim label) then categories st
  else if includes (categories st) (trim label) then categories st
       else categories st ++ [trim label].
Proof. unfold addCategoryLabel. rewrite addCategory_categories. reflexivity. Qed.

Lemma addCategoryLabel_products (label : jsstring) (st : State) :
  products (addCategoryLabel label st) = products st.
Proof.
  unfold addCategoryLabel, addCategory. simpl.
  destruct (str_falsy (trim label)); [reflexivity|].
  destruct (includes (categories st) (trim label)); reflexivity.
Qed.

(** The category set stays free of duplicates, from the default on. *)
Lemma default_categories_NoDup : NoDup default_categories.
Proof.
  constructor; [|constructor; [intros [] | constructor]].
  intros [H | []]. discriminate H.
Qed.

Lemma addCategoryLabel_NoDup (label : jsstring) (st : State) :
  NoDup (categories st) -> NoDup (categories (addCategoryLabel label st)).
Proof.
  intros Hnd. rewrite addCategoryLabel_categories.
  destruct (str_falsy (trim label)); [assumption|].
  destruct (includes (categories st) (trim label)) eqn:I; [assumption|].
  apply NoDup_app; [assumption | constructor; [intros [] | constructor] | ].
  intros x Hx [<- | []].
  apply includes_In in Hx. congruence.
Qed.

(** C5: [addCategory] works on the label with its surrounding whitespace
    trimmed off; an empty trimmed label, or one already in the category set,
    leaves the set as it is; any other is appended at the end. Adding the
    same label twice leaves exactly one entry equal to it. *)
Theorem addCategory_contract (label : jsstring) (st : State) :
  (exists l r, label = l ++ trim label ++ r /\ Forall white l /\ Forall white r)
  /\ (forall c u, trim label = c :: u -> is_white c = false)
  /\ (forall u c, trim label = u ++ [c] -> is_white c = false)
  /\ (trim label = [] \/ In (trim label) (categories st) ->
      categories (addCategoryLabel label st) = categories st)
  /\ (trim label <> [] -> ~ In (trim label) (categories st) ->
      categories (addCategoryLabel label st) = categories st ++ [trim label])
  /\ products (addCategoryLabel label st) = products st
  /\ (trim label <> [] -> NoDup (categories st) ->
      occurrences (trim label)
        (categories (addCategoryLabel label (addCategoryLabel label st))) = 1%nat).
Proof.
  split; [apply trim_split|].
  split; [apply trim_head|].
  split; [intros u c; apply trim_last|].
  split; [|split; [|split]].
  - intros H. rewrite addCategoryLabel_categories.
    destruct (str_falsy (trim label)) eqn:E; [reflexivity|].
    destruct H as [H | H].
    + apply str_falsy_nil in H. congruence.
    + apply includes_In in H. rewrite H. reflexivity.
  - intros Hne Hnew. rewrite addCategoryLabel_categories.
    destruct (str_falsy (trim label)) eqn:E.
    + apply str_falsy_nil in E. contradiction.
    + destruct (includes (categories st) (trim label)) eqn:I; [|reflexivity].
      apply includes_In in I. contradiction.
  - apply addCategoryLabel_products.
  - intros Hne Hnd.
    assert (E : str_falsy (trim label) = false).
    { destruct (str_falsy (trim label)) eqn:E; [|reflexivity].
      apply str_falsy_nil in E. contradiction. }
    rewrite (addCategoryLabel_categories label (addCategoryLabel label st)).
    rewrite (addCategoryLabel_categories label st). rewrite E.
    destruct (includes (categories st) (trim label)) eqn:I.
    + rewrite I. apply occurrences_NoDup; [assumption|].
      apply includes_In; assumption.
    + assert (Hnew : ~ In (trim label) (categories st)).
      { intros H. apply includes_In in H. congruence. }
      assert (Hin : In (trim label) (categories st ++ [trim label])).
      { apply in_or_app; right; left; reflexivity. }
      apply includes_In in Hin as Hinc. rewrite Hinc.
      apply occurrences_NoDup; [|assumption].
      apply NoDup_app; [assumption | constructor; [intros [] | constructor] | ].
      intros x Hx [<- | []]. contradiction.
Qed.

(** ** The product store *)

(** C6: a confirmed [reset] empties the product list and installs the
    two-element default category set; a declined one changes nothing. *)
Theorem resetAll_contract (st : State) :
  (products (resetAll true st) = []
   /\ categories (resetAll true st) = default_categories
   /\ length default_categories = 2%nat)
  /\ resetAll false st = st.
Proof. repeat split. Qed.

Lemma State_eta (st : State) (ps : list Product) :
  ps = products st -> setProducts (fun _ => ps) st = st.
Proof. intros ->. destruct st; reflexivity. Qed.

Lemma filter_all {A : Type} (f : A -> bool) (l : list A) :
  (forall x, In x l -> f x = true) -> filter f l = l.
Proof.
  induction l as [|x l IH]; simpl; intros H; [reflexivity|].
  rewrite (H x) by (left; reflexivity).
  f_equal. apply IH. intros y Hy; apply H; right; assumption.
Qed.

Lemma filter_within {A : Type} (f g : A -> bool) (l : list A) :
  (forall x, f x = true -> g x = true) ->
  filter f (filter g l) = filter f l.
Proof.
  intros H. induction l as [|x l IH]; simpl; [reflexivity|].
  destruct (g x) eqn:G; simpl.
  - rewrite IH; reflexivity.
  - destruct (f x) eqn:F; [|assumption].
    apply H in F. congruence.
Qed.

Lemma other_id (i : jsstring) (p : Product) :
  negb (str_eqb (id p) i) = true <-> id p <> i.
Proof. rewrite negb_true_iff. apply str_eqb_neq. Qed.

(** C7: [remove(id)] deletes the record whose identifier is [id]; a list
    without such a record is left as it is; records with other identifiers
    stay, with their values and in their order. *)
Theorem removeRow_contract (i : jsstring) (st : State) :
  (forall p, In p (products (removeRow i st)) -> id p <> i)
  /\ (forall l1 p l2,
         products st = l1 ++ p :: l2 -> id p = i ->
         (forall q, In q (l1 ++ l2) -> id q <> i) ->
         products (removeRow i st) = l1 ++ l2)
  /\ ((forall p, In p (products st) -> id p <> i) -> removeRow i st = st)
  /\ (forall p, In p (products st) -> id p <> i ->
                In p (products (removeRow i st)))
  /\ (forall f : Product -> bool,
         (forall p, f p = true -> id p <> i) ->
         filter f (products (removeRow i st)) = filter f (products st))
  /\ categories (removeRow i st) = categories st.
Proof.
  unfold removeRow; simpl.
  split; [|split; [|split; [|split; [|split]]]].
  - intros p Hp. apply filter_In in Hp as [_ Hp]. apply other_id; assumption.
  - intros l1 p l2 Hst Hid Hothers. rewrite Hst, filter_app; simpl.
    rewrite <- Hid, str_eqb_refl; simpl. rewrite <- filter_app.
    apply filter_all. intros q Hq. apply other_id. rewrite Hid.
    apply Hothers; assumption.
  - intros Habsent.
    transitivity (setProducts (fun _ => products st) st);
      [|apply State_eta; reflexivity].
    unfold setProducts; f_equal.
    apply filter_all. intros p Hp. apply other_id, Habsent; assumption.
  - intros p Hp Hne. apply filter_In; split; [assumption | apply other_id; assumption].
  - intros f Hf. apply filter_within.
    intros p Hp. apply other_id, Hf; assumption.
  - reflexivity.
Qed.

Lemma spread_merged (p : Product) (patch : PartialProduct) :
  merged p patch (spread p patch).
Proof.
  unfold merged, field_merged, spread; simpl.
  destruct (patch_id patch), (patch_name patch), (patch_qty patch),
    (patch_price patch), (patch_category patch); repeat split.
Qed.

Lemma map_all_id {A : Type} (f : A -> A) (l : list A) :
  (forall x, In x l -> f x = x) -> map f l = l.
Proof.
  induction l as [|x l IH]; simpl; intros H; [reflexivity|].
  rewrite (H x) by (left; reflexivity).
  f_equal. apply IH. intros y Hy; apply H; right; assumption.
Qed.

(** C8: [update(id, partialFields)] merges the given fields into the record
    whose identifier is [id] and leaves that record's other fields, the
    records with other identifiers, the length and the order of the list as
    they were; without such a record the list is unchanged. *)
Theorem updateRow_contract (i : jsstring) (patch : PartialProduct) (st : State) :
  length (products (updateRow i patch st)) = length (products st)
  /\ (forall n p,
         nth_error (products st) n = Some p ->
         exists p', nth_error (products (updateRow i patch st)) n = Some p'
                    /\ (id p = i -> merged p patch p')
                    /\ (id p <> i -> p' = p))
  /\ ((forall p, In p (products st) -> id p <> i) -> updateRow i patch st = st)
  /\ categories (updateRow i patch st) = categories st.
Proof.
  unfold updateRow; simpl.
  split; [|split; [|split]].
  - apply length_map.
  - intros n p Hn.
    rewrite nth_error_map, Hn; simpl.
    eexists; split; [reflexivity|].
    destruct (str_eqb (id p) i) eqn:E.
    + split; [intros _; apply spread_merged|].
      apply str_eqb_eq in E. contradiction.
    + apply str_eqb_neq in E. split; [contradiction | reflexivity].
  - intros Habsent.
    transitivity (setProducts (fun _ => products st) st);
      [|apply State_eta; reflexivity].
    unfold setProducts; f_equal.
    apply map_all_id. intros p Hp.
    destruct (str_eqb (id p) i) eqn:E; [|reflexivity].
    apply str_eqb_eq in E. exfalso; exact (Habsent p Hp E).
  - reflexivity.
Qed.

(** ** The persistence adapter *)

Section LoadLSFacts.
Context {T : Type} (JSON_parse : jsstring -> option T).
Hypothesis parse_empty : JSON_parse [] = None.

Lemma loadLS_parsed (ls : Storage) (key raw : jsstring) (fallback v : T) :
  ls key = Some raw -> JSON_parse raw = Some v ->
  loadLS JSON_parse ls key fallback = v.
Proof.
  intros Hraw Hv. unfold loadLS, loadLS_try. rewrite Hraw.
  destruct raw as [|c raw]; [congruence|]. simpl. rewrite Hv. reflexivity.
Qed.

Lemma loadLS_absent (ls : Storage) (key : jsstring) (fallback : T) :
  ls key = None -> loadLS JSON_parse ls key fallback = fallback.
Proof. intros H. unfold loadLS, loadLS_try. rewrite H. reflexivity. Qed.

Lemma loadLS_unparsable (ls : Storage) (key raw : jsstring) (fallback : T) :
  ls key = Some raw -> JSON_parse raw = None ->
  loadLS JSON_parse ls key fallback = fallback.
Proof.
  intros Hraw Hv. unfold loadLS, loadLS_try. rewrite Hraw.
  destruct (str_falsy raw); [reflexivity|]. rewrite Hv. reflexivity.
Qed.
End LoadLSFacts.

(** C9: [load(key, fallback)] returns the snapshot parsed from the value
    stored at [key]; it returns its fallback, whatever that is, exactly when
    the key is absent or the stored value does not parse; a parse failure
    yields the fallback and no error. *)
Theorem loadLS_contract {T : Type} (JSON_parse : jsstring -> option T)
        (ls : Storage) (key : jsstring) (a b : T) :
  JSON_parse [] = None -> a <> b ->
  (forall fallback raw v,
      ls key = Some raw -> JSON_parse raw = Some v ->
      loadLS JSON_parse ls key fallback = v)
  /\ ((forall fallback, loadLS JSON_parse ls key fallback = fallback)
      <-> (ls key = None \/ exists raw, ls key = Some raw /\ JSON_parse raw = None))
  /\ (forall fallback raw,
         ls key = Some raw -> raw <> [] -> JSON_parse raw = None ->
         loadLS_try JSON_parse ls key fallback = Thrown
         /\ loadLS JSON_parse ls key fallback = fallback).
Proof.
  intros Hempty Hab.
  split; [|split].
  - intros fallback raw v. apply loadLS_parsed; assumption.
  - split.
    + intros Hfb. destruct (ls key) as [raw|] eqn:Hraw; [|left; reflexivity].
      right. exists raw; split; [reflexivity|].
      destruct (JSON_parse raw) as [v|] eqn:Hv; [|reflexivity].
      exfalso. apply Hab.
      rewrite <- (Hfb a), <- (Hfb b).
      rewrite (loadLS_parsed JSON_parse Hempty ls key raw a v Hraw Hv).
      rewrite (loadLS_parsed JSON_parse Hempty ls key raw b v Hraw Hv).
      reflexivity.
    + intros [Habs | [raw [Hraw Hv]]] fallback.
      * apply loadLS_absent; assumption.
      * eapply loadLS_unparsable; eassumption.
  - intros fallback raw Hraw Hne Hv. split.
    + unfold loadLS_try. rewrite Hraw.
      destruct raw as [|c raw]; [contradiction|]. simpl.
      rewrite Hv. reflexivity.
    + eapply loadLS_unparsable; eassumption.
Qed.

(** ** Checks on concrete inputs *)

Lemma row_share_formula_witness :
  exists r, In r (rows [telefon; non])
            /\ cat r = lit "Xitoy"
            /\ sum r = 2000
            /\ share r = 2000 / 2200 * 100.
Proof.
  destruct (row_share_formula [telefon; non]) as [Hall Hex].
  destruct (Hex (lit "Xitoy")) as (r & Hr & Hc & Hs);
    [discriminate | reflexivity |].
  destruct (Hall r Hr) as (_ & Hp & _).
  exists r. split; [exact Hr|]. split; [exact Hc|].
  split; [rewrite Hs; reflexivity|].
  rewrite (Hp eq_refl), Hs. reflexivity.
Defined.

Lemma rows_descending_stable_witness :
  map cat (rows [pears; apples; telefon]) = [lit "Xitoy"; lit "B"; lit "A"]
  /\ forall i a b,
       nth_error (rows [pears; apples; telefon]) i = Some a ->
       nth_error (rows [pears; apples; telefon]) (S i) = Some b ->
       (sum b <=? sum a) = true.
Proof.
  split; [reflexivity|].
  destruct (rows_descending_stable [pears; apples; telefon]) as (_ & _ & H).
  destruct H as [Hadj _]; [|exact Hadj].
  repeat constructor.
Defined.

(** Two lines of one category overflow to the two infinities, whose sum is
    NaN: the category's row comes first, the row after it has subtotal 1,
    and NaN is not greater than or equal to 1. *)
Lemma rows_descending_counterexample :
  exists a b,
    nth_error (rows [huge_gain; huge_loss; single]) 0 = Some a
    /\ nth_error (rows [huge_gain; huge_loss; single]) 1 = Some b
    /\ is_nan (sum a) = true /\ sum b = 1
    /\ (sum b <=? sum a) = false.
Proof.
  eexists. eexists. split; [reflexivity|]. split; [reflexivity|].
  repeat split.
Qed.

Lemma shares_sum_to_100_witness :
  near (Qnat (length (rows tenths)) * (3 * 100 * unit_roundoff + 102 * half_tiny)
        + 200 * Qnat (length tenths) * (2 * unit_roundoff)
          / exact (totalSum tenths))
       (shares_sum tenths) 100.
Proof.
  apply (shares_sum_to_100 2 100 tenths).
  - reflexivity.
  - repeat constructor; discriminate.
  - unfold tenths. cbn [loop_bounded]. unfold add_bounded.
    repeat split; try reflexivity;
      try (apply Qle_bool_iff; vm_compute; reflexivity).
  - repeat constructor; try (apply Qle_bool_iff; vm_compute; reflexivity).
Defined.

(** One product without a category next to one with a category: the total
    revenue is 2, the only row has subtotal 1 and share 50. And two
    products with categories whose sum overflows: the total revenue is
    [infinity], which is positive, and both shares are 0. *)
Lemma shares_sum_counterexample :
  ((0 <? totalSum [loose; boxed]) = true
   /\ rows [loose; boxed] <> []
   /\ map share (rows [loose; boxed]) = [50]
   /\ (shares_sum [loose; boxed] == 50)%Q
   /\ ~ near 1 (shares_sum [loose; boxed]) 100)
  /\ ((0 <? totalSum [vast_a; vast_b]) = true
      /\ map cat (rows [vast_a; vast_b]) = [lit "A"; lit "B"]
      /\ map share (rows [vast_a; vast_b]) = [0; 0]
      /\ ~ near 1 (shares_sum [vast_a; vast_b]) 100).
Proof.
  split.
  - split; [reflexivity|]. split; [discriminate|]. split; [reflexivity|].
    split; [reflexivity|].
    intros [H _]. apply Qle_bool_iff in H. vm_compute in H. discriminate.
  - split; [reflexivity|]. split; [reflexivity|]. split; [reflexivity|].
    intros [H _]. apply Qle_bool_iff in H. vm_compute in H. discriminate.
Qed.

Lemma subtotals_sum_to_categorised_total_witness :
  near (Qnat (length three_lines) * (2 * unit_roundoff))
       (subtotals_sum three_lines) (categorised_lines_sum three_lines)
  /\ near (2 * Qnat (length three_lines) * (2 * unit_roundoff))
          (subtotals_sum three_lines) (exact (totalSum three_lines)).
Proof.
  destruct (subtotals_sum_to_categorised_total 2 three_lines) as [H1 H2].
  - unfold three_lines. cbn [loop_bounded]. unfold add_bounded.
    repeat split; try reflexivity;
      try (apply Qle_bool_iff; vm_compute; reflexivity).
  - split; [exact H1|]. apply H2. repeat constructor; discriminate.
Defined.

(** Three products with categories, priced a tenth, three tenths and seven
    tenths: the total revenue and the sum of the two subtotals differ, as
    binary64 values and as exact ones. And three whose total overflows
    while the subtotals do not: the total revenue is [infinity], the
    subtotals are 2^1023 and 0. *)
Lemma subtotals_sum_counterexample :
  (Forall (fun p => category p <> []) three_lines
   /\ map sum (rows three_lines) = [0.79999999999999993; 0.29999999999999999]
   /\ totalSum three_lines = 1.1000000000000001
   /\ subtotals_added three_lines = 1.0999999999999999
   /\ (subtotals_added three_lines =? totalSum three_lines) = false
   /\ ~ (subtotals_sum three_lines == exact (totalSum three_lines))%Q)
  /\ (Forall (fun p => category p <> []) [vast_a; vast_b; vast_back]
      /\ map sum (rows [vast_a; vast_b; vast_back]) = [0x1p1023; 0]
      /\ totalSum [vast_a; vast_b; vast_back] = infinity
      /\ subtotals_added [vast_a; vast_b; vast_back] = 0x1p1023).
Proof.
  split.
  - split; [repeat constructor; discriminate|].
    repeat (split; [reflexivity|]).
    intros H. apply Qeq_bool_iff in H. vm_compute in H. discriminate.
  - split; [repeat constructor; discriminate|].
    repeat split.
Qed.

Lemma loadLS_contract_witness :
  loadLS parse_flag flag_store (lit "app.flag") false = true
  /\ loadLS parse_flag flag_store (lit "app.other") false = false.
Proof.
  destruct (loadLS_contract parse_flag flag_store (lit "app.flag") true false)
    as [Hparsed _]; [reflexivity | discriminate |].
  destruct (loadLS_contract parse_flag flag_store (lit "app.other") true false)
    as [_ [[_ Hfallback] _]]; [reflexivity | discriminate |].
  split.
  - apply (Hparsed false (lit "true")); reflexivity.
  - apply Hfallback. left; reflexivity.
Defined.

Example first_load_summary :
  totalSum [telefon; non] = 2200
  /\ map cat (rows [telefon; non]) = [lit "Xitoy"; lit "O'zbekiston"]
  /\ map sum (rows [telefon; non]) = [2000; 200]
  /\ map share (rows [telefon; non]) = [90.909090909090907; 9.0909090909090917].
Proof. repeat split. Qed.

Example equal_subtotals_keep_first_appearance :
  map cat (rows [pears; apples]) = [lit "B"; lit "A"]
  /\ map cat (rows [apples; pears]) = [lit "A"; lit "B"]
  /\ map cat (rows [non; telefon]) = [lit "Xitoy"; lit "O'zbekiston"].
Proof. repeat split. Qed.

(** The total is added up from the first record to the last, each sum
    rounded: the other way round the sum is another number. And a removal
    does not take the line total off the total exactly. *)
Example total_adds_left_to_right :
  totalSum [tenth; two_tenths; three_tenths] = 0.60000000000000009
  /\ 0.1 + (0.2 + 0.3) = 0.59999999999999998
  /\ totalSum [two_tenths; three_tenths] = 0.5
  /\ totalSum [tenth; two_tenths; three_tenths] - lineTotal tenth
     = 0.50000000000000011.
Proof. repeat split. Qed.

(** A line total is rounded. *)
Example rounded_line_total :
  lineTotal dimes = 0.30000000000000004
  /\ totalSum [dimes] = 0.30000000000000004
  /\ map sum (rows [dimes]) = [0.30000000000000004].
Proof. repeat split. Qed.

Example not_a_number_counts_as_zero :
  lineTotal unpriced = 0 /\ totalSum [unpriced; apples] = 5.
Proof. split; reflexivity. Qed.

(** With a total revenue of zero the shares are 0 by the test on the total,
    not by the division, which gives an infinity. *)
Example zero_total_gives_zero_shares :
  totalSum [boxed; refund] = 0
  /\ map sum (rows [boxed; refund]) = [1; -1]
  /\ map share (rows [boxed; refund]) = [0; 0]
  /\ 1 / totalSum [boxed; refund] * 100 = infinity.
Proof. repeat split. Qed.

(** An overflow makes the total revenue, or a share, an infinity or NaN. *)
Example overflow_gives_no_shares :
  is_nan (totalSum [huge_gain; huge_loss; single]) = true
  /\ map share (rows [huge_gain; huge_loss; single]) = [0; 0]
  /\ totalSum [huge_gain; single] = infinity
  /\ map share (rows [huge_gain; single]) = [nan; 0].
Proof. repeat split. Qed.

Example blank_labels_are_ignored :
  categories (addCategoryLabel [] first_load) = default_categories
  /\ categories (addCategoryLabel (lit "  ") first_load) = default_categories
  /\ categories (addCategoryLabel (lit " Xitoy ") first_load) = default_categories.
Proof. repeat split. Qed.

Example labels_differing_in_case_are_distinct :
  categories (addCategoryLabel (lit "xitoy") first_load)
  = [lit "Xitoy"; lit "O'zbekiston"; lit "xitoy"].
Proof. reflexivity. Qed.

Example same_label_twice :
  categories (addCategoryLabel (lit "Turkiya ")
                (addCategoryLabel (lit " Turkiya") first_load))
  = [lit "Xitoy"; lit "O'zbekiston"; lit "Turkiya"].
Proof. reflexivity. Qed.

Example remove_and_update :
  products (removeRow (lit "p1") first_load) = [non]
  /\ products (removeRow (lit "p9") first_load) = [telefon; non]
  /\ map name
       (products (updateRow (lit "p2")
                    (mkPatch None (Some (lit "Lavash")) None None None)
                    first_load))
     = [lit "Telefon"; lit "Lavash"].
Proof. repeat split. Qed.

(** * Further properties *)

(** ** The row of every category *)

(** X1: every row's subtotal is the sum of quantity × price over the
    products of the row's category, added up in their order; and every
    non-empty category of the products has exactly this row: its subtotal
    that sum and its share computed from it. *)
Theorem row_subtotal_is_category_sum (ps : list Product) :
  Forall (fun r => sum r = category_total (cat r) ps) (rows ps)
  /\ (forall c, c <> [] -> has_category c ps = true ->
        In {| cat := c;
              sum := category_total c ps;
              share := if 0 <? totalSum ps
                       then category_total c ps / totalSum ps * 100
                       else 0 |}
           (rows ps)).
Proof.
  split.
  - apply Forall_forall. intros r Hr. apply rows_row_sum; assumption.
  - intros c Hne Hc.
    destruct (rows_category_present ps c Hne Hc) as [r [Hr E]].
    pose proof (rows_row_sum ps r Hr) as [Hs _].
    pose proof (rows_share ps r Hr) as Hsh.
    destruct r as [k s sh]; simpl in *. subst k s sh. exact Hr.
Qed.

(** X2: the rows' categories are the non-empty categories of the products,
    each once; so there is no row exactly when no product has a category. *)
Theorem rows_categories (ps : list Product) :
  NoDup (map cat (rows ps))
  /\ (forall c, In c (map cat (rows ps)) <->
                c <> [] /\ exists p, In p ps /\ category p = c)
  /\ (rows ps = [] <-> Forall (fun p => category p = []) ps).
Proof.
  assert (Hin : forall c, In c (map cat (rows ps)) <->
                          c <> [] /\ exists p, In p ps /\ category p = c).
  { intros c. rewrite <- has_category_In. split.
    - intros H. apply in_map_iff in H as [r [<- Hr]].
      apply rows_row_sum in Hr. tauto.
    - intros [Hne Hc].
      apply (Permutation_in _ (Permutation_sym (rows_cats_perm ps))).
      destruct (in_dec (list_eq_dec N.eq_dec) c (keys (fst (summary_loop ps))))
        as [H | H]; [assumption|].
      apply map_get_None in H. rewrite summary_loop_get, Hc in H.
      destruct c; [contradiction | discriminate]. }
  split; [|split; [exact Hin|]].
  - eapply Permutation_NoDup;
      [apply Permutation_sym, rows_cats_perm | apply summary_loop_keys_NoDup].
  - split.
    + intros Hnil. apply Forall_forall. intros p Hp.
      destruct (category p) as [|c k] eqn:E; [reflexivity|].
      assert (H : In (c :: k) (map cat (rows ps))).
      { apply Hin. split; [discriminate | exists p; tauto]. }
      rewrite Hnil in H. destruct H.
    + intros Hall. destruct (rows ps) as [|r l] eqn:E; [reflexivity|].
      assert (H : In (cat r) (map cat (r :: l))) by (left; reflexivity).
      apply Hin in H as [Hne [p [Hp Hc]]].
      rewrite Forall_forall in Hall. rewrite (Hall p Hp) in Hc. congruence.
Qed.


(** ** Products without negative numbers *)

Lemma not_negative_SF (x : number) :
  not_negative x <-> SF_not_negative (Prim2SF x).
Proof.
  unfold not_negative. rewrite ltb_spec, Prim2SF_zero.
  destruct (Prim2SF x) as [[|]|[|]| |[|] m e]; cbn; split;
    trivial; try discriminate; try contradiction.
Qed.

Lemma SF_is_not_negative (z : spec_float) (c E : Z) :
  SF_is z false c E -> SF_not_negative z.
Proof.
  destruct z as [s|s| |s m e]; cbn; try tauto.
  intros [-> _]. exact I.
Qed.

Lemma binary_round_aux_not_negative (mx ex : Z) (lx : location) (N D : Z) :
  (0 <= mx)%Z -> (0 < D)%Z -> shr_inv N D (shr_record_of_loc mx lx) ->
  SF_not_negative (binary_round_aux prec emax false mx ex lx).
Proof.
  intros Hm HD Hinv.
  destruct (binary_round_aux_spec false mx ex lx N D Hm HD Hinv)
    as [[-> _] | (c & Hz & _)]; [exact I|].
  exact (SF_is_not_negative _ _ _ Hz).
Qed.

Lemma SFmul_not_negative (x y : spec_float) :
  SF_not_negative x -> SF_not_negative y ->
  SF_not_negative (SFmul prec emax x y).
Proof.
  destruct x as [[|]|[|]| |[|] mx ex], y as [[|]|[|]| |[|] my ey];
    cbn [SF_not_negative SFmul xorb]; trivial; try contradiction.
  intros _ _.
  apply (binary_round_aux_not_negative (Zpos (mx * my)) _ _
           (Zpos (mx * my)) 1);
    [lia | lia | apply shr_inv_exact].
Qed.

Lemma SFadd_not_negative (x y : spec_float) :
  SF_not_negative x -> SF_not_negative y ->
  SF_not_negative (SFadd prec emax x y).
Proof.
  destruct x as [[|]|[|]| |[|] mx ex], y as [[|]|[|]| |[|] my ey];
    cbn [SF_not_negative SFadd]; trivial; try contradiction.
  intros _ _. cbn [cond_Zopp Z.add binary_normalize].
  unfold binary_round.
  destruct (shl_align _ _ _) as [mz ez].
  apply (binary_round_aux_not_negative (Zpos mz) _ _ (Zpos mz) 1);
    [lia | lia | apply shr_inv_exact].
Qed.

Lemma SFdiv_not_negative (x y : spec_float) :
  SF_not_negative x -> signed_nonzero false y ->
  SF_not_negative (SFdiv prec emax x y).
Proof.
  destruct x as [[|]|[|]| |[|] mx ex], y as [[|]|[|]| |[|] my ey];
    cbn [SF_not_negative signed_nonzero SFdiv xorb]; trivial;
    try contradiction; try discriminate.
  intros _ _. unfold SFdiv_core_binary. cbv zeta.
  match goal with
  | |- context [Z.div_eucl ?a _] => set (m' := a)
  end.
  assert (Hm' : (0 <= m')%Z).
  { unfold m'. destruct (_ - _ - _)%Z eqn:E; try lia.
    apply Z.shiftl_nonneg. lia. }
  clearbody m'.
  pose proof (Z_div_mod m' (Zpos my) ltac:(lia)) as Hdm.
  destruct (Z.div_eucl m' (Zpos my)) as [q r]. destruct Hdm as [Hmq Hr].
  assert (Hq : (0 <= q)%Z) by nia.
  apply (binary_round_aux_not_negative q _ _ m' (Zpos my));
    [exact Hq | lia | apply new_location_inv; lia].
Qed.

Lemma add_not_negative (a b : number) :
  not_negative a -> not_negative b -> not_negative (a + b).
Proof.
  rewrite !not_negative_SF, add_spec. apply SFadd_not_negative.
Qed.

Lemma mul_not_negative (a b : number) :
  not_negative a -> not_negative b -> not_negative (a * b).
Proof.
  rewrite !not_negative_SF, mul_spec. apply SFmul_not_negative.
Qed.

Lemma div_not_negative (a b : number) :
  not_negative a -> (0 <? b) = true -> not_negative (a / b).
Proof.
  rewrite !not_negative_SF, div_spec, ltb_spec, Prim2SF_zero.
  intros Ha Hb. apply SFdiv_not_negative; [exact Ha|].
  apply SFltb_zero. exact Hb.
Qed.

Lemma num_or_zero_not_negative (x : number) :
  not_negative x -> not_negative (num_or_zero x).
Proof.
  intros H. unfold num_or_zero. destruct (num_falsy x); [reflexivity | exact H].
Qed.

Lemma lineTotal_not_negative (p : Product) :
  not_negative (qty p) -> not_negative (price p) -> not_negative (lineTotal p).
Proof.
  intros Hq Hp. apply mul_not_negative; apply num_or_zero_not_negative;
    assumption.
Qed.

Lemma map_set_Forall (P : Category * number -> Prop)
      (k : Category) (v : number) (m : JsMap) :
  (forall k', P (k', v)) -> Forall P m -> Forall P (map_set k v m).
Proof.
  intros Hv. induction 1 as [|[k' v'] m He Hm IH]; cbn [map_set].
  - constructor; [apply Hv | constructor].
  - destruct (str_eqb k' k); constructor; try assumption. apply Hv.
Qed.

Lemma get_or_zero_not_negative (k : Category) (m : JsMap) :
  Forall (fun e => not_negative (snd e)) m -> not_negative (get_or_zero k m).
Proof.
  unfold get_or_zero. induction 1 as [|[k' v'] m He Hm IH]; cbn [map_get].
  - reflexivity.
  - destruct (str_eqb k' k); [exact He | exact IH].
Qed.

Lemma summary_loop_not_negative (ps : list Product) :
  no_negative_field ps ->
  forall acc : JsMap * number,
    not_negative (snd acc) ->
    Forall (fun e => not_negative (snd e)) (fst acc) ->
    not_negative (snd (fold_left summary_step ps acc))
    /\ Forall (fun e => not_negative (snd e))
              (fst (fold_left summary_step ps acc)).
Proof.
  induction 1 as [|p ps [Hq Hp] _ IH]; intros acc Ht Hm; cbn [fold_left].
  - split; assumption.
  - pose proof (lineTotal_not_negative p Hq Hp) as Hl.
    apply IH; unfold summary_step;
      destruct (str_falsy (category p)); cbn [fst snd];
      try (apply add_not_negative; assumption); try assumption.
    apply map_set_Forall; [|assumption].
    intros k'. cbn [snd]. apply add_not_negative; [|assumption].
    apply get_or_zero_not_negative; assumption.
Qed.

(** X3: if no product has a negative quantity or price, the total revenue,
    every row's subtotal and every row's share are not negative: each is a
    zero or positive, or, after an overflow, NaN. *)
Theorem shares_not_negative (ps : list Product) :
  no_negative_field ps ->
  not_negative (totalSum ps)
  /\ Forall (fun r => not_negative (sum r) /\ not_negative (share r))
            (rows ps).
Proof.
  intros H.
  destruct (summary_loop_not_negative ps H ([], 0) eq_refl (Forall_nil _))
    as [Ht Hm].
  fold (summary_loop ps) in Ht, Hm.
  split; [exact Ht|].
  eapply Permutation_Forall; [apply Permutation_sym, rows_perm|].
  apply Forall_map. eapply Forall_impl; [|exact Hm].
  intros [k v] Hv. cbn [snd] in Hv. cbn [mkOut sum share fst snd].
  split; [exact Hv|].
  change (totalSum ps) with (snd (summary_loop ps)).
  destruct (0 <? snd (summary_loop ps)) eqn:Hpos; [|reflexivity].
  apply mul_not_negative; [|reflexivity].
  apply div_not_negative; assumption.
Qed.

(** ** The summary reads quantity, price and category only *)

Lemma summary_step_same (acc : JsMap * number) (p q : Product) :
  qty p = qty q -> price p = price q -> category p = category q ->
  summary_step acc p = summary_step acc q.
Proof.
  intros Hq Hp Hc. unfold summary_step, lineTotal. rewrite Hq, Hp, Hc.
  reflexivity.
Qed.

Lemma summary_map_same (f : Product -> Product) (ps : list Product) :
  (forall p, qty (f p) = qty p /\ price (f p) = price p
             /\ category (f p) = category p) ->
  summary (map f ps) = summary ps.
Proof.
  intros Hf. unfold summary, summary_loop.
  assert (E : forall acc,
             fold_left summary_step (map f ps) acc
             = fold_left summary_step ps acc).
  { induction ps as [|p ps IH]; intros acc; simpl; [reflexivity|].
    destruct (Hf p) as (Hq & Hp & Hc).
    rewrite (summary_step_same acc (f p) p Hq Hp Hc). apply IH. }
  rewrite E. reflexivity.
Qed.

(** X4: an update that gives neither quantity, price nor category (a new
    name, say) leaves the total revenue and the rows as they were. *)
Theorem cosmetic_update_keeps_summary
        (i : jsstring) (patch : PartialProduct) (st : State) :
  cosmetic patch ->
  totalSum (products (updateRow i patch st)) = totalSum (products st)
  /\ rows (products (updateRow i patch st)) = rows (products st).
Proof.
  intros (Hq & Hp & Hc).
  assert (E : summary (products (updateRow i patch st)) = summary (products st)).
  { apply summary_map_same.
    intros p. destruct (str_eqb (id p) i); [|repeat split].
    unfold spread; simpl. rewrite Hq, Hp, Hc. repeat split. }
  unfold totalSum, rows. rewrite E. split; reflexivity.
Qed.

(** ** The product store, operation by operation *)

Lemma totalSum_spec (ps : list Product) : totalSum ps = spec_total ps.
Proof. apply summary_loop_total. Qed.

Lemma spec_total_snoc_zero (ps : list Product) (p : Product) :
  qty p = 0 -> price p = 0 -> spec_total (ps ++ [p]) = spec_total ps.
Proof.
  intros Hq Hp. unfold spec_total. rewrite fold_left_app. cbn [fold_left].
  rewrite Hq, Hp. fold (spec_total ps).
  apply add_any_zero; [apply spec_total_not_negzero|].
  exists false. reflexivity.
Qed.

(** X5: [addRow] appends one record with the given identifier, an empty name
    and the first category (none when there is no category) and keeps the
    records before it in place; the total revenue and every category's
    subtotal stay as they were. *)
Theorem addRow_contract (fresh : jsstring) (st : State) :
  (exists p, products (addRow fresh st) = products st ++ [p]
             /\ id p = fresh /\ name p = []
             /\ category p = match categories st with
                             | [] => []
                             | c :: _ => c
                             end)
  /\ (forall n p, nth_error (products st) n = Some p ->
                  nth_error (products (addRow fresh st)) n = Some p)
  /\ totalSum (products (addRow fresh st)) = totalSum (products st)
  /\ (forall c, category_total c (products (addRow fresh st))
                = category_total c (products st))
  /\ categories (addRow fresh st) = categories st.
Proof.
  unfold addRow; simpl.
  split; [|split; [|split; [|split]]].
  - eexists; split; [reflexivity|]. simpl.
    destruct (categories st); repeat split.
  - intros n p Hn. rewrite nth_error_app1; [assumption|].
    apply nth_error_Some. congruence.
  - rewrite !totalSum_spec. apply spec_total_snoc_zero; reflexivity.
  - intros c. unfold category_total. rewrite filter_app. cbn [filter].
    destruct (str_eqb _ c).
    + apply spec_total_snoc_zero; reflexivity.
    + rewrite app_nil_r. reflexivity.
  - reflexivity.
Qed.

Lemma NoDup_ids_filter (f : Product -> bool) (ps : list Product) :
  NoDup (ids ps) -> NoDup (ids (filter f ps)).
Proof.
  unfold ids. induction ps as [|p ps IH]; simpl; intros H; [constructor|].
  inversion H as [|? ? Hout Hnd]; subst.
  destruct (f p); simpl; [|apply IH; assumption].
  constructor; [|apply IH; assumption].
  intros Hin. apply Hout.
  apply in_map_iff in Hin as [q [Hq Hin]].
  apply filter_In in Hin as [Hin _].
  rewrite <- Hq. apply in_map; assumption.
Qed.

Lemma ids_update (i : jsstring) (patch : PartialProduct) (ps : list Product) :
  patch_id patch = None ->
  ids (map (fun p => if str_eqb (id p) i then spread p patch else p) ps) = ids ps.
Proof.
  intros Hid. unfold ids. rewrite map_map. apply map_ext.
  intros p. destruct (str_eqb (id p) i); [|reflexivity].
  unfold spread; simpl. rewrite Hid. reflexivity.
Qed.

(** X6: identifiers stay unique: if no two records share an identifier, the
    same holds after [addRow] with an identifier not in use, after
    [removeRow], after [updateRow] with a patch that gives no identifier
    (which leaves every identifier as it was), after [addCategory] and after
    [resetAll]. *)
Theorem ids_stay_unique (st : State) :
  NoDup (ids (products st)) ->
  (forall fresh, ~ In fresh (ids (products st)) ->
                 NoDup (ids (products (addRow fresh st))))
  /\ (forall i, NoDup (ids (products (removeRow i st))))
  /\ (forall i patch, patch_id patch = None ->
        ids (products (updateRow i patch st)) = ids (products st))
  /\ NoDup (ids (products (addCategory st)))
  /\ (forall answer, NoDup (ids (products (resetAll answer st)))).
Proof.
  intros Hnd.
  split; [|split; [|split; [|split]]].
  - intros fresh Hfresh. unfold addRow, ids; simpl. rewrite map_app; simpl.
    apply NoDup_app; [assumption | constructor; [intros [] | constructor] |].
    intros x Hx [<- | []]. contradiction.
  - intros i. apply NoDup_ids_filter; assumption.
  - intros i patch Hid. apply ids_update; assumption.
  - unfold addCategory.
    destruct (str_falsy (trim (newCat st))); [assumption|].
    destruct (includes (categories st) (trim (newCat st))); assumption.
  - intros [|]; simpl; [constructor | assumption].
Qed.

(** X7: removing a row just added, by its identifier, gives the state before
    the addition, when that identifier was not in use. *)
Theorem removeRow_addRow (fresh : jsstring) (st : State) :
  ~ In fresh (ids (products st)) ->
  removeRow fresh (addRow fresh st) = st.
Proof.
  intros Hfresh. destruct st as [ps cs nc op].
  unfold removeRow, addRow, setProducts; simpl in *. f_equal.
  rewrite filter_app; simpl. rewrite str_eqb_refl; simpl.
  rewrite app_nil_r. apply filter_all.
  intros p Hp. apply other_id. intros E. apply Hfresh.
  rewrite <- E. apply in_map; assumption.
Qed.


Section RemovedLine.
Local Open Scope Q_scope.

Lemma lines_sum_insert (l1 l2 : list Product) (p : Product) :
  lines_sum (l1 ++ p :: l2) == lines_sum (l1 ++ l2) + exact (lineTotal p).
Proof.
  unfold lines_sum, Qsum. induction l1 as [|q l1 IH]; simpl.
  - ring.
  - rewrite IH. ring.
Qed.

(** X8: removing the one record with a given identifier lowers the total
    revenue by that record's line total, up to rounding: when no addition
    overflows and every running sum stays within [M], before and after, the
    new total is within [2 n - 1] unit roundoffs of [M] of the old total
    less the line total, [n] the number of records before. *)
Theorem removeRow_lowers_total
        (M : Q) (st : State) (l1 l2 : list Product) (p : Product) :
  products st = l1 ++ p :: l2 ->
  (forall q, In q (l1 ++ l2) -> id q <> id p) ->
  loop_bounded M (products st) ([], 0%float) ->
  loop_bounded M (l1 ++ l2) ([], 0%float) ->
  products (removeRow (id p) st) = l1 ++ l2
  /\ near ((2 * Qnat (length (products st)) - 1) * (M * unit_roundoff))
          (exact (totalSum (products (removeRow (id p) st))))
          (exact (totalSum (products st)) - exact (lineTotal p)).
Proof.
  intros Hst Hothers HB HB'.
  assert (Hrm : products (removeRow (id p) st) = l1 ++ l2).
  { unfold removeRow; simpl. rewrite Hst.
    rewrite filter_app; simpl. rewrite str_eqb_refl; simpl.
    rewrite <- filter_app. apply filter_all.
    intros q Hq. apply other_id, Hothers; assumption. }
  split; [exact Hrm|]. rewrite Hrm. rewrite Hst in HB |- *.
  destruct (summary_loop_accurate _ _ (loop_bounded_accurate M _ _ HB))
    as [I _].
  destruct (summary_loop_accurate _ _ (loop_bounded_accurate M _ _ HB'))
    as [I' _].
  pose proof (lines_sum_insert l1 l2 p) as E.
  assert (L : Qnat (length (l1 ++ p :: l2)) == Qnat (length (l1 ++ l2)) + 1).
  { rewrite !length_app. cbn [length]. rewrite Nat.add_succ_r.
    rewrite <- length_app. apply Qnat_S. }
  unfold near in *.
  set (eps := M * unit_roundoff) in *.
  set (n := Qnat (length (l1 ++ p :: l2))) in *.
  set (n' := Qnat (length (l1 ++ l2))) in *.
  assert (E1 : n * eps == n' * eps + eps) by (rewrite L; ring).
  assert (E2 : (2 * n - 1) * eps == n' * eps + n' * eps + eps)
    by (rewrite L; ring).
  set (a := n' * eps) in *. set (b := n * eps) in *.
  set (c := (2 * n - 1) * eps) in *.
  lra.
Qed.

End RemovedLine.

Lemma spread_twice (p : Product) (patch : PartialProduct) :
  spread (spread p patch) patch = spread p patch.
Proof.
  unfold spread; simpl.
  destruct (patch_id patch), (patch_name patch), (patch_qty patch),
    (patch_price patch), (patch_category patch); reflexivity.
Qed.

Lemma spread_id (p : Product) (patch : PartialProduct) :
  patch_id patch = None -> id (spread p patch) = id p.
Proof. intros H. unfold spread; simpl. rewrite H. reflexivity. Qed.

(** X9: for patches that give no identifier, applying the same update twice
    is applying it once, and updates of two different identifiers can be
    applied in either order. *)
Theorem updateRow_idempotent_commutes
        (i j : jsstring) (patch patch' : PartialProduct) (st : State) :
  patch_id patch = None -> patch_id patch' = None ->
  updateRow i patch (updateRow i patch st) = updateRow i patch st
  /\ (i <> j ->
      updateRow i patch (updateRow j patch' st)
      = updateRow j patch' (updateRow i patch st)).
Proof.
  intros Hid Hid'. unfold updateRow, setProducts; simpl.
  split; [|intros Hij]; f_equal; rewrite !map_map; apply map_ext; intros p.
  - destruct (str_eqb (id p) i) eqn:E.
    + rewrite spread_id, E by assumption. apply spread_twice.
    + rewrite E. reflexivity.
  - destruct (str_eqb (id p) i) eqn:Ei, (str_eqb (id p) j) eqn:Ej;
      rewrite ?spread_id, ?Ei, ?Ej by assumption; try reflexivity.
    apply str_eqb_eq in Ei, Ej. congruence.
Qed.


(** ** Saving and loading *)

Section SaveLoad.
Context {T : Type}.
Variable JSON_parse : jsstring -> option T.
Variable JSON_stringify : T -> jsstring.
Variable accepts : Storage -> jsstring -> jsstring -> bool.

Lemma saveLS_accepted (key : jsstring) (value : T) (w : World) :
  accepts (storage w) key (JSON_stringify value) = true ->
  storage (saveLS JSON_stringify accepts key value w)
  = (fun k => if str_eqb k key then Some (JSON_stringify value) else storage w k)
  /\ console (saveLS JSON_stringify accepts key value w) = console w.
Proof.
  intros H. unfold saveLS, setItem. rewrite H. split; reflexivity.
Qed.

Lemma saveLS_other_key (key key' : jsstring) (value : T) (w : World) :
  key' <> key ->
  storage (saveLS JSON_stringify accepts key value w) key' = storage w key'.
Proof.
  intros Hne. unfold saveLS, setItem.
  destruct (accepts (storage w) key (JSON_stringify value)); simpl; [|reflexivity].
  apply str_eqb_neq in Hne. rewrite Hne. reflexivity.
Qed.

Lemma load_saved (key : jsstring) (value fallback : T) (w : World) :
  JSON_parse [] = None ->
  JSON_parse (JSON_stringify value) = Some value ->
  accepts (storage w) key (JSON_stringify value) = true ->
  loadLS JSON_parse (storage (saveLS JSON_stringify accepts key value w))
         key fallback = value.
Proof.
  intros Hempty Hround Hacc.
  apply (loadLS_parsed JSON_parse Hempty _ key (JSON_stringify value));
    [|assumption].
  destruct (saveLS_accepted key value w Hacc) as [-> _].
  rewrite str_eqb_refl. reflexivity.
Qed.

End SaveLoad.

Lemma load_other_key {T U : Type}
      (JSON_parse : jsstring -> option U) (JSON_stringify : T -> jsstring)
      (accepts : Storage -> jsstring -> jsstring -> bool)
      (key key' : jsstring) (value : T) (fallback : U) (w : World) :
  key' <> key ->
  loadLS JSON_parse (storage (saveLS JSON_stringify accepts key value w))
         key' fallback
  = loadLS JSON_parse (storage w) key' fallback.
Proof.
  intros Hne. unfold loadLS, loadLS_try.
  rewrite saveLS_other_key by assumption. reflexivity.
Qed.

(** X10: a value saved under a key, when the store takes the write and the
    value survives [JSON.stringify] and [JSON.parse], is what a load of that
    key returns, whatever the fallback; the other keys of the store and the
    console are as before. *)
Theorem saveLS_then_loadLS {T : Type}
        (JSON_parse : jsstring -> option T) (JSON_stringify : T -> jsstring)
        (accepts : Storage -> jsstring -> jsstring -> bool)
        (key : jsstring) (value : T) (w : World) :
  JSON_parse [] = None ->
  JSON_parse (JSON_stringify value) = Some value ->
  accepts (storage w) key (JSON_stringify value) = true ->
  (forall fallback,
      loadLS JSON_parse (storage (saveLS JSON_stringify accepts key value w))
             key fallback = value)
  /\ (forall key', key' <> key ->
        storage (saveLS JSON_stringify accepts key value w) key'
        = storage w key')
  /\ console (saveLS JSON_stringify accepts key value w) = console w.
Proof.
  intros Hempty Hround Hacc.
  split; [|split].
  - intros fallback. apply load_saved; assumption.
  - intros key' Hne. apply saveLS_other_key; assumption.
  - apply saveLS_accepted; assumption.
Qed.

(** X11: a write the store refuses is swallowed and the snapshot saved
    before stays: after an accepted save of [old] and a refused save of
    [new] under the same key, a load returns [old]; the refused save leaves
    the store as it was and logs the one line "CATCHED". *)
Theorem saveLS_refused_keeps_snapshot {T : Type}
        (JSON_parse : jsstring -> option T) (JSON_stringify : T -> jsstring)
        (accepts : Storage -> jsstring -> jsstring -> bool)
        (key : jsstring) (old new : T) (w : World) :
  JSON_parse [] = None ->
  JSON_parse (JSON_stringify old) = Some old ->
  accepts (storage w) key (JSON_stringify old) = true ->
  accepts (storage (saveLS JSON_stringify accepts key old w)) key
          (JSON_stringify new) = false ->
  (forall fallback,
      loadLS JSON_parse
             (storage (saveLS JSON_stringify accepts key new
                              (saveLS JSON_stringify accepts key old w)))
             key fallback = old)
  /\ storage (saveLS JSON_stringify accepts key new
                     (saveLS JSON_stringify accepts key old w))
     = storage (saveLS JSON_stringify accepts key old w)
  /\ console (saveLS JSON_stringify accepts key new
                     (saveLS JSON_stringify accepts key old w))
     = console w ++ [lit "CATCHED"].
Proof.
  intros Hempty Hround Hacc Hrefused.
  assert (Hs : storage (saveLS JSON_stringify accepts key new
                               (saveLS JSON_stringify accepts key old w))
               = storage (saveLS JSON_stringify accepts key old w)).
  { unfold saveLS at 1. unfold setItem at 1. rewrite Hrefused. reflexivity. }
  split; [|split].
  - intros fallback. rewrite Hs. apply load_saved; assumption.
  - exact Hs.
  - unfold saveLS at 1. unfold setItem at 1. rewrite Hrefused.
    cbn [console]. f_equal. apply saveLS_accepted; assumption.
Qed.

Lemma storage_keys_differ : LS_CATEGORIES <> LS_PRODUCTS.
Proof. apply str_eqb_neq. reflexivity. Qed.

(** X12: a reload restores the state: after both effects wrote the state to
    a store that took the writes, the initial state read from that store has
    the same products and the same categories, provided both arrays survive
    [JSON.stringify] and [JSON.parse]. *)
Theorem reload_restores_state
        (parse_categories : jsstring -> option (list Category))
        (parse_products : jsstring -> option (list Product))
        (stringify_categories : list Category -> jsstring)
        (stringify_products : list Product -> jsstring)
        (accepts : Storage -> jsstring -> jsstring -> bool)
        (uuid1 uuid2 : jsstring) (st : State) (w : World) :
  parse_categories [] = None -> parse_products [] = None ->
  parse_categories (stringify_categories (categories st)) = Some (categories st) ->
  parse_products (stringify_products (products st)) = Some (products st) ->
  accepts (storage w) LS_PRODUCTS (stringify_products (products st)) = true ->
  accepts (storage (products_effect stringify_products accepts st w))
          LS_CATEGORIES (stringify_categories (categories st)) = true ->
  products
    (initial_state parse_categories parse_products uuid1 uuid2
       (storage (run_effects stringify_categories stringify_products
                             accepts st w)))
  = products st
  /\ categories
       (initial_state parse_categories parse_products uuid1 uuid2
          (storage (run_effects stringify_categories stringify_products
                                accepts st w)))
     = categories st.
Proof.
  intros Hec Hep Hrc Hrp Hap Hac.
  unfold initial_state, run_effects, categories_effect.
  cbn [products categories]. split.
  - rewrite load_other_key
      by (intros E; symmetry in E; exact (storage_keys_differ E)).
    unfold products_effect. apply load_saved; assumption.
  - apply load_saved; assumption.
Qed.


(** ** Showing a share *)

Section RoundToInteger.
Local Open Scope Q_scope.

Lemma SF_is_finite (z : spec_float) (s : bool) (c E : Z) :
  SF_is z s c E -> SF_finite z = true.
Proof. destruct z; simpl; tauto. Qed.

(** An integer of at most 53 bits is a binary64 number. *)
Lemma binary_round_small (p : positive) :
  (Zpos (digits2_pos p) <= 53)%Z ->
  SF_finite (binary_round prec emax false p 0) = true
  /\ SF2Q (binary_round prec emax false p 0) == inject_Z (Zpos p).
Proof.
  intros Hd. unfold binary_round.
  set (F := fexp64 (Zpos (digits2_pos p) + 0)).
  assert (HF : F = Z.max (Zpos (digits2_pos p) + 0 - 53) (-1074))
    by (unfold F; apply fexp64_value).
  destruct (shl_align p 0 F) as [mz ez] eqn:Hsh.
  assert (Hal : (Zpos mz = Zpos p * 2 ^ (- ez))%Z /\ ez = F
                /\ (Zpos (digits2_pos mz) + ez = Zpos (digits2_pos p) + 0)%Z).
  { unfold shl_align in Hsh.
    destruct (F - 0)%Z as [|d|d] eqn:Ed; injection Hsh as <- <-.
    - replace F with 0%Z by lia. change (2 ^ (- 0))%Z with 1%Z. lia.
    - lia.
    - rewrite iter_xO_value, digits2_iter_xO.
      replace (- F)%Z with (Zpos d) by lia. lia. }
  destruct Hal as (Hmz & Hez & Hdig).
  destruct (binary_round_aux_spec false (Zpos mz) ez loc_Exact (Zpos mz) 1
              ltac:(lia) ltac:(lia) (shr_inv_exact _))
    as [[_ Hover] | (c & Hz & _ & _ & Hexact)].
  - exfalso. cbn [Zdigits2] in Hover. rewrite Hdig in Hover. fold F in Hover.
    change (emax - prec)%Z with 971%Z in Hover. lia.
  - cbn [Zdigits2] in Hz, Hexact. rewrite Hdig in Hz, Hexact.
    fold F in Hz, Hexact.
    replace (Z.max ez F) with ez in Hz, Hexact by lia.
    destruct (Hexact eq_refl eq_refl) as [-> _].
    split; [exact (SF_is_finite _ _ _ _ Hz)|].
    rewrite (SF_is_exact _ _ _ _ Hz). cbn [cond_Zopp].
    rewrite Hmz, inject_Z_mult, inject_pow2 by lia.
    rewrite <- Qmult_assoc, <- Qpow2_add.
    replace (- ez + ez)%Z with 0%Z by lia. change (2 ^ 0) with 1. ring.
Qed.

Lemma of_uint63_exact (c : Z) :
  (0 <= c < 2 ^ 53)%Z ->
  finite (of_uint63 (Uint63.of_Z c)) = true
  /\ exact (of_uint63 (Uint63.of_Z c)) == inject_Z c.
Proof.
  intros Hc. rewrite finite_SF. unfold exact. rewrite of_uint63_spec.
  rewrite Uint63.of_Z_spec.
  rewrite Z.mod_small by (change Uint63.wB with (2 ^ 63)%Z; lia).
  destruct c as [|p|p]; [split; reflexivity | | lia].
  cbn [binary_normalize]. apply binary_round_small.
  change (Zpos (digits2_pos p)) with (Zdigits2 (Zpos p)).
  apply Zdigits2_le; lia.
Qed.

Lemma finite_opp (x : number) : finite (- x)%float = finite x.
Proof.
  rewrite !finite_SF, opp_spec. destruct (Prim2SF x); reflexivity.
Qed.

Lemma exact_opp (x : number) : exact (- x)%float == - exact x.
Proof.
  unfold exact. rewrite opp_spec.
  destruct (Prim2SF x) as [s|s| |s m e]; cbn [SFopp SF2Q]; try reflexivity.
  set (pe := 2 ^ e). destruct s; cbn [negb cond_Zopp];
    change (Z.neg m) with (- Zpos m)%Z; rewrite ?inject_Z_opp; ring.
Qed.

(** [Math.round] of a finite number is an integer, more than its argument
    less a half and at most its argument plus a half. *)
Lemma Math_round_spec (y : number) :
  finite y = true ->
  finite (Math_round y) = true
  /\ exists z : Z,
       exact (Math_round y) == inject_Z z
       /\ exact y - (1 # 2) < inject_Z z /\ inject_Z z <= exact y + (1 # 2).
Proof.
  intros Hy. unfold Math_round.
  pose proof (Prim2SF_valid y) as Hv.
  rewrite finite_SF in Hy. unfold exact at 2 3.
  destruct (Prim2SF y) as [s|s| |s m e] eqn:Ey; try discriminate.
  - split; [rewrite finite_SF, Ey; reflexivity|].
    exists 0%Z. unfold exact. rewrite Ey. cbn [SF2Q].
    change (inject_Z 0) with 0. split; [reflexivity | split; [reflexivity | discriminate]].
  - destruct e as [|e|k].
    + split; [rewrite finite_SF, Ey; reflexivity|].
      exists (cond_Zopp s (Zpos m)). unfold exact. rewrite Ey. cbn [SF2Q].
      change (2 ^ 0) with 1.
      set (v := inject_Z (cond_Zopp s (Zpos m))).
      split; [ring | split; lra].
    + split; [rewrite finite_SF, Ey; reflexivity|].
      exists (cond_Zopp s (Zpos m) * 2 ^ Zpos e)%Z. unfold exact. rewrite Ey.
      cbn [SF2Q]. rewrite inject_Z_mult, inject_pow2 by lia.
      set (v := inject_Z (cond_Zopp s (Zpos m)) * 2 ^ Zpos e).
      split; [reflexivity | split; lra].
    + destruct (valid_finite_digits _ _ _ Hv) as [Hd _].
      destruct (digits2_pos_bounds m) as [_ Hm].
      assert (Hm53 : (Zpos m < 2 ^ 53)%Z).
      { eapply Z.lt_le_trans; [exact Hm|]. apply Z.pow_le_mono_r; lia. }
      assert (P : (0 < 2 ^ Zpos k)%Z) by (apply Z.pow_pos_nonneg; lia).
      assert (P2 : (2 <= 2 ^ Zpos k)%Z).
      { change 2%Z with (2 ^ 1)%Z at 1. apply Z.pow_le_mono_r; lia. }
      pose proof (Z.div_mod (Zpos m) (2 ^ Zpos k) ltac:(lia)) as Hdm.
      pose proof (Z.mod_pos_bound (Zpos m) (2 ^ Zpos k) P) as Hr.
      set (q := (Zpos m / 2 ^ Zpos k)%Z) in *.
      set (r := (Zpos m mod 2 ^ Zpos k)%Z) in *.
      assert (Hq : (0 <= q)%Z) by (apply Z.div_pos; lia).
      assert (Hq52 : (q + 1 < 2 ^ 53)%Z).
      { change (2 ^ 53)%Z with 9007199254740992%Z in *. nia. }
      set (up := if s then (2 ^ Zpos k <? 2 * r)%Z
                 else (2 ^ Zpos k <=? 2 * r)%Z).
      set (c := if up then (q + 1)%Z else q).
      assert (Hc : (0 <= c < 2 ^ 53)%Z) by (unfold c; destruct up; lia).
      destruct (of_uint63_exact c Hc) as [Fc Ec].
      split; [destruct s; [rewrite finite_opp|]; exact Fc|].
      exists (cond_Zopp s c).
      assert (Eval : exact (if s then (- of_uint63 (Uint63.of_Z c))%float
                            else of_uint63 (Uint63.of_Z c))
                     == inject_Z (cond_Zopp s c)).
      { destruct s; cbn [cond_Zopp]; [rewrite exact_opp, inject_Z_opp|];
          rewrite Ec; reflexivity. }
      split; [exact Eval|].
      cbn [SF2Q].
      assert (Epow : 2 ^ Zneg k == / inject_Z (2 ^ Zpos k)).
      { change (Zneg k) with (- Zpos k)%Z.
        rewrite Qpower_opp, inject_pow2 by lia. reflexivity. }
      rewrite Epow.
      assert (HP : 0 < inject_Z (2 ^ Zpos k))
        by (change 0 with (inject_Z 0); rewrite <- Zlt_Qlt; exact P).
      set (W := (2 ^ Zpos k)%Z) in *.
      assert (Hm' : inject_Z (Zpos m) == inject_Z q * inject_Z W + inject_Z r).
      { rewrite Hdm, inject_Z_plus, inject_Z_mult. ring. }
      assert (Hr1 : 0 <= inject_Z r /\ inject_Z r < inject_Z W).
      { change 0 with (inject_Z 0). rewrite <- Zle_Qle, <- Zlt_Qlt. exact Hr. }
      (* the fraction r / W *)
      set (f := inject_Z r / inject_Z W).
      assert (Hf : inject_Z (Zpos m) * / inject_Z W == inject_Z q + f).
      { rewrite Hm'. unfold f. field. lra. }
      assert (Hf01 : 0 <= f /\ f < 1).
      { unfold f. split.
        - apply Qle_shift_div_l; [assumption|]. lra.
        - apply Qlt_shift_div_r; [assumption|]. lra. }
      assert (Hhalf : forall b, (b = (W <=? 2 * r)%Z -> (b = true <-> 1 # 2 <= f))
                                /\ (b = (W <? 2 * r)%Z -> (b = true <-> 1 # 2 < f))).
      { intros b. unfold f. split; intros ->.
        - rewrite Z.leb_le, Zle_Qle, inject_Z_mult. change (inject_Z 2) with 2.
          split; intros H.
          + apply Qle_shift_div_l; [assumption|]. lra.
          + apply (Qmult_le_r _ _ (inject_Z W)) in H; [|assumption].
            assert (E : inject_Z r / inject_Z W * inject_Z W == inject_Z r)
              by (field; lra).
            rewrite E in H. lra.
        - rewrite Z.ltb_lt, Zlt_Qlt, inject_Z_mult. change (inject_Z 2) with 2.
          split; intros H.
          + apply Qlt_shift_div_l; [assumption|]. lra.
          + apply (Qmult_lt_r _ _ (inject_Z W)) in H; [|assumption].
            assert (E : inject_Z r / inject_Z W * inject_Z W == inject_Z r)
              by (field; lra).
            rewrite E in H. lra. }
      clearbody f.
      destruct s; cbn [cond_Zopp]; unfold c, up.
      * change (Z.neg m) with (- Zpos m)%Z.
        rewrite !inject_Z_opp.
        assert (E : - inject_Z (Zpos m) * / inject_Z W == - (inject_Z q + f))
          by (rewrite <- Hf; ring).
        rewrite E.
        destruct (proj2 (Hhalf (W <? 2 * r)%Z) eq_refl) as [H1 H2].
        destruct (W <? 2 * r)%Z.
        -- pose proof (H1 eq_refl). rewrite inject_Z_plus.
           change (inject_Z 1) with 1. split; lra.
        -- assert (~ 1 # 2 < f) by (intros C; apply H2 in C; discriminate).
           split; lra.
      * rewrite Hf.
        destruct (proj1 (Hhalf (W <=? 2 * r)%Z) eq_refl) as [H1 H2].
        destruct (W <=? 2 * r)%Z.
        -- pose proof (H1 eq_refl). rewrite inject_Z_plus.
           change (inject_Z 1) with 1. split; lra.
        -- assert (~ 1 # 2 <= f) by (intros C; apply H2 in C; discriminate).
           split; lra.
Qed.

End RoundToInteger.

Section Hundredths.
Local Open Scope Q_scope.

Lemma Prim2SF_hundred :
  Prim2SF 100%float = S754_finite false 7036874417766400 (-46).
Proof. reflexivity. Qed.

Lemma quotient_digits_upper (m1 m2 s : Z) :
  (0 < m1)%Z -> (0 < m2)%Z -> (0 <= s)%Z ->
  (Zdigits2 (m1 * 2 ^ s / m2) <= Z.max 0 (Zdigits2 m1 + s - Zdigits2 m2 + 1))%Z.
Proof.
  intros H1 H2 Hs.
  destruct (Zdigits2_bounds m1 H1) as [_ U1].
  destruct (Zdigits2_bounds m2 H2) as [L2 _].
  pose proof (Zdigits2_nonneg m1). pose proof (Zdigits2_nonneg m2).
  assert (D2 : (1 <= Zdigits2 m2)%Z).
  { apply (Zdigits2_ge m2 0); [change (2 ^ 0)%Z with 1%Z|]; lia. }
  assert (P2 : (0 < 2 ^ s)%Z) by (apply Z.pow_pos_nonneg; lia).
  assert (P3 : (0 < 2 ^ (Zdigits2 m2 - 1))%Z) by (apply Z.pow_pos_nonneg; lia).
  set (k := Z.max 0 (Zdigits2 m1 + s - Zdigits2 m2 + 1)).
  apply Zdigits2_le; [|unfold k; lia].
  split; [apply Z.div_pos; nia|].
  apply Z.div_lt_upper_bound; [assumption|].
  assert (E : (2 ^ (Zdigits2 m2 - 1) * 2 ^ k = 2 ^ (Zdigits2 m2 - 1 + k))%Z)
    by (rewrite <- Z.pow_add_r by (unfold k; lia); reflexivity).
  assert (E2 : (2 ^ Zdigits2 m1 * 2 ^ s = 2 ^ (Zdigits2 m1 + s))%Z)
    by (rewrite <- Z.pow_add_r by lia; reflexivity).
  assert (LE : (2 ^ (Zdigits2 m1 + s) <= 2 ^ (Zdigits2 m2 - 1 + k))%Z)
    by (apply Z.pow_le_mono_r; unfold k; lia).
  assert (P4 : (0 < 2 ^ k)%Z) by (apply Z.pow_pos_nonneg; unfold k; lia).
  nia.
Qed.

(** A division by 100 does not overflow. *)
Lemma div_hundred_finite (x : number) :
  finite x = true -> finite (x / 100)%float = true.
Proof.
  rewrite !finite_SF, div_spec, Prim2SF_hundred.
  pose proof (Prim2SF_valid x) as Hv.
  destruct (Prim2SF x) as [s|s| |s mx ex]; try discriminate; intros _;
    [reflexivity|].
  unfold SF64div. cbn [SFdiv]. unfold SFdiv_core_binary.
  set (my := 7036874417766400%positive).
  change (Zdigits2 (Zpos my)) with 53%Z.
  set (d1 := Zdigits2 (Zpos mx)).
  assert (Hd1 : (d1 <= 53)%Z) by (apply (valid_finite_digits _ _ _ Hv)).
  assert (Hex : (ex <= 971)%Z).
  { cbn [valid_binary] in Hv. unfold bounded in Hv.
    apply andb_true_iff in Hv as [_ Hv]. apply Z.leb_le in Hv.
    change (emax - prec)%Z with 971%Z in Hv. exact Hv. }
  set (F := fexp64 (d1 + ex - (53 + -46))).
  assert (HF : F = Z.max (d1 + ex - (53 + -46) - 53) (-1074))
    by (unfold F; apply fexp64_value).
  set (e' := Z.min F (ex - -46)).
  set (sh := (ex - -46 - e')%Z).
  assert (Hs : (0 <= sh)%Z) by (unfold sh, e'; lia).
  set (m' := match sh with
             | 0%Z => Zpos mx
             | Zpos _ => Z.shiftl (Zpos mx) sh
             | Zneg _ => 0%Z
             end).
  assert (Hm' : m' = (Zpos mx * 2 ^ sh)%Z).
  { unfold m'. destruct sh as [|p|p] eqn:Es.
    - change (2 ^ 0)%Z with 1%Z. lia.
    - apply Z.shiftl_mul_pow2. lia.
    - lia. }
  clearbody m'.
  pose proof (Z_div_mod m' (Zpos my) ltac:(lia)) as Hdm.
  assert (Hq : fst (Z.div_eucl m' (Zpos my)) = (m' / Zpos my)%Z) by reflexivity.
  destruct (Z.div_eucl m' (Zpos my)) as [q r]. cbn [fst] in Hq.
  destruct Hdm as [Hmq Hr].
  assert (P2 : (0 < 2 ^ sh)%Z) by (apply Z.pow_pos_nonneg; lia).
  assert (Hq0 : (0 <= q)%Z) by (rewrite Hq; apply Z.div_pos; nia).
  destruct (binary_round_aux_spec (xorb s false) q e'
              (new_location (Zpos my) r) m' (Zpos my) Hq0 ltac:(lia)
              (new_location_inv m' (Zpos my) q r ltac:(lia) Hr ltac:(lia)))
    as [[_ Hover] | (c & Hz & _)].
  - exfalso.
    pose proof (quotient_digits_upper (Zpos mx) (Zpos my) sh ltac:(lia)
                  ltac:(lia) Hs) as Hdq.
    rewrite <- Hm', <- Hq in Hdq.
    change (Zdigits2 (Zpos my)) with 53%Z in Hdq. fold d1 in Hdq.
    rewrite fexp64_value in Hover.
    change (emax - prec)%Z with 971%Z in Hover.
    unfold sh, e' in *. lia.
  - exact (SF_is_finite _ _ _ _ Hz).
Qed.

End Hundredths.

Section FmtPctFacts.
Variable Number_toString : number -> jsstring.
Local Open Scope Q_scope.

(** X13: [fmtPct] gives "0%" for NaN and the infinities; for a finite
    number whose hundredfold does not overflow it gives the text of a
    finite number [val] and "%", where [val] is [Math.round(n * 100) / 100]:
    the rounded value is an integer, more than [n * 100] (as computed) less
    a half and at most that plus a half, and [val] is within half a
    hundredth of [n], up to the rounding of the multiplication and of the
    division. *)
Theorem fmtPct_contract (n : number) :
  (finite n = false -> fmtPct Number_toString n = lit "0%")
  /\ (finite (n * 100)%float = true ->
      exists (val : number) (z : Z),
        fmtPct Number_toString n = Number_toString val ++ lit "%"
        /\ val = (Math_round (n * 100) / 100)%float
        /\ finite val = true
        /\ exact (Math_round (n * 100)%float) == inject_Z z
        /\ exact (n * 100)%float - (1 # 2) < inject_Z z
        /\ inject_Z z <= exact (n * 100)%float + (1 # 2)
        /\ near ((1 # 200)
                 + (Qabs (exact val)
                    + Qabs (exact (n * 100)%float) * (1 # 100))
                   * unit_roundoff
                 + 2 * half_tiny)
                (exact val) (exact n)).
Proof.
  split.
  - intros H. unfold fmtPct. rewrite H. reflexivity.
  - intros Hy. pose proof (finite_mul_l _ _ Hy) as Hn.
    destruct (Math_round_spec _ Hy) as (HR & z & Ez & Hlo & Hhi).
    pose proof (div_hundred_finite _ HR) as Hval.
    exists (Math_round (n * 100) / 100)%float, z.
    split; [unfold fmtPct; rewrite Hn; reflexivity|].
    split; [reflexivity|]. split; [exact Hval|].
    split; [exact Ez|]. split; [exact Hlo|]. split; [exact Hhi|].
    pose proof (div_error _ _ Hval) as E1.
    pose proof (mul_error _ _ Hy) as E2.
    rewrite exact_hundred in E1, E2. rewrite Ez in E1.
    set (v := exact (Math_round (n * 100) / 100)%float) in *.
    set (y := exact (n * 100)%float) in *.
    set (x := exact n) in *. set (zq := inject_Z z) in *.
    clearbody v y x zq.
    pose proof half_tiny_nonneg as Ht.
    unfold unit_roundoff in *.
    change (1 # 2 ^ 53) with (1 # 9007199254740992) in *.
    set (h := half_tiny) in *. clearbody h.
    assert (Ed : zq / 100 == zq * (1 # 100)) by field.
    rewrite Ed in E1.
    apply Qabs_Qle_condition in E1, E2.
    set (av := Qabs v) in *. set (ay := Qabs y) in *.
    pose proof (Qabs_nonneg y) as Ny. fold ay in Ny.
    clearbody av ay.
    unfold near. split; lra.
Qed.

End FmtPctFacts.

(** ** Labels and whitespace *)

Lemma trimStart_white (s : jsstring) : Forall white s -> trimStart s = [].
Proof.
  induction 1 as [|c s Hc _ IH]; simpl; [reflexivity|].
  unfold white in Hc. rewrite Hc. assumption.
Qed.

Lemma trimStart_skip (l s : jsstring) :
  Forall white l -> trimStart (l ++ s) = trimStart s.
Proof.
  induction 1 as [|c l Hc _ IH]; simpl; [reflexivity|].
  unfold white in Hc. rewrite Hc. assumption.
Qed.

Lemma trimStart_blank (s : jsstring) : trimStart s = [] -> Forall white s.
Proof.
  induction s as [|c s IH]; simpl; [constructor|].
  destruct (is_white c) eqn:E; [|discriminate].
  intros H. constructor; [exact E | apply IH; assumption].
Qed.

Lemma trimStart_app (s r : jsstring) :
  trimStart s <> [] -> trimStart (s ++ r) = trimStart s ++ r.
Proof.
  induction s as [|c s IH]; simpl; [congruence|].
  destruct (is_white c); [assumption | reflexivity].
Qed.

Lemma trimEnd_skip (s r : jsstring) :
  Forall white r -> trimEnd (s ++ r) = trimEnd s.
Proof.
  intros Hr. unfold trimEnd. rewrite rev_app_distr.
  rewrite trimStart_skip by (apply Forall_rev; assumption). reflexivity.
Qed.

Lemma trim_surrounded (l s r : jsstring) :
  Forall white l -> Forall white r -> trim (l ++ s ++ r) = trim s.
Proof.
  intros Hl Hr. unfold trim. rewrite trimStart_skip by assumption.
  destruct (trimStart s) as [|c u] eqn:E.
  - apply trimStart_blank in E.
    rewrite trimStart_white; [reflexivity|].
    apply Forall_app; split; assumption.
  - rewrite trimStart_app by congruence. rewrite E.
    apply trimEnd_skip; assumption.
Qed.

Lemma trim_trim (s : jsstring) : trim (trim s) = trim s.
Proof.
  destruct (trim_split s) as [l [r [E [Hl Hr]]]].
  rewrite E at 2. symmetry. apply trim_surrounded; assumption.
Qed.

(** X14: whitespace around a label does not count: a label with whitespace
    put before and after it gives the same category array as the label
    itself. *)
Theorem addCategory_ignores_surrounding_whitespace
        (l label r : jsstring) (st : State) :
  Forall white l -> Forall white r ->
  categories (addCategoryLabel (l ++ label ++ r) st)
  = categories (addCategoryLabel label st).
Proof.
  intros Hl Hr. rewrite !addCategoryLabel_categories.
  rewrite trim_surrounded by assumption. reflexivity.
Qed.

(** X15: [addCategory] keeps the category array tidy (no label twice, none
    empty, none with whitespace around it) and only ever appends to it; the
    default array, which [resetAll] installs, is tidy. *)
Theorem categories_stay_tidy (st : State) :
  tidy_categories (categories st) ->
  tidy_categories (categories (addCategory st))
  /\ (exists added, categories (addCategory st) = categories st ++ added
                    /\ (length added <= 1)%nat)
  /\ (forall answer, tidy_categories (categories (resetAll answer st))).
Proof.
  intros [Hnd Hall].
  assert (Hdef : tidy_categories default_categories).
  { split; [apply default_categories_NoDup|].
    repeat constructor; discriminate. }
  split; [|split].
  - rewrite addCategory_categories.
    destruct (str_falsy (trim (newCat st))) eqn:E; [split; assumption|].
    destruct (includes (categories st) (trim (newCat st))) eqn:I;
      [split; assumption|].
    split.
    + apply NoDup_app; [assumption | constructor; [intros [] | constructor] |].
      intros x Hx [<- | []]. apply includes_In in Hx. congruence.
    + apply Forall_app; split; [assumption|].
      constructor; [|constructor]. split; [|apply trim_trim].
      intros Z. apply str_falsy_nil in Z. congruence.
  - rewrite addCategory_categories.
    destruct (str_falsy (trim (newCat st)));
      [exists []; rewrite app_nil_r; split; [reflexivity | simpl; lia]|].
    destruct (includes (categories st) (trim (newCat st)));
      [exists []; rewrite app_nil_r; split; [reflexivity | simpl; lia]|].
    eexists; split; [reflexivity | simpl; lia].
  - intros [|]; simpl; [exact Hdef | split; assumption].
Qed.

(** X16: products keep pointing into the category array: if every product's
    category is unset or a label of the array, this still holds after
    [addRow], [removeRow], [addCategory], [resetAll], and after [updateRow]
    with a patch whose category, if it gives one, is a label of the array. *)
Theorem categories_stay_known (st : State) :
  categories_known st ->
  (forall fresh, categories_known (addRow fresh st))
  /\ (forall i, categories_known (removeRow i st))
  /\ categories_known (addCategory st)
  /\ (forall answer, categories_known (resetAll answer st))
  /\ (forall i patch, selectable patch st ->
                      categories_known (updateRow i patch st)).
Proof.
  unfold categories_known. intros H.
  split; [|split; [|split; [|split]]].
  - intros fresh. unfold addRow; simpl.
    apply Forall_app; split; [assumption|].
    constructor; [|constructor]. simpl.
    destruct (categories st); [left; reflexivity | right; left; reflexivity].
  - intros i. unfold removeRow; simpl.
    apply Forall_forall. intros p Hp. apply filter_In in Hp as [Hp _].
    rewrite Forall_forall in H. apply H; assumption.
  - assert (Hp : products (addCategory st) = products st).
    { unfold addCategory.
      destruct (str_falsy (trim (newCat st))); [reflexivity|].
      destruct (includes (categories st) (trim (newCat st))); reflexivity. }
    rewrite Hp, addCategory_categories.
    destruct (str_falsy (trim (newCat st))); [assumption|].
    destruct (includes (categories st) (trim (newCat st))); [assumption|].
    eapply Forall_impl; [|exact H].
    intros p [E | Hin]; [left; assumption | right; apply in_or_app; left; assumption].
  - intros [|]; simpl; [constructor | assumption].
  - intros i patch Hsel. unfold updateRow; simpl.
    apply Forall_forall. intros p' Hp'.
    apply in_map_iff in Hp' as [p [<- Hp]].
    rewrite Forall_forall in H. specialize (H p Hp).
    destruct (str_eqb (id p) i); [|assumption].
    unfold spread; simpl. unfold selectable in Hsel.
    destruct (patch_category patch); [right; assumption | assumption].
Qed.


(** ** Further checks on concrete inputs *)

Lemma shares_not_negative_witness :
  Forall (fun r => not_negative (sum r) /\ not_negative (share r))
         (rows [telefon; non]).
Proof.
  apply (shares_not_negative [telefon; non]).
  repeat constructor.
Defined.

Lemma cosmetic_update_keeps_summary_witness :
  rows (products (updateRow (lit "p2") (rename (lit "Lavash")) first_load))
  = rows (products first_load).
Proof.
  apply (cosmetic_update_keeps_summary (lit "p2") (rename (lit "Lavash"))
                                       first_load).
  repeat split.
Defined.

Lemma first_load_ids_NoDup : NoDup (ids (products first_load)).
Proof.
  constructor; [|constructor; [intros [] | constructor]].
  intros [H | []]. discriminate H.
Qed.

Lemma ids_stay_unique_witness :
  NoDup (ids (products (removeRow (lit "p1") first_load)))
  /\ NoDup (ids (products (addRow (lit "p3") first_load))).
Proof.
  destruct (ids_stay_unique first_load first_load_ids_NoDup)
    as (Hadd & Hrem & _).
  split; [apply Hrem | apply Hadd].
  intros [H | [H | []]]; discriminate H.
Defined.

Lemma removeRow_addRow_witness :
  removeRow (lit "p3") (addRow (lit "p3") first_load) = first_load.
Proof.
  apply (removeRow_addRow (lit "p3") first_load).
  intros [H | [H | []]]; discriminate H.
Defined.

Lemma removeRow_lowers_total_witness :
  near ((2 * Qnat (length (products first_load)) - 1) * (2200 * unit_roundoff))
       (exact (totalSum (products (removeRow (lit "p2") first_load))))
       (exact (totalSum (products first_load)) - exact (lineTotal non)).
Proof.
  apply (removeRow_lowers_total 2200 first_load [telefon] [] non).
  - reflexivity.
  - intros q [<- | []]. discriminate.
  - cbn [first_load products loop_bounded]. unfold add_bounded.
    repeat split; try reflexivity;
      try (apply Qle_bool_iff; vm_compute; reflexivity).
  - cbn [app loop_bounded]. unfold add_bounded.
    repeat split; try reflexivity;
      try (apply Qle_bool_iff; vm_compute; reflexivity).
Defined.

Lemma updateRow_idempotent_commutes_witness :
  updateRow (lit "p1") (rename (lit "Soat"))
            (updateRow (lit "p2") (rename (lit "Lavash")) first_load)
  = updateRow (lit "p2") (rename (lit "Lavash"))
              (updateRow (lit "p1") (rename (lit "Soat")) first_load).
Proof.
  destruct (updateRow_idempotent_commutes
              (lit "p1") (lit "p2") (rename (lit "Soat"))
              (rename (lit "Lavash")) first_load)
    as [_ H]; [reflexivity | reflexivity |].
  apply H. discriminate.
Defined.

Lemma saveLS_then_loadLS_witness :
  loadLS parse_flag
         (storage (saveLS stringify_flag always_accepts (lit "app.flag") true
                          fresh_world))
         (lit "app.flag") false = true.
Proof.
  destruct (saveLS_then_loadLS parse_flag stringify_flag always_accepts
                               (lit "app.flag") true fresh_world)
    as [H _]; [reflexivity | reflexivity | reflexivity |].
  apply H.
Defined.

Lemma saveLS_refused_keeps_snapshot_witness :
  loadLS parse_flag
         (storage (saveLS stringify_flag accepts_short (lit "app.flag") false
                     (saveLS stringify_flag accepts_short (lit "app.flag") true
                             fresh_world)))
         (lit "app.flag") false = true.
Proof.
  destruct (saveLS_refused_keeps_snapshot parse_flag stringify_flag
              accepts_short (lit "app.flag") true false fresh_world)
    as [H _]; [reflexivity | reflexivity | reflexivity | reflexivity |].
  apply H.
Defined.


Lemma reload_restores_state_witness :
  products
    (initial_state parse_sample_categories parse_sample_products
       (lit "u1") (lit "u2")
       (storage (run_effects stringify_sample_categories
                             stringify_sample_products always_accepts
                             saved_state fresh_world)))
  = [telefon; non]
  /\ categories
       (initial_state parse_sample_categories parse_sample_products
          (lit "u1") (lit "u2")
          (storage (run_effects stringify_sample_categories
                                stringify_sample_products always_accepts
                                saved_state fresh_world)))
     = [lit "Xitoy"; lit "O'zbekiston"; lit "Turkiya"].
Proof.
  exact (reload_restores_state
           parse_sample_categories parse_sample_products
           stringify_sample_categories stringify_sample_products
           always_accepts (lit "u1") (lit "u2") saved_state fresh_world
           eq_refl eq_refl eq_refl eq_refl eq_refl eq_refl).
Defined.

(** Without a saved state the same initialisers give the two sample
    products under the fresh identifiers and the two default categories. *)
Example first_load_from_empty_store :
  map id (products (initial_state parse_sample_categories
                                  parse_sample_products (lit "u1") (lit "u2")
                                  empty_store))
  = [lit "u1"; lit "u2"]
  /\ categories (initial_state parse_sample_categories parse_sample_products
                               (lit "u1") (lit "u2") empty_store)
     = default_categories.
Proof. split; reflexivity. Qed.

Lemma addCategory_ignores_surrounding_whitespace_witness :
  categories (addCategoryLabel (lit "  " ++ lit "Turkiya" ++ lit " ") first_load)
  = categories (addCategoryLabel (lit "Turkiya") first_load).
Proof.
  apply (addCategory_ignores_surrounding_whitespace
           (lit "  ") (lit "Turkiya") (lit " ") first_load);
    repeat constructor.
Defined.

Lemma first_load_tidy : tidy_categories (categories first_load).
Proof.
  split; [apply default_categories_NoDup|].
  repeat constructor; discriminate.
Qed.

Lemma categories_stay_tidy_witness :
  tidy_categories (categories (addCategory (setNewCat (lit " Turkiya") first_load))).
Proof.
  destruct (categories_stay_tidy (setNewCat (lit " Turkiya") first_load)
                                 first_load_tidy) as [H _].
  exact H.
Defined.

Lemma first_load_known : categories_known first_load.
Proof.
  constructor; [right; left; reflexivity|].
  constructor; [right; right; left; reflexivity | constructor].
Qed.

Lemma categories_stay_known_witness :
  categories_known (addRow (lit "p3") first_load)
  /\ categories_known
       (updateRow (lit "p1")
                  (mkPatch None None None None (Some (lit "O'zbekiston")))
                  first_load).
Proof.
  destruct (categories_stay_known first_load first_load_known)
    as (Hadd & _ & _ & _ & Hupd).
  split; [apply Hadd | apply Hupd].
  right; left; reflexivity.
Defined.

(** The shares of the first load as shown, and a share of 0.015: its
    hundredfold is exactly 1.5 and rounds up. *)
Example two_hundredths_shown :
  0.015 * 100 = 1.5 /\ Math_round (0.015 * 100) / 100 = 0.02
  /\ Math_round (90.909090909090907 * 100) / 100 = 90.91
  /\ Math_round (9.0909090909090917 * 100) / 100 = 9.09
  /\ map Math_round [2.5; -2.5; 0.49999999999999994; -0.5]
     = [3; -2; 0; -0].
Proof. repeat split. Qed.
